(** * Outcome and settlement logic of the solana-casino application

    A shallow embedding of the game-outcome code of the front end
    (coin flip, dice, crash, roulette, slots, plinko, blackjack), of its
    helpers and hooks, and of the payout server, together with the
    properties the specification states about them and further
    properties of the code.

    The file has three parts: the embedding of the code, module by
    module; the vocabulary in which the properties are stated, with the
    concrete inputs they are exercised on; and the lemmas and theorems,
    first those behind the statements of the specification, then
    further properties of the code.

    Conventions.
    - JavaScript numbers are rationals ([Q]); integers read from a
      digest are [Z].  Where the result of the code depends on the
      rounding of double precision (the conversion of an amount to
      lamports, the balance checks, the sum of the chips on a table),
      the arithmetic is that of module [Double], which rounds every
      operand and every result to the nearest double.  Where a draw is
      computed from one digest byte, the agreement of the exact
      evaluation with double precision is checked on all 256 bytes.
    - [crypto.subtle.digest("SHA-256", ...)] is modelled by an executable
      SHA-256 on byte lists, so that every definition can be evaluated on
      concrete seeds.
    - Calls to the chain (RPC) are modelled by explicit replies handed to
      the code, and the steps the code takes are collected in a trace.
    - A React state variable is the constant of the render that created
      the handler; a functional update [setX(prev => ...)] applies to the
      state itself.
    - The values of [Math.random()] and [Date.now()] are arguments of
      the functions that read them, and [Math.pow] is a parameter.
    - Arrays are lists; an index outside an array reads [undefined],
      which is [None]. *)

From Stdlib Require Import ZArith String Ascii List QArith Qround Qminmax.
From Stdlib Require Import Lia Lqa Bool DecimalString Floats.
From Stdlib Require Import Permutation Sorted.
Import ListNotations.

(* ================================================================== *)
(** ** SHA-256 (the digest behind [crypto.subtle.digest])              *)
(* ================================================================== *)

Module Sha256.
Local Open Scope Z_scope.

Definition wordsize : Z := 2 ^ 32.

Definition trunc32 (x : Z) : Z := x mod wordsize.

Definition plus32 (x y : Z) : Z := trunc32 (x + y).

Definition rotr (n x : Z) : Z :=
  Z.lor (Z.shiftr x n) (trunc32 (Z.shiftl x (32 - n))).

Definition not32 (x : Z) : Z := Z.lxor x (wordsize - 1).

Definition choose (x y z : Z) : Z :=
  Z.lxor (Z.land x y) (Z.land (not32 x) z).

Definition majority (x y z : Z) : Z :=
  Z.lxor (Z.lxor (Z.land x y) (Z.land x z)) (Z.land y z).

Definition bigsig0 (x : Z) : Z :=
  Z.lxor (Z.lxor (rotr 2 x) (rotr 13 x)) (rotr 22 x).

Definition bigsig1 (x : Z) : Z :=
  Z.lxor (Z.lxor (rotr 6 x) (rotr 11 x)) (rotr 25 x).

Definition smallsig0 (x : Z) : Z :=
  Z.lxor (Z.lxor (rotr 7 x) (rotr 18 x)) (Z.shiftr x 3).

Definition smallsig1 (x : Z) : Z :=
  Z.lxor (Z.lxor (rotr 17 x) (rotr 19 x)) (Z.shiftr x 10).

(** The round constants are the first 32 fractional bits of the cube
    roots of the first 64 primes; the initial state uses the square
    roots of the first 8.  Both are computed rather than tabulated. *)

Definition primes64 : list Z :=
  [2; 3; 5; 7; 11; 13; 17; 19; 23; 29; 31; 37; 41; 43; 47; 53;
   59; 61; 67; 71; 73; 79; 83; 89; 97; 101; 103; 107; 109; 113; 127; 131;
   137; 139; 149; 151; 157; 163; 167; 173; 179; 181; 191; 193; 197; 199;
   211; 223; 227; 229; 233; 239; 241; 251; 257; 263; 269; 271; 277; 281;
   283; 293; 307; 311].

Fixpoint cube_root_between (fuel : nat) (lo hi n : Z) : Z :=
  match fuel with
  | O => lo
  | S fuel' =>
      let mid := (lo + hi + 1) / 2 in
      if mid * mid * mid <=? n
      then cube_root_between fuel' mid hi n
      else cube_root_between fuel' lo (mid - 1) n
  end.

Definition cube_root (n : Z) : Z := cube_root_between 40 0 (2 ^ 36) n.

Definition round_constants : list Z :=
  Eval vm_compute in
    map (fun p => trunc32 (cube_root (p * 2 ^ 96))) primes64.

Definition initial_state : list Z :=
  Eval vm_compute in
    map (fun p => trunc32 (Z.sqrt (p * 2 ^ 64))) (firstn 8 primes64).

(** Padding: a [0x80] byte, zeros up to 56 modulo 64, then the bit
    length on 8 bytes, most significant first. *)

Fixpoint be_bytes (n : nat) (x : Z) : list Z :=
  match n with
  | O => []
  | S n' => (Z.shiftr x (8 * Z.of_nat n')) mod 256 :: be_bytes n' x
  end.

Definition pad (msg : list Z) : list Z :=
  let len := Z.of_nat (List.length msg) in
  let zeros := Z.to_nat ((55 - len) mod 64) in
  msg ++ [128] ++ repeat 0 zeros ++ be_bytes 8 (8 * len).

Fixpoint be_word (bs : list Z) (acc : Z) : Z :=
  match bs with
  | [] => acc
  | b :: bs' => be_word bs' (acc * 256 + b)
  end.

Fixpoint words_of (n : nat) (bs : list Z) : list Z :=
  match n with
  | O => []
  | S n' => be_word (firstn 4 bs) 0 :: words_of n' (skipn 4 bs)
  end.

(** The message schedule is grown newest-first, so that the four words
    the recurrence reads sit at fixed offsets from the head. *)

Fixpoint schedule_rev (n : nat) (ws : list Z) : list Z :=
  match n with
  | O => ws
  | S n' =>
      let w :=
        plus32 (plus32 (smallsig1 (nth 1 ws 0)) (nth 6 ws 0))
               (plus32 (smallsig0 (nth 14 ws 0)) (nth 15 ws 0)) in
      schedule_rev n' (w :: ws)
  end.

Definition schedule (block : list Z) : list Z :=
  List.rev (schedule_rev 48 (List.rev (words_of 16 block))).

Record regs := Regs { ra : Z; rb : Z; rc : Z; rd : Z;
                      re : Z; rf : Z; rg : Z; rh : Z }.

Definition round (s : regs) (kw : Z * Z) : regs :=
  let t1 := plus32 (plus32 (plus32 (rh s) (bigsig1 (re s)))
                           (plus32 (choose (re s) (rf s) (rg s)) (fst kw)))
                   (snd kw) in
  let t2 := plus32 (bigsig0 (ra s)) (majority (ra s) (rb s) (rc s)) in
  Regs (plus32 t1 t2) (ra s) (rb s) (rc s) (plus32 (rd s) t1) (re s) (rf s) (rg s).

Definition regs_of (l : list Z) : regs :=
  Regs (nth 0 l 0) (nth 1 l 0) (nth 2 l 0) (nth 3 l 0)
       (nth 4 l 0) (nth 5 l 0) (nth 6 l 0) (nth 7 l 0).

Definition list_of (s : regs) : list Z :=
  [ra s; rb s; rc s; rd s; re s; rf s; rg s; rh s].

Definition compress (h : list Z) (block : list Z) : list Z :=
  let s := fold_left round (combine round_constants (schedule block)) (regs_of h) in
  map (fun p => plus32 (fst p) (snd p)) (combine h (list_of s)).

Fixpoint blocks (n : nat) (h : list Z) (bs : list Z) : list Z :=
  match n with
  | O => h
  | S n' => blocks n' (compress h (firstn 64 bs)) (skipn 64 bs)
  end.

(** [digest msg] is the 32-byte SHA-256 digest of the byte list [msg]. *)
Definition digest (msg : list Z) : list Z :=
  let padded := pad msg in
  let h := blocks (Nat.div (List.length padded) 64) initial_state padded in
  flat_map (be_bytes 4) h.

End Sha256.

(** [new TextEncoder().encode(s)]: the bytes of the string. *)
Definition encode (s : string) : list Z :=
  map (fun a => Z.of_N (N_of_ascii a)) (list_ascii_of_string s).

(** [new Uint8Array(await crypto.subtle.digest("SHA-256", encode(s)))]. *)
Definition sha256 (s : string) : list Z := Sha256.digest (encode s).

Arguments sha256 : simpl never.

(* ================================================================== *)
(** ** JavaScript values                                               *)
(* ================================================================== *)

Module Js.

(** [x < y] on numbers. *)
Definition Qltb (x y : Q) : bool := negb (Qle_bool y x).

(** A string in a condition: the empty string is falsy. *)
Definition truthy (s : string) : bool := negb (String.eqb s "").

(** A number in a condition: zero is falsy. *)
Definition nonzero (x : Q) : bool := negb (Qeq_bool x 0).

(** [x + y] and [x * y] where an operand may be [NaN], which is [None]:
    the result is then [NaN]. *)
Definition plus (x y : option Q) : option Q :=
  match x, y with
  | Some a, Some b => Some (a + b)
  | _, _ => None
  end.

Definition times (x y : option Q) : option Q :=
  match x, y with
  | Some a, Some b => Some (a * b)
  | _, _ => None
  end.

(** [`${n}`] for a non-negative integer. *)
Definition numberToString (n : N) : string :=
  NilZero.string_of_uint (N.to_uint n).

End Js.

(* ================================================================== *)
(** ** Double precision                                                *)
(* ================================================================== *)

(** The arithmetic of JavaScript numbers where its rounding matters.  A
    number is the rational value of a double; a rational that is not a
    double (a decimal literal, a parsed input) stands for the nearest
    double, ties to even, as the parser of the language reads it.  The
    rounding is the one of the standard library's [SpecFloat], which
    specifies the primitive floats.  [Infinity] is represented by the
    first power of two beyond the doubles, which compares with every
    double as [Infinity] does. *)
Module Double.

(** The double nearest to a rational: the correctly rounded quotient of
    its numerator and denominator. *)
Definition nearest (q : Q) : spec_float :=
  match Qnum q with
  | Z0 => S754_zero false
  | Zpos n =>
      SFdiv prec emax (S754_finite false n 0) (S754_finite false (Qden q) 0)
  | Zneg n =>
      SFdiv prec emax (S754_finite true n 0) (S754_finite false (Qden q) 0)
  end.

(** [m * 2 ^ e] *)
Definition scale (m : positive) (e : Z) : Q :=
  match e with
  | Z0 => inject_Z (Zpos m)
  | Zpos k => inject_Z (Zpos m * 2 ^ Zpos k)
  | Zneg k => Zpos m # (2 ^ k)
  end.

Definition valueOf (x : spec_float) : Q :=
  match x with
  | S754_finite s m e => if s then - scale m e else scale m e
  | S754_infinity s =>
      if s then - inject_Z (2 ^ emax) else inject_Z (2 ^ emax)
  | _ => 0
  end.

Definition round (q : Q) : Q := valueOf (nearest q).

(** [x + y] *)
Definition add (x y : Q) : Q := round (round x + round y).

(** [x * y] *)
Definition mul (x y : Q) : Q := round (round x * round y).

(** [x < y] *)
Definition ltb (x y : Q) : bool := negb (Qle_bool (round y) (round x)).

(** [Math.floor(x)] *)
Definition floor (x : Q) : Z := Qfloor (round x).

End Double.

Arguments Double.round : simpl never.
Arguments Double.add : simpl never.
Arguments Double.mul : simpl never.
Arguments Double.ltb : simpl never.
Arguments Double.floor : simpl never.

Definition LAMPORTS_PER_SOL : Q := 1000000000.

(** utils/solana.ts *)
Definition solToLamports (sol : Q) : Z :=
  Double.floor (Double.mul sol LAMPORTS_PER_SOL).

(** utils/payoutService.ts: the request and response of a payout.  The
    server reads the same five fields from the request body, where a
    missing string is read as empty and a missing number as zero. *)
Module PayoutService.

Record PayoutRequest := {
  playerWallet : string;
  amount : Q;
  gameId : string;
  blockhash : string;
  slot : N
}.

Record PayoutResponse := {
  success : bool;
  signature : option string;
  error : option string
}.

End PayoutService.

(* ================================================================== *)
(** ** Asynchronous flows of the front end                             *)
(* ================================================================== *)

(** An [async] function is run against the replies of the calls it
    awaits.  A reply [None] is a rejected promise: the flow stops and
    control reaches the enclosing [catch].  The observable steps are
    collected in order. *)

Module Flow.

Inductive Event :=
| BetSubmitted (lamports : Z) (betSignature : string)
    (* sendTransaction resolved with the signature *)
| BetConfirmation (betSignature : string) (err : bool)
    (* confirmTransaction resolved; [err] is [confirmation.value.err] *)
| Digest (seed : string)
    (* crypto.subtle.digest("SHA-256", encode(seed)) *)
| Payout (request : PayoutService.PayoutRequest).
    (* processPayout(connection, request) *)

Definition M (A : Type) : Type := (list Event * option A)%type.

Definition ret {A} (a : A) : M A := ([], Some a).

Definition throw {A} : M A := ([], None).

Definition bind {A B} (m : M A) (k : A -> M B) : M B :=
  match m with
  | (t, Some a) => let (t', r) := k a in (t ++ t', r)
  | (t, None) => (t, None)
  end.

Definition emit (e : Event) : M unit := ([e], Some tt).

Definition await {A} (reply : option A) : M A := ([], reply).

Definition trace {A} (m : M A) : list Event := fst m.

Definition value {A} (m : M A) : option A := snd m.

End Flow.

Notation "x <- m ;; k" := (Flow.bind m (fun x => k))
  (at level 61, m at next level, right associativity).
Notation "m ;;; k" := (Flow.bind m (fun _ => k))
  (at level 61, right associativity).

(* ================================================================== *)
(** ** The fairness function (utils/provablyFair)                      *)
(* ================================================================== *)

(** [generateProvablyFairResult] and [verifyResult], as the games import
    them. *)

Module ProvablyFair.
Import Js Flow.
Local Open Scope string_scope.

(** The replies of the connection to the two calls the function makes. *)
Record Connection := {
  rpcEndpoint : string;
  getLatestBlockhash : option string;
  getSlot : option N
}.

Inductive Side := heads | tails.

Definition Side_eqb (a b : Side) : bool :=
  match a, b with
  | heads, heads | tails, tails => true
  | _, _ => false
  end.

Record FairResult := {
  result : Side;
  won : bool;
  fairBlockhash : string;
  fairSlot : N;
  seed : string
}.

Definition combinedSeed (blockhash : string) (slot : N)
    (userSeed : option string) : string :=
  match userSeed with
  | Some u =>
      if truthy u
      then blockhash ++ "-" ++ numberToString slot ++ "-" ++ u
      else blockhash ++ "-" ++ numberToString slot
  | None => blockhash ++ "-" ++ numberToString slot
  end.

(** [new Uint8Array(hash)[0]] *)
Definition firstByte (hash : list Z) : Z := nth 0 hash 0%Z.

(** [(randomValue / 255) * 100] *)
Definition randomPercent (randomValue : Z) : Q :=
  (inject_Z randomValue / 255) * 100.

Definition generateProvablyFairResult (connection : Connection)
    (winChance : Q) (userSeed : option string) : M FairResult :=
  blockhash <- await (getLatestBlockhash connection) ;;
  slot <- await (getSlot connection) ;;
  let combinedSeed := combinedSeed blockhash slot userSeed in
  emit (Digest combinedSeed) ;;;
  let hash := sha256 combinedSeed in
  let randomValue := firstByte hash in
  let randomPercent := randomPercent randomValue in
  let won := Qltb randomPercent winChance in
  let result := if won then heads else tails in
  ret {| result := result; won := won; fairBlockhash := blockhash;
         fairSlot := slot; seed := combinedSeed |}.

Definition verifyResult (seed : string) (expectedResult : Side) : bool :=
  let hash := sha256 seed in
  let randomValue := firstByte hash in
  let result := if (randomValue <? 128)%Z then heads else tails in
  Side_eqb result expectedResult.

End ProvablyFair.

(** utils/validation.ts, on the parsed amount *)
Module Validation.
Import Js.

Definition validateAmount (num : Q) : bool := Qltb 0 num.

Definition defaultFee : Q := 5 / 1000000.

Definition validateBalance (amount balance : Q) : bool :=
  if Qle_bool amount 0 then false
  else if Double.ltb balance (Double.add amount defaultFee) then false
  else true.

End Validation.

(** The replies a wager flow receives, one per call site, in program
    order: the blockhash fetched for the bet transaction, the wallet's
    [sendTransaction], [confirmTransaction], then the connection as the
    fairness function sees it, the clock and the payout service. *)
Record Chain := {
  betBlockhash : option string;
  sendTransaction : option string;
  confirmTransaction : option bool;
  fairConnection : ProvablyFair.Connection;
  now : N;
  processPayout : PayoutService.PayoutResponse
}.

(* ================================================================== *)
(** ** components/CoinFlipGame.tsx                                     *)
(* ================================================================== *)

Module CoinFlip.
Import Js Flow ProvablyFair Validation PayoutService.
Local Open Scope string_scope.

(** config/game-config.ts, [GAME_CONFIG] *)
Definition minBet : Q := 1 / 1000.
Definition maxBet : Q := 10.
Definition winMultiplier : Q := 2.
Definition houseEdge : Q := 0.

Definition validateBet (amount balance : Q) : bool :=
  validateAmount amount
  && negb (Qltb amount minBet)
  && negb (Qltb maxBet amount)
  && validateBalance amount balance.

Definition opposite (s : Side) : Side :=
  match s with heads => tails | tails => heads end.

(** What the round leaves behind: the side shown, the recorded game
    result, the amount credited to the history entry and the reply of
    the payout service when a payout was requested. *)
Record Round := {
  coinResult : Side;
  didWin : bool;
  payout : Q;
  fair : FairResult;
  payoutReply : option PayoutResponse
}.

Definition flipCoin (chain : Chain) (publicKey : string)
    (amount balance : Q) (selectedSide : Side) : M Round :=
  if negb (validateBet amount balance) then throw else
  (* STEP 1: send the bet to the house wallet and wait for confirmation *)
  await (betBlockhash chain) ;;;
  betSignature <- await (sendTransaction chain) ;;
  emit (BetSubmitted (solToLamports amount) betSignature) ;;;
  err <- await (confirmTransaction chain) ;;
  emit (BetConfirmation betSignature err) ;;;
  if err then throw else
  (* STEP 2: flip *)
  fairResult <- generateProvablyFairResult (fairConnection chain) 50 (Some publicKey) ;;
  let coinResult := if won fairResult then selectedSide else opposite selectedSide in
  let didWin := won fairResult in
  if didWin then
    (* STEP 3: payout *)
    let payoutAmount := amount * winMultiplier in
    emit (Payout {| playerWallet := publicKey;
                    amount := payoutAmount;
                    gameId := "game_" ++ numberToString (now chain);
                    blockhash := fairBlockhash fairResult;
                    slot := fairSlot fairResult |}) ;;;
    ret {| coinResult := coinResult; didWin := didWin;
           payout := amount * winMultiplier; fair := fairResult;
           payoutReply := Some (processPayout chain) |}
  else
    ret {| coinResult := coinResult; didWin := didWin;
           payout := 0; fair := fairResult; payoutReply := None |}.

End CoinFlip.

(* ================================================================== *)
(** ** The dice game ([DiceGame])                                      *)
(* ================================================================== *)

Module Dice.
Import Js Flow ProvablyFair Validation PayoutService.
Local Open Scope string_scope.

Definition HOUSE_EDGE : Q := 1 / 100.
Definition MIN_BET : Q := 1 / 1000.
Definition MAX_BET : Q := 10.

(** [rollOver ? 100 - target : target] *)
Definition winChance (rollOver : bool) (target : Z) : Z :=
  if rollOver then (100 - target)%Z else target.

(** [((1 - HOUSE_EDGE) * 100) / winChance] *)
Definition multiplier (rollOver : bool) (target : Z) : Q :=
  ((1 - HOUSE_EDGE) * 100) / inject_Z (winChance rollOver target).

Definition validateBet (amount balance : Q) : bool :=
  validateAmount amount
  && negb (Qltb amount MIN_BET)
  && negb (Qltb MAX_BET amount)
  && validateBalance amount balance.

(** [Math.floor((hashArray[0] / 255) * 99) + 1] *)
Definition rollOf (byte : Z) : Z :=
  (Qfloor ((inject_Z byte / 255) * 99) + 1)%Z.

(** [rollOver ? rollResult > target : rollResult < target] *)
Definition wins (rollOver : bool) (target rollResult : Z) : bool :=
  if rollOver then (rollResult >? target)%Z else (rollResult <? target)%Z.

Record Round := {
  rollResult : Z;
  didWin : bool;
  payout : Q;
  fair : FairResult;
  payoutReply : option PayoutResponse
}.

Definition rollDice (chain : Chain) (publicKey : string)
    (amount balance : Q) (target : Z) (rollOver : bool) : M Round :=
  if negb (validateBet amount balance) then throw else
  (* STEP 1: send the bet to the house wallet *)
  await (betBlockhash chain) ;;;
  betSignature <- await (sendTransaction chain) ;;
  emit (BetSubmitted (solToLamports amount) betSignature) ;;;
  err <- await (confirmTransaction chain) ;;
  emit (BetConfirmation betSignature err) ;;;
  if err then throw else
  (* STEP 2: roll the dice *)
  fairResult <- generateProvablyFairResult (fairConnection chain)
                  (inject_Z (winChance rollOver target)) (Some publicKey) ;;
  let seed := fairBlockhash fairResult ++ "-" ++ numberToString (fairSlot fairResult)
              ++ "-" ++ publicKey ++ "-dice" in
  emit (Digest seed) ;;;
  let hashArray := sha256 seed in
  let rollResult := rollOf (firstByte hashArray) in
  let didWin := wins rollOver target rollResult in
  if didWin then
    let payoutAmount := amount * multiplier rollOver target in
    emit (Payout {| playerWallet := publicKey;
                    amount := payoutAmount;
                    gameId := "dice_" ++ numberToString (now chain);
                    blockhash := fairBlockhash fairResult;
                    slot := fairSlot fairResult |}) ;;;
    ret {| rollResult := rollResult; didWin := didWin;
           payout := amount * multiplier rollOver target; fair := fairResult;
           payoutReply := Some (processPayout chain) |}
  else
    ret {| rollResult := rollResult; didWin := didWin;
           payout := 0; fair := fairResult; payoutReply := None |}.

End Dice.

(* ================================================================== *)
(** ** components/games/crash/CrashGame.tsx                            *)
(* ================================================================== *)

Module Crash.
Import Js.
Local Open Scope string_scope.

Definition HOUSE_EDGE : Q := 1 / 100.

(** [new DataView(hashArray.buffer).getUint32(0)]: four bytes, most
    significant first. *)
Definition getUint32 (hashArray : list Z) : Z :=
  (nth 0 hashArray 0 * 2 ^ 24 + nth 1 hashArray 0 * 2 ^ 16
   + nth 2 hashArray 0 * 2 ^ 8 + nth 3 hashArray 0)%Z.

(** The lines after the draw:
    [if (value < HOUSE_EDGE) return 1.0]
    [const point = Math.floor((99 / (1 - value)) * 100) / 100]
    [return Math.max(1.0, Math.min(point, 1000))] *)
Definition crashPointOf (value : Q) : Q :=
  if Qltb value HOUSE_EDGE then 1
  else
    let point := inject_Z (Qfloor ((99 / (1 - value)) * 100)) / 100 in
    Qmax 1 (Qmin point 1000).

(** [value] for a given blockhash and clock reading. *)
Definition drawOf (blockhash : string) (now : N) : Q :=
  let seed := blockhash ++ "-crash-" ++ numberToString now in
  let hashArray := sha256 seed in
  inject_Z (getUint32 hashArray) / inject_Z (2 ^ 32).

(** [generateCrashPoint]: [blockhash] is the reply of
    [getLatestBlockhash] ([None] when it rejects), [random] the value
    of [Math.random()] read by the fallback. *)
Definition generateCrashPoint (blockhash : option string) (now : N)
    (random : Q) : Q :=
  match blockhash with
  | Some blockhash => crashPointOf (drawOf blockhash now)
  | None => 15 / 10 + random * 2
  end.

End Crash.

(* ================================================================== *)
(** ** The roulette game ([RouletteGame])                              *)
(* ================================================================== *)

Module Roulette.
Import Js Flow.
Local Open Scope string_scope.

Inductive BetType := number | red | black | even | odd | low | high.

Record Bet := {
  type : BetType;
  value : option Z;
  amount : Q
}.

Definition RED_NUMBERS : list Z :=
  [1; 3; 5; 7; 9; 12; 14; 16; 18; 19; 21; 23; 25; 27; 30; 32; 34; 36]%Z.

Inductive Color := colorRed | colorBlack | colorGreen.

Definition Color_eqb (a b : Color) : bool :=
  match a, b with
  | colorRed, colorRed | colorBlack, colorBlack | colorGreen, colorGreen => true
  | _, _ => false
  end.

Definition getNumberColor (num : Z) : Color :=
  if (num =? 0)%Z then colorGreen
  else if existsb (Z.eqb num) RED_NUMBERS then colorRed else colorBlack.

(** [Math.floor(Math.random() * 37)] *)
Definition winningNumberOf (random : Q) : Z := Qfloor (random * 37).

(** One iteration of [bets.forEach]: the amount added to [totalWin]. *)
Definition betWin (winningNumber : Z) (bet : Bet) : Q :=
  let winningColor := getNumberColor winningNumber in
  match type bet with
  | number =>
      match value bet with
      | Some v => if (v =? winningNumber)%Z then amount bet * 36 else 0
      | None => 0
      end
  | red => if Color_eqb winningColor colorRed then amount bet * 2 else 0
  | black => if Color_eqb winningColor colorBlack then amount bet * 2 else 0
  | even =>
      if negb (winningNumber =? 0)%Z && (Z.rem winningNumber 2 =? 0)%Z
      then amount bet * 2 else 0
  | odd => if (Z.rem winningNumber 2 =? 1)%Z then amount bet * 2 else 0
  | low =>
      if (1 <=? winningNumber)%Z && (winningNumber <=? 18)%Z
      then amount bet * 2 else 0
  | high =>
      if (19 <=? winningNumber)%Z && (winningNumber <=? 36)%Z
      then amount bet * 2 else 0
  end.

Definition totalWinOf (winningNumber : Z) (bets : list Bet) : Q :=
  fold_left (fun totalWin bet => totalWin + betWin winningNumber bet) bets 0.

(** [bets.reduce((sum, bet) => sum + bet.amount, 0)] *)
Definition totalBet (bets : list Bet) : Q :=
  fold_left (fun sum bet => Double.add sum (amount bet)) bets 0.

Record Round := {
  winningNumber : Z;
  totalWin : Q
}.

(** [spin]; [random] is the value of [Math.random()].  The result of
    [confirmTransaction] is awaited and not inspected. *)
Definition spin (chain : Chain) (publicKey : string) (bets : list Bet)
    (balance random : Q) : M Round :=
  match bets with [] => throw | _ :: _ =>
  if Double.ltb balance (totalBet bets) then throw else
  await (betBlockhash chain) ;;;
  signature <- await (sendTransaction chain) ;;
  emit (BetSubmitted (solToLamports (totalBet bets)) signature) ;;;
  err <- await (confirmTransaction chain) ;;
  emit (BetConfirmation signature err) ;;;
  let winningNumber := winningNumberOf random in
  let totalWin := totalWinOf winningNumber bets in
  (if Qltb 0 totalWin then
     emit (Payout {| PayoutService.playerWallet := publicKey;
                     PayoutService.amount := totalWin;
                     PayoutService.gameId := "roulette_" ++ numberToString (now chain);
                     PayoutService.blockhash := "";
                     PayoutService.slot := 0 |})
   else ret tt) ;;;
  ret {| winningNumber := winningNumber; totalWin := totalWin |}
  end.

End Roulette.

(* ================================================================== *)
(** ** components/games/slots/SlotsGame.tsx                            *)
(* ================================================================== *)

Module Slots.
Import Js Flow.
Local Open Scope string_scope.

(** [SYMBOLS], in the order of the source. *)
Inductive Symbol := seven | diamond | clover | bell | star | cherry | lemon.

Definition SYMBOLS : list Symbol :=
  [seven; diamond; clover; bell; star; cherry; lemon].

Definition Symbol_eqb (a b : Symbol) : bool :=
  match a, b with
  | seven, seven | diamond, diamond | clover, clover | bell, bell
  | star, star | cherry, cherry | lemon, lemon => true
  | _, _ => false
  end.

Definition WEIGHTS (s : Symbol) : Q :=
  match s with
  | seven => 1 | diamond => 3 | clover => 8 | bell => 15
  | star => 25 | cherry => 30 | lemon => 40
  end.

Inductive ThreePayout := JACKPOT | times (payout : Q).

Definition PAYOUTS_three (s : Symbol) : ThreePayout :=
  match s with
  | seven => JACKPOT | diamond => times 500 | clover => times 100
  | bell => times 50 | star => times 25 | cherry => times 10
  | lemon => times 5
  end.

Definition PAYOUTS_two (s : Symbol) : Q :=
  match s with
  | seven => 50 | diamond => 25 | clover => 10 | bell => 5
  | star => 3 | cherry => 2 | lemon => 2
  end.

Definition MIN_BET : Q := 1 / 1000.
Definition MAX_BET : Q := 5.
Definition INITIAL_JACKPOT : Q := 5000.
Definition JACKPOT_CONTRIBUTION : Q := 2 / 100.

(** [getRandomSymbol]: the loop over [Object.entries(WEIGHTS)], with
    [random] already multiplied by the total weight. *)
Fixpoint pick (random : Q) (entries : list Symbol) : Symbol :=
  match entries with
  | [] => lemon
  | symbol :: rest =>
      let random := random - WEIGHTS symbol in
      if Qle_bool random 0 then symbol else pick random rest
  end.

Definition getRandomSymbol (mathRandom : Q) : Symbol :=
  let totalWeight := fold_left (fun a b => a + b) (map WEIGHTS SYMBOLS) 0 in
  pick (mathRandom * totalWeight) SYMBOLS.

(** The label of a win.  The source builds a string and later tests
    [result.type.includes("JACKPOT")]; only the label of the jackpot case
    contains that word, the others being [Three <symbol> - <n>x],
    [Two <symbol> - <n>x] and the empty string. *)
Inductive WinType :=
| typeJackpot
| typeThree (s : Symbol) (payout : Q)
| typeTwo (s : Symbol) (payout : Q)
| typeNone.

Definition includesJACKPOT (t : WinType) : bool :=
  match t with typeJackpot => true | _ => false end.

Record Win := { amount : Q; type : WinType }.

(** [calculateWin] reads the component's [jackpot]; it is the first
    argument here. *)
Definition calculateWin (jackpot : Q) (symbols : Symbol * Symbol * Symbol)
    (betAmt : Q) : Win :=
  let '(s1, s2, s3) := symbols in
  if Symbol_eqb s1 s2 && Symbol_eqb s2 s3 then
    match PAYOUTS_three s1 with
    | JACKPOT => {| amount := jackpot; type := typeJackpot |}
    | times payout => {| amount := betAmt * payout; type := typeThree s1 payout |}
    end
  else if Symbol_eqb s1 s2 then
    {| amount := betAmt * PAYOUTS_two s1; type := typeTwo s1 (PAYOUTS_two s1) |}
  else if Symbol_eqb s2 s3 then
    {| amount := betAmt * PAYOUTS_two s2; type := typeTwo s2 (PAYOUTS_two s2) |}
  else if Symbol_eqb s1 s3 then
    {| amount := betAmt * PAYOUTS_two s1; type := typeTwo s1 (PAYOUTS_two s1) |}
  else {| amount := 0; type := typeNone |}.

(** What a spin leaves behind.  [poolAtResult] is the value of the
    jackpot state when the reels have stopped, before the win is
    handled; [jackpotAfter] is the state once the spin is over. *)
Record Round := {
  finalReels : Symbol * Symbol * Symbol;
  result : Win;
  poolAtResult : Q;
  jackpotAfter : Q
}.

(** [spin].  [jackpot] is the state of the render whose [spin] runs.
    [jackpot] is a constant of that render: the handler and the
    [calculateWin] it calls keep reading this value for as long as they
    run, whereas [setJackpot(prev => ...)] applies to the state itself.
    [random1..3] are the three values of [Math.random()]. *)
Definition spin (chain : Chain) (publicKey : string) (jackpot : Q)
    (amount balance : Q) (random1 random2 random3 : Q) : M Round :=
  if Qltb amount MIN_BET then throw else
  if Qltb MAX_BET amount then throw else
  if Qltb balance amount then throw else
  await (betBlockhash chain) ;;;
  signature <- await (sendTransaction chain) ;;
  emit (BetSubmitted (solToLamports amount) signature) ;;;
  err <- await (confirmTransaction chain) ;;
  emit (BetConfirmation signature err) ;;;
  (* setJackpot((prev) => prev + amount * JACKPOT_CONTRIBUTION) *)
  let state := jackpot + amount * JACKPOT_CONTRIBUTION in
  let finalReels :=
    (getRandomSymbol random1, getRandomSymbol random2, getRandomSymbol random3) in
  let result := calculateWin jackpot finalReels amount in
  if Qltb 0 (Slots.amount result) then
    (* setJackpot(INITIAL_JACKPOT) on a jackpot *)
    let state' := if includesJACKPOT (type result) then INITIAL_JACKPOT else state in
    emit (Payout {| PayoutService.playerWallet := publicKey;
                    PayoutService.amount := Slots.amount result;
                    PayoutService.gameId := "slots_" ++ numberToString (now chain);
                    PayoutService.blockhash := "";
                    PayoutService.slot := 0 |}) ;;;
    ret {| finalReels := finalReels; result := result;
           poolAtResult := state; jackpotAfter := state' |}
  else
    ret {| finalReels := finalReels; result := result;
           poolAtResult := state; jackpotAfter := state |}.

End Slots.

(* ================================================================== *)
(** ** The payout server ([app.post("/api/payout", ...)])              *)
(* ================================================================== *)

Module PayoutServer.
Import Js PayoutService.
Local Open Scope string_scope.

(** An awaited call either resolves or rejects with an error message. *)
Inductive Reply (A : Type) :=
| resolves (a : A)
| rejects (message : string).
Arguments resolves {A} a.
Arguments rejects {A} message.

(** The replies of the connection to the calls of one request, and the
    clock. *)
Record Rpc := {
  getBalance : Reply Z;
  getLatestBlockhash : Reply (string * Z);
  sendRawTransaction : Reply string;
  confirmTransaction : Reply bool;   (* [confirmation.value.err] is set *)
  now : N
}.

(** The calls a request makes on the connection, in order. *)
Inductive Call :=
| callGetBalance
| callGetLatestBlockhash
| callSendRawTransaction (toPubkey : string) (lamports : Z)
| callConfirmTransaction (signature : string).

Definition isSend (c : Call) : bool :=
  match c with callSendRawTransaction _ _ => true | _ => false end.

(** An entry of [payoutHistory]. *)
Module Rec.
Record PayoutRecord := {
  gameId : string;
  playerWallet : string;
  amount : Q;
  signature : string;
  blockhash : string;
  slot : N;
  timestamp : N
}.
End Rec.

(** The HTTP answer: status code and JSON body. *)
Module Res.
Record Response := {
  status : Z;
  success : bool;
  signature : option string;
  error : option string;
  message : option string;
  explorerUrl : option string
}.
End Res.

Definition failure (status : Z) (error : string) : Res.Response :=
  {| Res.status := status; Res.success := false; Res.signature := None;
     Res.error := Some error; Res.message := None; Res.explorerUrl := None |}.

(** The server's variables: the house keypair (by its public key) and
    the two stores. [pendingPayouts] is a [Map] used as a set of keys. *)
Record Server := {
  houseKeypair : option string;
  payoutHistory : list Rec.PayoutRecord;
  pendingPayouts : list string
}.

Definition has (m : list string) (k : string) : bool :=
  existsb (String.eqb k) m.

Definition set (m : list string) (k : string) : list string :=
  if has m k then m else m ++ [k].

Definition delete (m : list string) (k : string) : list string :=
  filter (fun k' => negb (String.eqb k k')) m.

Section Handler.

(** [new PublicKey(s)] succeeds. *)
Variable isPublicKey : string -> bool.

(** [process.env.SOLANA_NETWORK || "devnet"] *)
Variable network : string.

Definition withPending (st : Server) (pending : list string) : Server :=
  {| houseKeypair := houseKeypair st;
     payoutHistory := payoutHistory st;
     pendingPayouts := pending |}.

(** The [catch] clause: the game leaves the pending set and the error
    message is reported with status 500. *)
Definition caught (st : Server) (req : PayoutRequest) (message : string)
    (calls : list Call) : Server * Res.Response * list Call :=
  (withPending st (delete (pendingPayouts st) (gameId req)),
   failure 500 message, calls).

(** The body of the [try] block, entered with the game already marked
    pending. *)
Definition attempt (st : Server) (house : string) (req : PayoutRequest)
    (rpc : Rpc) : Server * Res.Response * list Call :=
  if negb (isPublicKey (playerWallet req)) then
    caught st req "Invalid public key input" []
  else
  let lamports := Double.floor (Double.mul (amount req) LAMPORTS_PER_SOL) in
  (* Check house wallet balance *)
  match getBalance rpc with
  | rejects message => caught st req message [callGetBalance]
  | resolves houseBalance =>
  if Double.ltb (inject_Z houseBalance) (Double.add (inject_Z lamports) 5000)
  then
    (withPending st (delete (pendingPayouts st) (gameId req)),
     failure 503 "Insufficient house wallet balance",
     [callGetBalance])
  else
  match getLatestBlockhash rpc with
  | rejects message =>
      caught st req message [callGetBalance; callGetLatestBlockhash]
  | resolves (recentBlockhash, lastValidBlockHeight) =>
  let send := callSendRawTransaction (playerWallet req) lamports in
  match sendRawTransaction rpc with
  | rejects message =>
      caught st req message [callGetBalance; callGetLatestBlockhash; send]
  | resolves signature =>
  let calls := [callGetBalance; callGetLatestBlockhash; send;
                callConfirmTransaction signature] in
  match confirmTransaction rpc with
  | rejects message => caught st req message calls
  | resolves true => caught st req "Transaction failed to confirm" calls
  | resolves false =>
      let payoutRecord :=
        {| Rec.gameId := gameId req;
           Rec.playerWallet := playerWallet req;
           Rec.amount := amount req;
           Rec.signature := signature;
           Rec.blockhash :=
             if truthy (blockhash req) then blockhash req else recentBlockhash;
           Rec.slot := slot req;
           Rec.timestamp := now rpc |} in
      ({| houseKeypair := houseKeypair st;
          payoutHistory := payoutHistory st ++ [payoutRecord];
          pendingPayouts := delete (pendingPayouts st) (gameId req) |},
       {| Res.status := 200; Res.success := true;
          Res.signature := Some signature; Res.error := None;
          Res.message := None;
          Res.explorerUrl :=
            Some ("https://explorer.solana.com/tx/" ++ signature
                  ++ "?cluster=" ++ network) |},
       calls)
  end end end end.

(** [app.post("/api/payout", ...)] *)
Definition payout (st : Server) (req : PayoutRequest) (rpc : Rpc)
    : Server * Res.Response * list Call :=
  (* Validate request *)
  if negb (truthy (playerWallet req)) || negb (nonzero (amount req))
     || negb (truthy (gameId req)) then
    (st, failure 400 "Missing required fields: playerWallet, amount, gameId", [])
  else
  match houseKeypair st with
  | None =>
      (st, failure 503 "House wallet not configured. Please set up the server.", [])
  | Some house =>
  (* Check for duplicate payout requests *)
  if has (pendingPayouts st) (gameId req) then
    (st, failure 409 "Payout for this game is already being processed", [])
  else
  (* Check if already paid *)
  match find (fun p => String.eqb (Rec.gameId p) (gameId req)) (payoutHistory st) with
  | Some existingPayout =>
      (st,
       {| Res.status := 200; Res.success := true;
          Res.signature := Some (Rec.signature existingPayout);
          Res.error := None;
          Res.message := Some "Payout already processed";
          Res.explorerUrl := None |},
       [])
  | None =>
      attempt (withPending st (set (pendingPayouts st) (gameId req))) house req rpc
  end
  end.

(** Requests served one after the other; the calls of all of them. *)
Fixpoint serve (st : Server) (reqs : list (PayoutRequest * Rpc))
    : Server * list Res.Response * list Call :=
  match reqs with
  | [] => (st, [], [])
  | (req, rpc) :: rest =>
      let '(st1, res, calls) := payout st req rpc in
      let '(st2, ress, calls') := serve st1 rest in
      (st2, res :: ress, (calls ++ calls')%list)
  end.

(** *** The handler between its awaits

    The handler is [async]: it is suspended at each awaited call, and
    other requests are served meanwhile.  A suspended request is a task
    that remembers where it stopped; the server moves when a request
    arrives or when the awaited call of a task settles.  A task is
    addressed by the game id of its request. *)

Inductive Stage :=
| awaitsBalance
| awaitsBlockhash
| awaitsSend (recentBlockhash : string)
| awaitsConfirmation (recentBlockhash signature : string).

Record Task := { request : PayoutRequest; stage : Stage }.

Inductive Input :=
| arrives (req : PayoutRequest)
| balanceIs (game : string) (reply : Reply Z)
| blockhashIs (game : string) (reply : Reply (string * Z))
| sendIs (game : string) (reply : Reply string)
| confirmationIs (game : string) (reply : Reply bool) (clock : N).

Record Node := { server : Server; tasks : list Task }.

Definition taskOf (ts : list Task) (game : string) : option Task :=
  find (fun t => String.eqb (gameId (request t)) game) ts.

Definition dropTask (ts : list Task) (game : string) : list Task :=
  filter (fun t => negb (String.eqb (gameId (request t)) game)) ts.

Definition moveTask (ts : list Task) (game : string) (next : Stage)
    : list Task :=
  map (fun t =>
         if String.eqb (gameId (request t)) game
         then {| request := request t; stage := next |}
         else t) ts.

Definition idle (node : Node) : Node * option Res.Response * list Call :=
  (node, None, []).

(** The request of [game] answers and is no longer suspended. *)
Definition finish (node : Node) (game : string)
    (outcome : Server * Res.Response * list Call)
    : Node * option Res.Response * list Call :=
  let '(st, res, calls) := outcome in
  ({| server := st; tasks := dropTask (tasks node) game |}, Some res, calls).

(** The request of [game] makes its next call and is suspended again. *)
Definition suspend (node : Node) (game : string) (next : Stage) (call : Call)
    : Node * option Res.Response * list Call :=
  ({| server := server node; tasks := moveTask (tasks node) game next |},
   None, [call]).

Definition step (node : Node) (input : Input)
    : Node * option Res.Response * list Call :=
  let st := server node in
  match input with
  | arrives req =>
      if negb (truthy (playerWallet req)) || negb (nonzero (amount req))
         || negb (truthy (gameId req)) then
        (node,
         Some (failure 400 "Missing required fields: playerWallet, amount, gameId"),
         [])
      else
      match houseKeypair st with
      | None =>
          (node,
           Some (failure 503 "House wallet not configured. Please set up the server."),
           [])
      | Some house =>
      if has (pendingPayouts st) (gameId req) then
        (node,
         Some (failure 409 "Payout for this game is already being processed"),
         [])
      else
      match find (fun p => String.eqb (Rec.gameId p) (gameId req))
                 (payoutHistory st) with
      | Some existingPayout =>
          (node,
           Some {| Res.status := 200; Res.success := true;
                   Res.signature := Some (Rec.signature existingPayout);
                   Res.error := None;
                   Res.message := Some "Payout already processed";
                   Res.explorerUrl := None |},
           [])
      | None =>
          let st1 := withPending st (set (pendingPayouts st) (gameId req)) in
          if negb (isPublicKey (playerWallet req)) then
            finish node (gameId req)
              (caught st1 req "Invalid public key input" [])
          else
            ({| server := st1;
                tasks := tasks node
                         ++ [{| request := req; stage := awaitsBalance |}] |},
             None, [callGetBalance])
      end
      end
  | balanceIs game reply =>
      match taskOf (tasks node) game with
      | Some {| request := req; stage := awaitsBalance |} =>
          match reply with
          | rejects message => finish node game (caught st req message [])
          | resolves houseBalance =>
              let lamports :=
                Double.floor (Double.mul (amount req) LAMPORTS_PER_SOL) in
              if Double.ltb (inject_Z houseBalance)
                            (Double.add (inject_Z lamports) 5000)
              then
                finish node game
                  (withPending st (delete (pendingPayouts st) (gameId req)),
                   failure 503 "Insufficient house wallet balance", [])
              else suspend node game awaitsBlockhash callGetLatestBlockhash
          end
      | _ => idle node
      end
  | blockhashIs game reply =>
      match taskOf (tasks node) game with
      | Some {| request := req; stage := awaitsBlockhash |} =>
          match reply with
          | rejects message => finish node game (caught st req message [])
          | resolves (recentBlockhash, lastValidBlockHeight) =>
              suspend node game (awaitsSend recentBlockhash)
                (callSendRawTransaction (playerWallet req)
                   (Double.floor (Double.mul (amount req) LAMPORTS_PER_SOL)))
          end
      | _ => idle node
      end
  | sendIs game reply =>
      match taskOf (tasks node) game with
      | Some {| request := req; stage := awaitsSend recentBlockhash |} =>
          match reply with
          | rejects message => finish node game (caught st req message [])
          | resolves signature =>
              suspend node game (awaitsConfirmation recentBlockhash signature)
                (callConfirmTransaction signature)
          end
      | _ => idle node
      end
  | confirmationIs game reply clock =>
      match taskOf (tasks node) game with
      | Some {| request := req;
                stage := awaitsConfirmation recentBlockhash signature |} =>
          match reply with
          | rejects message => finish node game (caught st req message [])
          | resolves true =>
              finish node game (caught st req "Transaction failed to confirm" [])
          | resolves false =>
              let payoutRecord :=
                {| Rec.gameId := gameId req;
                   Rec.playerWallet := playerWallet req;
                   Rec.amount := amount req;
                   Rec.signature := signature;
                   Rec.blockhash :=
                     if truthy (blockhash req) then blockhash req
                     else recentBlockhash;
                   Rec.slot := slot req;
                   Rec.timestamp := clock |} in
              finish node game
                ({| houseKeypair := houseKeypair st;
                    payoutHistory := payoutHistory st ++ [payoutRecord];
                    pendingPayouts := delete (pendingPayouts st) (gameId req) |},
                 {| Res.status := 200; Res.success := true;
                    Res.signature := Some signature; Res.error := None;
                    Res.message := None;
                    Res.explorerUrl :=
                      Some ("https://explorer.solana.com/tx/" ++ signature
                            ++ "?cluster=" ++ network) |},
                 [])
          end
      | _ => idle node
      end
  end.

(** A schedule of inputs, with the answers given and the calls made. *)
Fixpoint run (node : Node) (inputs : list Input)
    : Node * list Res.Response * list Call :=
  match inputs with
  | [] => (node, [], [])
  | input :: rest =>
      let '(node1, res, calls) := step node input in
      let '(node2, ress, calls') := run node1 rest in
      (node2,
       match res with Some r => r :: ress | None => ress end,
       (calls ++ calls')%list)
  end.

(** One request served without interruption: it arrives and each call
    settles as [rpc] says before anything else happens. *)
Definition uninterrupted (req : PayoutRequest) (rpc : Rpc) : list Input :=
  [arrives req;
   balanceIs (gameId req) (getBalance rpc);
   blockhashIs (gameId req) (getLatestBlockhash rpc);
   sendIs (gameId req) (sendRawTransaction rpc);
   confirmationIs (gameId req) (confirmTransaction rpc) (now rpc)].

End Handler.

End PayoutServer.

(* ================================================================== *)
(** ** JavaScript arrays                                               *)
(* ================================================================== *)

(** The array methods the remaining code relies on, on lists.  Indices
    are integers as in the source: [-1] is the answer of a failed
    search, and reading outside the array gives [undefined] ([None]). *)

Module JsArray.

Section Methods.
Context {A : Type}.

(** [array.findIndex(test)] *)
Fixpoint findIndex (test : A -> bool) (array : list A) : Z :=
  match array with
  | [] => (-1)%Z
  | a :: rest =>
      if test a then 0%Z
      else
        let index := findIndex test rest in
        if (index <? 0)%Z then (-1)%Z else (index + 1)%Z
  end.

(** [array[index]] *)
Definition at_ (array : list A) (index : Z) : option A :=
  if (index <? 0)%Z then None else nth_error array (Z.to_nat index).

(** [array.slice(0, count)] for a count that is not negative *)
Definition sliceHead (count : nat) (array : list A) : list A :=
  firstn count array.

(** [array.slice(-count)] for a positive count *)
Definition sliceLast (count : nat) (array : list A) : list A :=
  skipn (List.length array - count) array.

(** The array with [array[index] = a] done, for an index inside it. *)
Fixpoint assign (array : list A) (index : nat) (a : A) : list A :=
  match array, index with
  | [], _ => []
  | _ :: rest, O => a :: rest
  | b :: rest, S index' => b :: assign rest index' a
  end.

(** [[array[i], array[j]] = [array[j], array[i]]]; [None] where an
    index lies outside the array and the source would store
    [undefined]. *)
Definition swap (array : list A) (i : nat) (j : Z) : option (list A) :=
  match nth_error array i, at_ array j with
  | Some a, Some b => Some (assign (assign array i b) (Z.to_nat j) a)
  | _, _ => None
  end.

(** [array.sort(compare)] with [compare(a, b) <= 0] given by [before]:
    the specification of the language makes the sort stable; it is run
    here as an insertion sort. *)
Fixpoint insert (before : A -> A -> bool) (a : A) (sorted : list A) : list A :=
  match sorted with
  | [] => [a]
  | b :: rest =>
      if before a b then a :: b :: rest else b :: insert before a rest
  end.

Definition sort (before : A -> A -> bool) (array : list A) : list A :=
  fold_right (insert before) [] array.

End Methods.

(** [array.indexOf(x)] *)
Definition indexOf {A} (eqb : A -> A -> bool) (array : list A) (x : A) : Z :=
  findIndex (fun a => eqb a x) array.

End JsArray.

(* ================================================================== *)
(** ** utils/solana.ts: balance and display helpers                    *)
(* ================================================================== *)

Module SolanaUtils.
Local Open Scope string_scope.

Definition lamportsToSol (lamports : Z) : Q :=
  inject_Z lamports / LAMPORTS_PER_SOL.

(** The loop of [getBalance] over [FALLBACK_RPCS].  [balanceAt url] is
    the reply of [new Connection(url).getBalance(publicKey)], [None]
    when it rejects.  The endpoints asked are collected in order. *)
Fixpoint tryFallbacks (rpcEndpoint : string) (balanceAt : string -> option Z)
    (fallbacks : list string) : list string * option Q :=
  match fallbacks with
  | [] => ([], None)
  | rpcUrl :: rest =>
      if String.eqb rpcUrl rpcEndpoint then
        tryFallbacks rpcEndpoint balanceAt rest
      else
        match balanceAt rpcUrl with
        | Some balance => ([rpcUrl], Some (lamportsToSol balance))
        | None =>
            let (asked, result) := tryFallbacks rpcEndpoint balanceAt rest in
            (rpcUrl :: asked, result)
        end
  end.

(** [getBalance]: [primary] is the reply of [connection.getBalance].
    The result [None] is the error "Failed to fetch balance". *)
Definition getBalance (rpcEndpoint : string) (primary : option Z)
    (FALLBACK_RPCS : list string) (balanceAt : string -> option Z)
    : list string * option Q :=
  match primary with
  | Some balance => ([rpcEndpoint], Some (lamportsToSol balance))
  | None =>
      let (asked, result) := tryFallbacks rpcEndpoint balanceAt FALLBACK_RPCS in
      (rpcEndpoint :: asked, result)
  end.

(** [address.slice(-endChars)]: [slice(-0)] is [slice(0)], the whole
    string; a count beyond the length starts at the beginning. *)
Definition sliceLast (endChars : nat) (address : string) : string :=
  if (endChars =? 0)%nat then address
  else substring (String.length address - endChars) endChars address.

Definition truncateAddress (address : string) (startChars endChars : nat)
    : string :=
  if (String.length address <=? startChars + endChars)%nat then address
  else substring 0 startChars address ++ "..." ++ sliceLast endChars address.

End SolanaUtils.

(* ================================================================== *)
(** ** The payout server: the other routes                             *)
(* ================================================================== *)

Module ServerRoutes.
Import PayoutServer.
Local Open Scope string_scope.

(** [rotateConnection].  The connection is known by its endpoint.
    [RPC_URLS[nextIndex]] is [undefined] for an empty list, where the
    index is [NaN]. *)
Definition rotateConnection (RPC_URLS : list string) (connection : string)
    : option string :=
  let currentIndex := JsArray.indexOf String.eqb RPC_URLS connection in
  match RPC_URLS with
  | [] => None
  | _ :: _ =>
      let nextIndex :=
        Z.rem (currentIndex + 1) (Z.of_nat (List.length RPC_URLS)) in
      JsArray.at_ RPC_URLS nextIndex
  end.

(** The body of the answer of [app.get("/api/payouts")]. *)
Record Payouts := {
  total : nat;
  payouts : list Rec.PayoutRecord
}.

Definition getPayouts (st : Server) : Payouts :=
  {| total := List.length (payoutHistory st);
     payouts := JsArray.sliceLast 50 (payoutHistory st) |}.

End ServerRoutes.

(* ================================================================== *)
(** ** CrashGame.tsx: the run loop and the cash-out                    *)
(* ================================================================== *)

Module CrashRound.
Import Js.

(** [stats]; the two totals are sums of amounts, one of which may be
    [NaN] ([None]). *)
Record GameStats := {
  wins : Z;
  losses : Z;
  totalWagered : option Q;
  totalWon : option Q
}.

(** The variables of [startRunLoop], the ref [cashedOutRef] and the
    state the loop writes. *)
Record Loop := {
  cashedOutRef : bool;
  simulatedElapsed : Q;
  lastTickTime : Q;
  speedMultiplier : Q;
  multiplier : Q;
  crashed : bool;          (* [gameState] is "crashed": no tick is scheduled *)
  stats : GameStats;
  payoutsRequested : list (option Q)
                           (* the amounts handed to [processPayout] *)
}.

Section RunLoop.

(** [Math.pow] and [Math.E] *)
Variable pow : Q -> Q -> Q.
Variable E : Q.

(** The round's crash point and stake, the arguments of [startRunLoop],
    and whether a wallet is connected ([publicKey]). *)
Variable point : Q.
Variable amount : Q.
Variable publicKey : bool.

(** [handleCashoutLogic(multiplierAtCashout, amount)], up to the request
    to the payout service; [amount] is [NaN] ([None]) when the caller
    parsed it from an input that is not a number. *)
Definition handleCashoutLogic (multiplierAtCashout : Q) (amount : option Q)
    (loop : Loop) : Loop :=
  if cashedOutRef loop then loop else
  let winnings := times amount (Some multiplierAtCashout) in
  {| cashedOutRef := true;
     simulatedElapsed := simulatedElapsed loop;
     lastTickTime := lastTickTime loop;
     speedMultiplier := speedMultiplier loop;
     multiplier := multiplier loop;
     crashed := crashed loop;
     stats :=
       {| wins := (wins (stats loop) + 1)%Z;
          losses := losses (stats loop);
          totalWagered := plus (totalWagered (stats loop)) amount;
          totalWon := plus (totalWon (stats loop)) winnings |};
     payoutsRequested :=
       if publicKey then (payoutsRequested loop ++ [winnings])%list
       else payoutsRequested loop |}.

(** One run of [tick]; [now] is [Date.now()] and [autoVal] is
    [parseFloat(autoCashoutRef.current)], [None] for [NaN]. *)
Definition tick (now : Q) (autoVal : option Q) (loop : Loop) : Loop :=
  let realDelta := (now - lastTickTime loop) / 1000 in
  let speedMultiplier :=
    if cashedOutRef loop then 8 else speedMultiplier loop in
  let simulatedElapsed := simulatedElapsed loop + realDelta * speedMultiplier in
  let newMultiplier := pow E ((6 / 100) * simulatedElapsed) in
  let roundedMultiplier := inject_Z (Qfloor (newMultiplier * 100)) / 100 in
  if Qle_bool point roundedMultiplier then
    {| cashedOutRef := cashedOutRef loop;
       simulatedElapsed := simulatedElapsed;
       lastTickTime := now;
       speedMultiplier := speedMultiplier;
       multiplier := point;
       crashed := true;
       stats :=
         if cashedOutRef loop then stats loop
         else
           {| wins := wins (stats loop);
              losses := (losses (stats loop) + 1)%Z;
              totalWagered := plus (totalWagered (stats loop)) (Some amount);
              totalWon := totalWon (stats loop) |};
       payoutsRequested := payoutsRequested loop |}
  else
    let loop' :=
      {| cashedOutRef := cashedOutRef loop;
         simulatedElapsed := simulatedElapsed;
         lastTickTime := now;
         speedMultiplier := speedMultiplier;
         multiplier := roundedMultiplier;
         crashed := false;
         stats := stats loop;
         payoutsRequested := payoutsRequested loop |} in
    match autoVal with
    | Some autoVal =>
        if negb (cashedOutRef loop) && Qltb 1 autoVal
           && Qle_bool autoVal roundedMultiplier
        then handleCashoutLogic roundedMultiplier (Some amount) loop'
        else loop'
    | None => loop'
    end.

(** [startRunLoop]: the variables are reset and [tick] runs once at
    once; [now] and [now'] are the two readings of [Date.now()]. *)
Definition startRunLoop (stats : GameStats) (now now' : Q)
    (autoVal : option Q) : Loop :=
  tick now' autoVal
    {| cashedOutRef := false;
       simulatedElapsed := 0;
       lastTickTime := now;
       speedMultiplier := 1;
       multiplier := 1;
       crashed := false;
       stats := stats;
       payoutsRequested := [] |}.

(** [handleManualCashout] in the render that shows the state [loop],
    where [betPlaced] holds for the whole round.  [betAmount] is
    [parseFloat(betAmount)] as that render reads the bet input, [None]
    for [NaN].  The input is disabled while [betPlaced] holds, but
    [placeBet] sets [betPlaced] only after its awaits, so the input may
    have been changed, or emptied, since [placeBet] read the stake. *)
Definition handleManualCashout (betAmount : option Q) (loop : Loop) : Loop :=
  if cashedOutRef loop || crashed loop then loop
  else handleCashoutLogic (multiplier loop) betAmount loop.

(** What happens while the round runs: the timer fires, unless the
    round has crashed, or the player presses the cash-out button, in a
    render whose bet input parses to [betAmount]. *)
Inductive Input :=
| timer (now : Q) (autoVal : option Q)
| click (betAmount : option Q).

Definition react (loop : Loop) (input : Input) : Loop :=
  match input with
  | timer now autoVal => if crashed loop then loop else tick now autoVal loop
  | click betAmount => handleManualCashout betAmount loop
  end.

Definition play (loop : Loop) (inputs : list Input) : Loop :=
  fold_left react inputs loop.

End RunLoop.

End CrashRound.

(* ================================================================== *)
(** ** RouletteGame: the wheel and the bets on the table               *)
(* ================================================================== *)

Module RouletteBoard.
Import Js Roulette.

Definition WHEEL_ORDER : list Z :=
  [0; 32; 15; 19; 4; 21; 2; 25; 17; 34; 6; 27; 13; 36; 11; 30; 8; 23; 10;
   5; 24; 16; 33; 1; 20; 14; 31; 9; 22; 18; 29; 7; 28; 12; 35; 3; 26]%Z.

(** [getNeighbors(num, count)]; an entry is [None] where the source
    reads outside [WHEEL_ORDER]. *)
Definition getNeighbors (num count : Z) : list (option Z) :=
  let idx := JsArray.indexOf Z.eqb WHEEL_ORDER num in
  if (idx =? -1)%Z then []
  else
    map (fun k =>
           let i := (- count + Z.of_nat k)%Z in
           let neighborIdx :=
             Z.rem (idx + i + Z.of_nat (List.length WHEEL_ORDER))
                   (Z.of_nat (List.length WHEEL_ORDER)) in
           JsArray.at_ WHEEL_ORDER neighborIdx)
        (seq 0 (Z.to_nat (2 * count + 1))).

Inductive GamePhase := betting | sending | spinning | result.

Definition BetType_eqb (a b : BetType) : bool :=
  match a, b with
  | number, number | red, red | black, black | even, even | odd, odd
  | low, low | high, high => true
  | _, _ => false
  end.

(** [b.value === value], where either may be [undefined] *)
Definition value_eqb (a b : option Z) : bool :=
  match a, b with
  | Some x, Some y => (x =? y)%Z
  | None, None => true
  | _, _ => false
  end.

Fixpoint mapi {A B} (f : A -> Z -> B) (i : Z) (l : list A) : list B :=
  match l with
  | [] => []
  | a :: rest => f a i :: mapi f (i + 1)%Z rest
  end.

(** [addBet(type, value)] in a render whose [bets] is the current state:
    the new value of [bets]. *)
Definition addBet (gamePhase : GamePhase) (selectedChip balance : Q)
    (bets : list Bet) (type : BetType) (value : option Z) : list Bet :=
  match gamePhase with
  | betting =>
      if Double.ltb balance (Double.add (totalBet bets) selectedChip) then bets
      else
        let existingIndex :=
          JsArray.findIndex
            (fun b => BetType_eqb (Roulette.type b) type
                      && value_eqb (Roulette.value b) value) bets in
        if (0 <=? existingIndex)%Z then
          mapi (fun b i =>
                  if (i =? existingIndex)%Z
                  then {| Roulette.type := Roulette.type b;
                          Roulette.value := Roulette.value b;
                          Roulette.amount :=
                            Double.add (Roulette.amount b) selectedChip |}
                  else b) 0%Z bets
        else
          (bets ++ [{| Roulette.type := type; Roulette.value := value;
                       Roulette.amount := selectedChip |}])%list
  | _ => bets
  end.

End RouletteBoard.

(* ================================================================== *)
(** ** PlinkoGame: where the ball lands                                *)
(* ================================================================== *)

Module Plinko.
Import Js.

Inductive RiskLevel := low | medium | high.

Definition MULTIPLIERS (riskLevel : RiskLevel) : list Q :=
  match riskLevel with
  | low =>
      [3; 15 / 10; 12 / 10; 1; 7 / 10; 4 / 10; 3 / 10; 4 / 10; 7 / 10; 1;
       12 / 10; 15 / 10; 3]
  | medium =>
      [8; 3; 15 / 10; 5 / 10; 3 / 10; 2 / 10; 2 / 10; 2 / 10; 3 / 10;
       5 / 10; 15 / 10; 3; 8]
  | high =>
      [50; 15; 5; 3; 15 / 10; 5 / 10; 2 / 10; 5 / 10; 15 / 10; 3; 5; 15; 50]
  end.

(** The slot of a ball that reached the bottom at abscissa [x] on a
    canvas of the given width:
    [slotWidth = (width - 20) / multipliers.length],
    [slot = Math.max(0, Math.min(Math.floor((x - 10) / slotWidth),
                                 multipliers.length - 1))].
    When [slotWidth] is zero the quotient is infinite, and the slot is
    the last or the first one by its sign, or it is [NaN] ([None]). *)
Definition slotOf (multipliers : list Q) (width x : Q) : option Z :=
  let slotWidth := (width - 20) / inject_Z (Z.of_nat (List.length multipliers)) in
  let last := (Z.of_nat (List.length multipliers) - 1)%Z in
  if Qeq_bool slotWidth 0 then
    if Qltb 0 (x - 10) then Some (Z.max 0 last)
    else if Qltb (x - 10) 0 then Some 0%Z
    else None
  else
    let slot := Qfloor ((x - 10) / slotWidth) in
    Some (Z.max 0 (Z.min slot last)).

(** What the landing of a ball leaves: the slot, the amount won and the
    amount handed to [processPayout], if any. *)
Record Landing := {
  slot : Z;
  winAmount : Q;
  payoutRequested : option Q
}.

(** The landing of a ball staked with [betAmount]; [None] where the
    slot or the multiplier read from the table is not a number. *)
Definition land (riskLevel : RiskLevel) (publicKey : bool)
    (width x betAmount : Q) : option Landing :=
  let multipliers := MULTIPLIERS riskLevel in
  match slotOf multipliers width x with
  | None => None
  | Some slot =>
      match JsArray.at_ multipliers slot with
      | None => None
      | Some mult =>
          let amount := betAmount * mult in
          Some {| slot := slot;
                  winAmount := amount;
                  payoutRequested :=
                    if publicKey && Qltb 0 amount then Some amount else None |}
      end
  end.

End Plinko.

(* ================================================================== *)
(** ** BlackjackGame: deck, hand values and the dealer                 *)
(* ================================================================== *)

Module Blackjack.
Import Js.

Inductive Suit := spades | hearts | diamonds | clubs.

Inductive Rank :=
| ace | two | three | four | five | six | seven | eight | nine | ten
| jack | queen | king.

Record Card := { suit : Suit; rank : Rank; faceUp : bool }.

Definition SUITS : list Suit := [spades; hearts; diamonds; clubs].

Definition RANKS : list Rank :=
  [ace; two; three; four; five; six; seven; eight; nine; ten;
   jack; queen; king].

(** The loop of [shuffleDeck]: [i] runs from the last index down to 1;
    [random calls] is the value of the next [Math.random()], the
    [calls]-th of the shuffle. *)
Fixpoint shuffleFrom (i calls : nat) (random : nat -> Q)
    (shuffled : list Card) : option (list Card) :=
  match i with
  | O => Some shuffled
  | S i' =>
      let j := Qfloor (random calls * inject_Z (Z.of_nat (i + 1))) in
      match JsArray.swap shuffled i j with
      | Some shuffled => shuffleFrom i' (S calls) random shuffled
      | None => None
      end
  end.

Definition shuffleDeck (deck : list Card) (random : nat -> Q)
    : option (list Card) :=
  shuffleFrom (List.length deck - 1) 0 random deck.

(** The cards pushed by the two loops of [createDeck]. *)
Definition freshDeck : list Card :=
  flat_map (fun suit =>
              map (fun rank => {| suit := suit; rank := rank; faceUp := true |})
                  RANKS)
           SUITS.

Definition createDeck (random : nat -> Q) : option (list Card) :=
  shuffleDeck freshDeck random.

Definition Rank_eqb (a b : Rank) : bool :=
  match a, b with
  | ace, ace | two, two | three, three | four, four | five, five
  | six, six | seven, seven | eight, eight | nine, nine | ten, ten
  | jack, jack | queen, queen | king, king => true
  | _, _ => false
  end.

Definition getCardValue (card : Card) : Z :=
  match rank card with
  | ace => 11
  | jack | queen | king => 10
  | two => 2 | three => 3 | four => 4 | five => 5 | six => 6
  | seven => 7 | eight => 8 | nine => 9 | ten => 10
  end.

(** The [for] loop of [calculateHandValue]: [value] and [aces]. *)
Definition count (hand : list Card) : Z * nat :=
  fold_left
    (fun '(value, aces) card =>
       if negb (faceUp card) then (value, aces)
       else
         ((value + getCardValue card)%Z,
          if Rank_eqb (rank card) ace then S aces else aces))
    hand (0%Z, O).

(** [while (value > 21 && aces > 0) { value -= 10; aces-- }] *)
Fixpoint demote (aces : nat) (value : Z) : Z :=
  match aces with
  | O => value
  | S aces' => if (21 <? value)%Z then demote aces' (value - 10)%Z else value
  end.

Definition calculateHandValue (hand : list Card) : Z :=
  let '(value, aces) := count hand in demote aces value.

Definition isBlackjack (hand : list Card) : bool :=
  (List.length hand =? 2)%nat && (calculateHandValue hand =? 21)%Z.

(** [c => ({ ...c, faceUp: true })] *)
Definition reveal (c : Card) : Card :=
  {| suit := suit c; rank := rank c; faceUp := true |}.

Inductive GameResult := win | lose | push | blackjack.

(** The loop of [dealerPlay]: the dealer's hand and the deck when it
    stops. *)
Fixpoint dealerDraws (currentDealerHand currentDeck : list Card)
    : list Card * list Card :=
  match currentDeck with
  | [] => (currentDealerHand, [])
  | newCard :: rest =>
      if (calculateHandValue currentDealerHand <? 17)%Z
      then dealerDraws (currentDealerHand ++ [newCard]) rest
      else (currentDealerHand, currentDeck)
  end.

(** The comparison that ends [dealerPlay]. *)
Definition outcome (playerValue dealerValue : Z) : GameResult :=
  if (21 <? dealerValue)%Z then win
  else if (dealerValue <? playerValue)%Z then win
  else if (playerValue <? dealerValue)%Z then lose
  else push.

(** [stand] in a render with the given hands and deck, once the phase
    is found to be "playing": the dealer's final hand, the deck left
    and the result. *)
Definition stand (playerHand dealerHand deck : list Card)
    : list Card * list Card * GameResult :=
  let currentDealerHand := map reveal dealerHand in
  let '(currentDealerHand, currentDeck) := dealerDraws currentDealerHand deck in
  let playerValue := calculateHandValue playerHand in
  let dealerValue := calculateHandValue currentDealerHand in
  (currentDealerHand, currentDeck, outcome playerValue dealerValue).

(** The amount [handlePayout] computes; a payout is requested when it is
    positive. *)
Definition payoutOf (isDoubled : bool) (amount : Q) (result : GameResult)
    : Q :=
  let totalWageredForRound := if isDoubled then amount * 2 else amount in
  match result with
  | blackjack => amount * (25 / 10)
  | win => totalWageredForRound * 2
  | push => totalWageredForRound
  | lose => 0
  end.

(** What a settled round leaves: the hands, the result and the amount
    computed by [handlePayout]. *)
Record Settlement := {
  playerCards : list Card;
  dealerCards : list Card;
  result : GameResult;
  payout : Q
}.

(** [doubleDown] in a render in the phase "playing" with the given
    state, once the second stake is confirmed.  The [stand] and the
    [handlePayout] it calls are those of the same render: they read the
    [playerHand], [dealerHand], [deck] and [isDoubled] of that render,
    not the values set meanwhile.  [None] where the function returns at
    once. *)
Definition doubleDown (isDoubled : bool) (amount : Q)
    (playerHand dealerHand deck : list Card) : option Settlement :=
  if negb (List.length playerHand =? 2)%nat then None else
  match deck with
  | [] => None
  | newCard :: _ =>
      let newHand := (playerHand ++ [newCard])%list in
      let value := calculateHandValue newHand in
      if (21 <? value)%Z then
        Some {| playerCards := newHand;
                dealerCards := map reveal dealerHand;
                result := lose;
                payout := payoutOf isDoubled amount lose |}
      else
        let '(dealer, _, result) := stand playerHand dealerHand deck in
        Some {| playerCards := newHand;
                dealerCards := dealer;
                result := result;
                payout := payoutOf isDoubled amount result |}
  end.

End Blackjack.

(* ================================================================== *)
(** ** The hooks [useGameHistory] and [useLeaderboard]                 *)
(* ================================================================== *)

Module GameHistory.

Definition MAX_HISTORY : nat := 50.

(** [addEntry]: the new value of [history], for any type of entries. *)
Definition addEntry {Entry} (newEntry : Entry) (prev : list Entry)
    : list Entry :=
  JsArray.sliceHead MAX_HISTORY (newEntry :: prev).

End GameHistory.

Module Leaderboard.
Import Js.

Record LeaderboardEntry := {
  address : string;
  totalWon : Q;
  totalWagered : Q;
  wins : Z;
  losses : Z;
  biggestWin : Q;
  winRate : Q;
  lastPlayed : N
}.

Definition MAX_ENTRIES : nat := 100.

(** [(a, b) => b.totalWon - a.totalWon] is not positive *)
Definition byTotalWon (a b : LeaderboardEntry) : bool :=
  Qle_bool (totalWon b) (totalWon a).

(** [updateEntry]: the new value of [leaderboard]; [now] is
    [Date.now()]. *)
Definition updateEntry (address : string) (betAmount : Q) (won : bool)
    (payout : Q) (now : N) (prev : list LeaderboardEntry)
    : list LeaderboardEntry :=
  let existing := find (fun e => String.eqb (Leaderboard.address e) address) prev in
  let newEntry :=
    match existing with
    | Some existing =>
        {| address := Leaderboard.address existing;
           totalWon := totalWon existing + (if won then payout else 0);
           totalWagered := totalWagered existing + betAmount;
           wins := (wins existing + (if won then 1 else 0))%Z;
           losses := (losses existing + (if won then 0 else 1))%Z;
           biggestWin := Qmax (biggestWin existing) (if won then payout else 0);
           winRate :=
             (inject_Z (wins existing + (if won then 1 else 0))
              / inject_Z (wins existing + losses existing + 1)) * 100;
           lastPlayed := now |}
    | None =>
        {| address := address;
           totalWon := if won then payout else 0;
           totalWagered := betAmount;
           wins := if won then 1 else 0;
           losses := if won then 0 else 1;
           biggestWin := if won then payout else 0;
           winRate := if won then 100 else 0;
           lastPlayed := now |}
    end in
  let updated :=
    match existing with
    | Some _ =>
        map (fun e => if String.eqb (Leaderboard.address e) address
                      then newEntry else e) prev
    | None => (prev ++ [newEntry])%list
    end in
  JsArray.sliceHead MAX_ENTRIES (JsArray.sort byTotalWon updated).

End Leaderboard.

(* ================================================================== *)
(** * Vocabulary of the properties                                     *)
(* ================================================================== *)

(** The notions in which the properties are stated, and the concrete
    inputs on which they are exercised. *)

(** ** Digests and draws *)

Definition isByte (b : Z) : Prop := (0 <= b < 256)%Z.

(** The unclamped crash point [Math.floor((99 / (1 - value)) * 100) / 100]. *)
Definition rawPoint (value : Q) : Q :=
  inject_Z (Qfloor ((99 / (1 - value)) * 100)) / 100.

(** Double-precision evaluation of the two expressions that turn a
    digest byte into a draw. *)
Module Binary64.

Definition ofInteger (n : Z) : float := PrimFloat.of_uint63 (Uint63.of_Z n).

(** [(randomValue / 255) * 100] *)
Definition randomPercent (randomValue : Z) : float :=
  PrimFloat.mul (PrimFloat.div (ofInteger randomValue) (ofInteger 255))
                (ofInteger 100).

(** [(hashArray[0] / 255) * 99] *)
Definition scaled (byte : Z) : float :=
  PrimFloat.mul (PrimFloat.div (ofInteger byte) (ofInteger 255))
                (ofInteger 99).

Definition bytes : list Z := map Z.of_nat (seq 0 256).

Definition chances : list Z := map Z.of_nat (seq 0 101).

(** The double [n / d], computed by the primitive division, and the
    rational [n / d]. *)
Definition quotient (fraction : Z * Z) : float :=
  PrimFloat.div (ofInteger (fst fraction)) (ofInteger (snd fraction)).

Definition rational (fraction : Z * Z) : Q :=
  fst fraction # Z.to_pos (snd fraction).

(** The rational value of a primitive float. *)
Definition valueOf (x : float) : Q := Double.valueOf (Prim2SF x).

(** Amounts, fees and balances on which the arithmetic of [Double] is
    compared with the primitive floats. *)
Definition fractions : list (Z * Z) :=
  [(1, 10); (3, 10); (5, 100); (1, 3); (104, 100000); (9, 1000);
   (5, 1000000); (195, 100); (1000000000, 1); (1044999, 1);
   (123456789, 1000); (4503599627370497, 7)]%Z.

End Binary64.

(** ** The roulette table *)

(** The fixed table of the game, stated on its own: the numbers each
    kind of bet covers, and what a covering bet returns per unit. *)
Definition BLACK_NUMBERS : list Z :=
  [2; 4; 6; 8; 10; 11; 13; 15; 17; 20; 22; 24; 26; 28; 29; 31; 33; 35]%Z.

Definition covers (bet : Roulette.Bet) (n : Z) : bool :=
  match Roulette.type bet with
  | Roulette.number =>
      match Roulette.value bet with
      | Some v => (v =? n)%Z
      | None => false
      end
  | Roulette.red => existsb (Z.eqb n) Roulette.RED_NUMBERS
  | Roulette.black => existsb (Z.eqb n) BLACK_NUMBERS
  | Roulette.even =>
      existsb (Z.eqb n)
        [2; 4; 6; 8; 10; 12; 14; 16; 18; 20; 22; 24; 26; 28; 30; 32; 34; 36]%Z
  | Roulette.odd =>
      existsb (Z.eqb n)
        [1; 3; 5; 7; 9; 11; 13; 15; 17; 19; 21; 23; 25; 27; 29; 31; 33; 35]%Z
  | Roulette.low => (1 <=? n)%Z && (n <=? 18)%Z
  | Roulette.high => (19 <=? n)%Z && (n <=? 36)%Z
  end.

Definition tableReturn (t : Roulette.BetType) : Q :=
  match t with Roulette.number => 36 | _ => 2 end.

(** The 37 pockets of the wheel. *)
Definition pockets : list Z := map Z.of_nat (seq 0 37).

(** ** Wager flows *)

Section FlowVocabulary.
Import Js Flow ProvablyFair.
Local Open Scope string_scope.

(** In a trace, every digest comes after the confirmation, without
    error, of the bet that the same trace submitted. *)
Definition digestsFollowConfirmation (t : list Event) : Prop :=
  forall pre seed post,
    t = (pre ++ Digest seed :: post)%list ->
    exists lamports betSignature,
      In (BetSubmitted lamports betSignature) pre
      /\ In (BetConfirmation betSignature false) pre.

Definition isDigest (e : Event) : bool :=
  match e with Digest _ => true | _ => false end.

(** The seeds hashed along a trace. *)
Fixpoint seedsOf (t : list Event) : list string :=
  match t with
  | [] => []
  | Digest seed :: t' => seed :: seedsOf t'
  | _ :: t' => seedsOf t'
  end.

(** The same replies with another answer of the payout service. *)
Definition withPayoutReply (chain : Chain)
    (reply : PayoutService.PayoutResponse) : Chain :=
  {| betBlockhash := betBlockhash chain;
     sendTransaction := sendTransaction chain;
     confirmTransaction := confirmTransaction chain;
     fairConnection := fairConnection chain;
     now := now chain;
     processPayout := reply |}.

(** Two endpoints that report the same blockhash and the given slot. *)
Definition devnet (slot : N) : Connection :=
  {| rpcEndpoint := "https://api.devnet.solana.com";
     getLatestBlockhash := Some "9sHcv6xwn9YkB8nxTUGKDwPwNnmqVp5oAXxU8Fdkm4J6";
     getSlot := Some slot |}.

Definition fallbackRpc (slot : N) : Connection :=
  {| rpcEndpoint := "https://rpc.ankr.com/solana_devnet";
     getLatestBlockhash := Some "9sHcv6xwn9YkB8nxTUGKDwPwNnmqVp5oAXxU8Fdkm4J6";
     getSlot := Some slot |}.

Definition player : string := "7xKXtg2CW87d97TXJSDpbD5jBkheTqA83TZRuJosgAsU".

(** A wager whose bet is confirmed under [betSignature] at time [time],
    resolved while the connection reports slot [slot]. *)
Definition wager (betSignature : string) (time slot : N) : Chain :=
  {| betBlockhash := Some "EkSnNWid2cvwEVnVx9aBqawnmiCNiDgp3gUdkDPTsN1N";
     sendTransaction := Some betSignature;
     confirmTransaction := Some false;
     fairConnection := devnet slot;
     now := time;
     processPayout :=
       {| PayoutService.success := true;
          PayoutService.signature := Some "3Bxs4ThwQbE4vyj5payoutsignature";
          PayoutService.error := None |} |}.

Definition firstBet : string := "5VERv8NMvzbJMEkV8xnrLkEaWRtSz9CosKDYjCJjBRnb".

Definition secondBet : string := "2id3YC2jK9G5Wo2phDx4gJVAew8DcY5NAojnVuao8rkx".

End FlowVocabulary.

(** ** The payout server *)

Section ServerVocabulary.
Import PayoutService PayoutServer.
Local Open Scope string_scope.

(** The answer to a request whose game has a record in the history. *)
Definition cached (signature : string) : Res.Response :=
  {| Res.status := 200; Res.success := true;
     Res.signature := Some signature; Res.error := None;
     Res.message := Some "Payout already processed";
     Res.explorerUrl := None |}.

(** The number of transfers among the calls. *)
Definition sends (calls : list Call) : nat :=
  List.length (filter isSend calls).

(** The fields the handler requires are present. *)
Definition wellFormed (req : PayoutRequest) : bool :=
  Js.truthy (playerWallet req) && Js.nonzero (amount req)
  && Js.truthy (gameId req).

(** The record of a game in the history, as the handler looks it up. *)
Definition recorded (st : Server) (game : string) : option Rec.PayoutRecord :=
  find (fun p => String.eqb (Rec.gameId p) game) (payoutHistory st).

(** The request passes every check up to the balance check: well formed,
    house wallet configured, game neither pending nor paid, and a valid
    player address. *)
Definition reachesBalanceCheck (isPublicKey : string -> bool)
    (st : Server) (req : PayoutRequest) : bool :=
  wellFormed req
  && match houseKeypair st with Some _ => true | None => false end
  && negb (has (pendingPayouts st) (gameId req))
  && match recorded st (gameId req) with Some _ => false | None => true end
  && isPublicKey (playerWallet req).

Definition lamportsOf (req : PayoutRequest) : Z :=
  Double.floor (Double.mul (amount req) LAMPORTS_PER_SOL).

(** The game [game] has been paid with signature [signature] and is not
    pending. *)
Definition settled (game signature : string) (st : Server) : Prop :=
  (exists house, houseKeypair st = Some house)
  /\ has (pendingPayouts st) game = false
  /\ exists p, recorded st game = Some p /\ Rec.signature p = signature.

(** The games of the suspended requests. *)
Definition gamesOf (ts : list Task) : list string :=
  map (fun t => gameId (request t)) ts.

(** The pending set holds exactly the games of the suspended requests,
    no two suspended requests are for the same game, none of their
    games has a record, and no game has two records. *)
Definition consistent (node : Node) : Prop :=
  (forall game, has (pendingPayouts (server node)) game = true
                <-> In game (gamesOf (tasks node)))
  /\ NoDup (gamesOf (tasks node))
  /\ (forall game, In game (gamesOf (tasks node)) ->
                   recorded (server node) game = None)
  /\ NoDup (map Rec.gameId (payoutHistory (server node))).

(** A server, a request and replies to exercise the handler on. *)
Definition acceptAll (address : string) : bool := true.

Definition freshServer : Server :=
  {| houseKeypair := Some "2Lohfz4wUTRGmr7cBGU12sd1TNZHBMLL4N9BMvBnoFaC";
     payoutHistory := [];
     pendingPayouts := [] |}.

Definition winnerRequest : PayoutRequest :=
  {| playerWallet := player;
     amount := 2;
     gameId := "game_1700000000000";
     blockhash := "9sHcv6xwn9YkB8nxTUGKDwPwNnmqVp5oAXxU8Fdkm4J6";
     slot := 5 |}.

(** A payout of 0.00104 SOL. *)
Definition thresholdRequest : PayoutRequest :=
  {| playerWallet := player;
     amount := 104 # 100000;
     gameId := "game_1700000000900";
     blockhash := "";
     slot := 0 |}.

(** Every call succeeds and the house holds [lamports]. *)
Definition healthyRpc (lamports : Z) : Rpc :=
  {| getBalance := resolves lamports;
     getLatestBlockhash := resolves ("EkSnNWid2cvwEVnVx9aBqawnmiCNiDgp3gUdkDPTsN1N", 1000%Z);
     sendRawTransaction := resolves "3Bxs4ThwQbE4vyj5payoutsignature";
     confirmTransaction := resolves false;
     now := 1700000002000 |}.

Definition afterPayout : Server * Res.Response * list Call :=
  payout acceptAll "devnet" freshServer winnerRequest (healthyRpc 5000000000).

End ServerVocabulary.

(** ** The other routes of the server *)

Section RoutesVocabulary.
Import PayoutService PayoutServer ServerRoutes.
Local Open Scope string_scope.

(** The confirmations without error among the inputs of a schedule. *)
Definition confirmations (inputs : list Input) : nat :=
  List.length
    (filter (fun input =>
               match input with
               | confirmationIs _ (resolves false) _ => true
               | _ => false
               end) inputs).

(** The endpoint after [k] rotations, [None] once an endpoint is
    [undefined]. *)
Fixpoint rotations (k : nat) (RPC_URLS : list string) (connection : string)
    : option string :=
  match k with
  | O => Some connection
  | S k' =>
      match rotateConnection RPC_URLS connection with
      | Some next => rotations k' RPC_URLS next
      | None => None
      end
  end.

(** The endpoints the server is configured with when [SOLANA_RPC_URL]
    is not set. *)
Definition defaultRpcUrls : list string :=
  ["https://api.mainnet-beta.solana.com";
   "https://solana-mainnet.rpc.extrnode.com";
   "https://rpc.ankr.com/solana"].

(** A second request for the game of [winnerRequest]. *)
Definition repeatedRequest : PayoutRequest :=
  {| playerWallet := player;
     amount := 2;
     gameId := "game_1700000000000";
     blockhash := "";
     slot := 0 |}.

(** A server with nothing recorded and nothing suspended, and the
    schedule in which [winnerRequest] is served without interruption
    by a healthy connection. *)
Definition freshNode : Node := {| server := freshServer; tasks := [] |}.

Definition paidSchedule : list Input :=
  uninterrupted winnerRequest (healthyRpc 5000000000).

Definition afterSchedule (inputs : list Input)
    : Node * list Res.Response * list Call :=
  run acceptAll "devnet" freshNode inputs.

End RoutesVocabulary.

(** ** The crash round *)

Section CrashVocabulary.
Import CrashRound.

(** What holds of a round in progress or over, for the stake [amount],
    the crash point [point] and the statistics [before] the round: the
    multiplier shown stays below the crash point until the crash; a
    cash-out has been paid for at most once, at a multiplier below the
    crash point and on an amount that is the stake or one of the
    [pressed] readings of the bet input, and counted as one win; a crash
    without cash-out is counted as one loss. *)
Definition roundInvariant (point amount : Q) (publicKey : bool)
    (before : GameStats) (pressed : option Q -> Prop) (loop : Loop) : Prop :=
  (crashed loop = false -> multiplier loop < point)
  /\ if cashedOutRef loop then
       exists m base,
         m < point
         /\ (base = Some amount \/ pressed base)
         /\ payoutsRequested loop
            = (if publicKey then [Js.times base (Some m)] else [])
         /\ stats loop
            = {| wins := (wins before + 1)%Z;
                 losses := losses before;
                 totalWagered := Js.plus (totalWagered before) base;
                 totalWon :=
                   Js.plus (totalWon before) (Js.times base (Some m)) |}
     else
       payoutsRequested loop = []
       /\ stats loop
          = if crashed loop then
              {| wins := wins before;
                 losses := (losses before + 1)%Z;
                 totalWagered := Js.plus (totalWagered before) (Some amount);
                 totalWon := totalWon before |}
            else before.

(** A growth curve and statistics to run a round on. *)
Definition straightLine (base exponent : Q) : Q := 1 + exponent.

Definition noGames : GameStats :=
  {| wins := 0; losses := 0; totalWagered := Some 0; totalWon := Some 0 |}.

End CrashVocabulary.

(** ** Wager flows: bets and payouts *)

Section PayoutVocabulary.
Import Flow.

(** The payout requests made along a trace. *)
Fixpoint payoutsOf (t : list Event) : list PayoutService.PayoutRequest :=
  match t with
  | [] => []
  | Payout request :: t' => request :: payoutsOf t'
  | _ :: t' => payoutsOf t'
  end.

(** The same replies with another answer of [confirmTransaction]. *)
Definition withConfirmation (chain : Chain) (reply : option bool) : Chain :=
  {| betBlockhash := betBlockhash chain;
     sendTransaction := sendTransaction chain;
     confirmTransaction := reply;
     fairConnection := fairConnection chain;
     now := now chain;
     processPayout := processPayout chain |}.

End PayoutVocabulary.

Section PayoutSamples.
Local Open Scope string_scope.

(** The payout the dice game asks for when [player] stakes 1 SOL on
    roll over 50 in the wager [wager secondBet 1700000000400 1]. *)
Definition dicePayoutRequest : PayoutService.PayoutRequest :=
  {| PayoutService.playerWallet := player;
     PayoutService.amount := 1 * Dice.multiplier true 50;
     PayoutService.gameId := "dice_1700000000400";
     PayoutService.blockhash := "9sHcv6xwn9YkB8nxTUGKDwPwNnmqVp5oAXxU8Fdkm4J6";
     PayoutService.slot := 1 |}.

End PayoutSamples.

(** ** The dice over the 256 values of the digest byte *)

(** The number of values of the first digest byte with which a round on
    [target] is won, the true chance of winning in percent, and the
    stake returned on average per unit staked. *)
Definition winningBytes (rollOver : bool) (target : Z) : Z :=
  Z.of_nat (List.length
              (filter (fun byte => Dice.wins rollOver target (Dice.rollOf byte))
                      Binary64.bytes)).

Definition trueChance (rollOver : bool) (target : Z) : Q :=
  (inject_Z (winningBytes rollOver target) / 256) * 100.

Definition expectedReturn (rollOver : bool) (target : Z) : Q :=
  (inject_Z (winningBytes rollOver target) / 256)
  * Dice.multiplier rollOver target.

(** The targets the slider offers. *)
Definition sliderTargets : list Z := map Z.of_nat (seq 2 97).

(** ** The reels of the slot machine *)

(** The weight of the symbols listed up to and including [s]. *)
Fixpoint weightThrough (s : Slots.Symbol) (entries : list Slots.Symbol) : Q :=
  match entries with
  | [] => 0
  | e :: rest =>
      Slots.WEIGHTS e
      + (if Slots.Symbol_eqb e s then 0 else weightThrough s rest)
  end.

(** The part of the scale from 0 to the total weight 122 that belongs
    to [s]: above [lowerMark s], up to [upperMark s]. *)
Definition upperMark (s : Slots.Symbol) : Q := weightThrough s Slots.SYMBOLS.

Definition lowerMark (s : Slots.Symbol) : Q := upperMark s - Slots.WEIGHTS s.

(** ** The roulette board *)

(** The spot of a bet on the table: its kind and, for a straight-up
    bet, its number. *)
Definition spot (bet : Roulette.Bet) : Roulette.BetType * option Z :=
  (Roulette.type bet, Roulette.value bet).

(** The counts for which [getNeighbors] stays on the wheel. *)
Definition neighbourCounts : list Z := map Z.of_nat (seq 0 38).

(** What is expected of [getNeighbors num count]: [2 * count + 1]
    entries, each a pocket of the wheel, the middle one [num]. *)
Definition aroundPocket (num count : Z) (neighbors : list (option Z)) : bool :=
  (Z.of_nat (List.length neighbors) =? 2 * count + 1)%Z
  && forallb (fun n =>
                match n with
                | Some p => existsb (Z.eqb p) pockets
                | None => false
                end) neighbors
  && match nth_error neighbors (Z.to_nat count) with
     | Some (Some p) => (p =? num)%Z
     | _ => false
     end.

(** Two chips of 0.1 on the table. *)
Definition tenthBets : list Roulette.Bet :=
  [{| Roulette.type := Roulette.red; Roulette.value := None;
      Roulette.amount := 1 # 10 |};
   {| Roulette.type := Roulette.number; Roulette.value := Some 17%Z;
      Roulette.amount := 1 # 10 |}].

(** ** Blackjack hands *)

Section BlackjackVocabulary.
Import Blackjack.

(** The total of the cards that lie face up with every ace counted as
    1, and the number of aces among them. *)
Definition hardValue (card : Card) : Z :=
  match rank card with ace => 1 | _ => getCardValue card end.

Fixpoint hardTotal (hand : list Card) : Z :=
  match hand with
  | [] => 0
  | card :: rest =>
      ((if faceUp card then hardValue card else 0) + hardTotal rest)%Z
  end.

Fixpoint acesUp (hand : list Card) : Z :=
  match hand with
  | [] => 0
  | card :: rest =>
      ((if faceUp card && Rank_eqb (rank card) ace then 1 else 0)
       + acesUp rest)%Z
  end.

(** A card worth ten. *)
Definition tenValued (card : Card) : Prop :=
  rank card = ten \/ rank card = jack \/ rank card = queen
  \/ rank card = king.

(** A source of random numbers, and two hands. *)
Definition halves (call : nat) : Q := 1 # 2.

Definition card (r : Rank) (s : Suit) : Card :=
  {| suit := s; rank := r; faceUp := true |}.

Definition hidden (r : Rank) (s : Suit) : Card :=
  {| suit := s; rank := r; faceUp := false |}.

End BlackjackVocabulary.

(** ** Balance look-up *)

Section BalanceVocabulary.
Import SolanaUtils.

(** The endpoints [getBalance] may ask, in order: the connection's own,
    then the fallbacks other than it. *)
Definition candidates (rpcEndpoint : string) (FALLBACK_RPCS : list string)
    : list string :=
  rpcEndpoint
  :: filter (fun rpcUrl => negb (String.eqb rpcUrl rpcEndpoint)) FALLBACK_RPCS.

(** The reply of an endpoint. *)
Definition replyAt (rpcEndpoint : string) (primary : option Z)
    (balanceAt : string -> option Z) (rpcUrl : string) : option Z :=
  if String.eqb rpcUrl rpcEndpoint then primary else balanceAt rpcUrl.

End BalanceVocabulary.

(** ** Game history and leaderboard *)

(** The history after the rounds [entries], oldest first, have been
    added one by one to [history]. *)
Definition addAll {Entry} (entries history : list Entry) : list Entry :=
  fold_left (fun history entry => GameHistory.addEntry entry history)
            entries history.

(** Ranked by the total won: no entry has won less than one listed
    after it. *)
Definition ranked (board : list Leaderboard.LeaderboardEntry) : Prop :=
  StronglySorted
    (fun a b => Leaderboard.totalWon b <= Leaderboard.totalWon a) board.

(** The games an entry counts. *)
Definition played (e : Leaderboard.LeaderboardEntry) : Z :=
  (Leaderboard.wins e + Leaderboard.losses e)%Z.

(** A board with one player. *)
Definition oneEntry : list Leaderboard.LeaderboardEntry :=
  [{| Leaderboard.address := player;
      Leaderboard.totalWon := 4;
      Leaderboard.totalWagered := 3;
      Leaderboard.wins := 2;
      Leaderboard.losses := 1;
      Leaderboard.biggestWin := 2;
      Leaderboard.winRate := (2 / 3) * 100;
      Leaderboard.lastPlayed := 1700000000000 |}].

(* ================================================================== *)
(** * Properties                                                       *)
(* ================================================================== *)

(** ** The digest *)

Example sha256_abc :
  sha256 "abc" =
  [186; 120; 22; 191; 143; 1; 207; 234; 65; 65; 64; 222; 93; 174; 34; 35;
   176; 3; 97; 163; 150; 23; 122; 156; 180; 16; 255; 97; 242; 0; 21; 173]%Z.
Proof. vm_compute. reflexivity. Qed.

Example sha256_empty_prefix :
  firstn 4 (sha256 "") = [227; 176; 196; 66]%Z.
Proof. vm_compute. reflexivity. Qed.

Example sha256_two_blocks_prefix :
  firstn 4 (sha256 "abcdbcdecdefdefgefghfghighijhijkijkljklmklmnlmnomnopnopq")
  = [36; 141; 106; 97]%Z.
Proof. vm_compute. reflexivity. Qed.

Lemma be_bytes_are_bytes : forall n x, Forall isByte (Sha256.be_bytes n x).
Proof.
  induction n as [|n IH]; intro x; simpl; constructor; auto.
  unfold isByte. apply Z.mod_pos_bound. lia.
Qed.

Lemma be_bytes_length : forall n x, List.length (Sha256.be_bytes n x) = n.
Proof. induction n as [|n IH]; intro x; simpl; auto. Qed.

Lemma compress_length :
  forall h block, List.length h = 8%nat ->
    List.length (Sha256.compress h block) = 8%nat.
Proof.
  intros h block Hh. unfold Sha256.compress.
  rewrite length_map, length_combine, Hh. reflexivity.
Qed.

Lemma blocks_length :
  forall n h bs, List.length h = 8%nat ->
    List.length (Sha256.blocks n h bs) = 8%nat.
Proof.
  induction n as [|n IH]; intros h bs Hh; simpl; auto.
  apply IH, compress_length, Hh.
Qed.

Lemma flat_map_be_bytes_length :
  forall h, List.length (flat_map (Sha256.be_bytes 4) h) = (4 * List.length h)%nat.
Proof.
  induction h as [|x h IH]; auto.
  change (flat_map (Sha256.be_bytes 4) (x :: h))
    with (Sha256.be_bytes 4 x ++ flat_map (Sha256.be_bytes 4) h).
  rewrite length_app, be_bytes_length, IH. simpl. lia.
Qed.

(** A digest has 32 bytes. *)
Lemma sha256_length : forall s, List.length (sha256 s) = 32%nat.
Proof.
  intro s. unfold sha256, Sha256.digest.
  rewrite flat_map_be_bytes_length, blocks_length; reflexivity.
Qed.

Lemma sha256_bytes : forall s, Forall isByte (sha256 s).
Proof.
  intro s. unfold sha256, Sha256.digest.
  generalize (Sha256.blocks
    (Nat.div (List.length (Sha256.pad (encode s))) 64)
    Sha256.initial_state (Sha256.pad (encode s))).
  induction l as [|x l IH]; [constructor|].
  change (flat_map (Sha256.be_bytes 4) (x :: l))
    with (Sha256.be_bytes 4 x ++ flat_map (Sha256.be_bytes 4) l).
  apply Forall_app; split; [apply be_bytes_are_bytes | exact IH].
Qed.

Lemma nth_sha256_byte : forall s i, isByte (nth i (sha256 s) 0%Z).
Proof.
  intros s i. destruct (Nat.lt_ge_cases i (List.length (sha256 s))) as [H|H].
  - pose proof (sha256_bytes s) as F. rewrite Forall_forall in F.
    apply F, nth_In, H.
  - rewrite nth_overflow by exact H. unfold isByte. lia.
Qed.

(** ** Numbers *)

Lemma Qltb_lt : forall x y, Js.Qltb x y = true <-> x < y.
Proof.
  intros x y. unfold Js.Qltb. rewrite negb_true_iff.
  split.
  - intro H. apply Qnot_le_lt. intro L.
    apply Qle_bool_iff in L. congruence.
  - intro H. destruct (Qle_bool y x) eqn:E; auto.
    apply Qle_bool_iff in E. exfalso. exact (Qlt_not_le _ _ H E).
Qed.

Lemma Qltb_ge : forall x y, Js.Qltb x y = false <-> y <= x.
Proof.
  intros x y. unfold Js.Qltb. rewrite negb_false_iff. apply Qle_bool_iff.
Qed.

(** On a byte, [(b / 255) * 100 < 50] is [b < 128]. *)
Lemma percent_below_50 :
  forall b, isByte b ->
    Js.Qltb (ProvablyFair.randomPercent b) 50 = (b <? 128)%Z.
Proof.
  intros b Hb. unfold isByte in Hb.
  destruct (b <? 128)%Z eqn:E.
  - apply Qltb_lt. apply Z.ltb_lt in E.
    unfold ProvablyFair.randomPercent, Qlt, Qdiv, Qmult, Qinv, inject_Z. simpl. lia.
  - apply Qltb_ge. apply Z.ltb_ge in E.
    unfold ProvablyFair.randomPercent, Qle, Qdiv, Qmult, Qinv, inject_Z. simpl. lia.
Qed.

(** ** Agreement with binary64 on digest bytes *)

(** The draws of coin flip and dice are computed from one byte.  On all
    256 bytes the double-precision evaluation of the source expressions
    decides the comparisons exactly as the rational model does. *)

(** [randomPercent < winChance] for every byte and every whole win
    chance from 0 to 100. *)
Lemma percent_comparison_binary64 :
  forallb (fun b =>
    forallb (fun w =>
      Bool.eqb (PrimFloat.ltb (Binary64.randomPercent b) (Binary64.ofInteger w))
               (Js.Qltb (ProvablyFair.randomPercent b) (inject_Z w)))
      Binary64.chances) Binary64.bytes = true.
Proof. vm_compute. reflexivity. Qed.

(** [Math.floor((byte / 255) * 99) + 1] is the roll of the model: the
    double lies between the roll minus one and the roll. *)
Lemma roll_binary64 :
  forallb (fun b =>
    PrimFloat.leb (Binary64.ofInteger (Dice.rollOf b - 1)) (Binary64.scaled b)
    && PrimFloat.ltb (Binary64.scaled b) (Binary64.ofInteger (Dice.rollOf b)))
    Binary64.bytes = true.
Proof. vm_compute. reflexivity. Qed.

(** On the sample amounts, [Double] rounds, adds and multiplies as the
    primitive floats do. *)
Lemma double_agrees_with_primitive_floats :
  forallb (fun a =>
    Qeq_bool (Double.round (Binary64.rational a))
             (Binary64.valueOf (Binary64.quotient a))
    && forallb (fun b =>
         Qeq_bool (Double.add (Binary64.rational a) (Binary64.rational b))
                  (Binary64.valueOf
                     (PrimFloat.add (Binary64.quotient a) (Binary64.quotient b)))
         && Qeq_bool (Double.mul (Binary64.rational a) (Binary64.rational b))
                     (Binary64.valueOf
                        (PrimFloat.mul (Binary64.quotient a)
                                       (Binary64.quotient b)))
         && Bool.eqb (Double.ltb (Binary64.rational a) (Binary64.rational b))
                     (PrimFloat.ltb (Binary64.quotient a) (Binary64.quotient b)))
       Binary64.fractions)
    Binary64.fractions = true.
Proof. vm_compute. reflexivity. Qed.

(** The conversion to lamports rounds the product before it is rounded
    down: 0.00104 SOL are 1039999 lamports, where the exact product is
    1040000. *)
Lemma solToLamports_rounds_the_product :
  solToLamports (104 # 100000) = 1039999%Z
  /\ Qfloor ((104 # 100000) * LAMPORTS_PER_SOL) = 1040000%Z
  /\ solToLamports (9 # 1000) = 9000000%Z
  /\ solToLamports 1 = 1000000000%Z.
Proof. vm_compute. repeat split; reflexivity. Qed.

(** ** The fairness derivation *)

(** C9. The derivation is deterministic in its seed material: two
    invocations that read the same blockhash and the same slot, with the
    same user seed and win chance, behave identically; in particular
    they hash the same seed, obtain the same 32-byte digest and report
    the same win/lose result. *)
Theorem fairness_deterministic :
  forall (c1 c2 : ProvablyFair.Connection) (winChance : Q)
         (userSeed : option string),
    ProvablyFair.getLatestBlockhash c1 = ProvablyFair.getLatestBlockhash c2 ->
    ProvablyFair.getSlot c1 = ProvablyFair.getSlot c2 ->
    ProvablyFair.generateProvablyFairResult c1 winChance userSeed
    = ProvablyFair.generateProvablyFairResult c2 winChance userSeed
    /\ forall t1 t2 r1 r2,
         ProvablyFair.generateProvablyFairResult c1 winChance userSeed = (t1, Some r1) ->
         ProvablyFair.generateProvablyFairResult c2 winChance userSeed = (t2, Some r2) ->
         sha256 (ProvablyFair.seed r1) = sha256 (ProvablyFair.seed r2)
         /\ List.length (sha256 (ProvablyFair.seed r1)) = 32%nat
         /\ ProvablyFair.won r1 = ProvablyFair.won r2
         /\ ProvablyFair.result r1 = ProvablyFair.result r2.
Proof.
  intros c1 c2 winChance userSeed Hb Hs.
  assert (E : ProvablyFair.generateProvablyFairResult c1 winChance userSeed
              = ProvablyFair.generateProvablyFairResult c2 winChance userSeed).
  { unfold ProvablyFair.generateProvablyFairResult. rewrite Hb, Hs. reflexivity. }
  split; [exact E|].
  intros t1 t2 r1 r2 H1 H2. rewrite E, H2 in H1.
  injection H1 as _ Hr. subst r2.
  repeat split. apply sha256_length.
Qed.

Lemma fairness_deterministic_witness :
  ProvablyFair.generateProvablyFairResult (devnet 5) 50 (Some player)
  = ProvablyFair.generateProvablyFairResult (fallbackRpc 5) 50 (Some player).
Proof.
  exact (proj1 (fairness_deterministic (devnet 5) (fallbackRpc 5) 50 (Some player)
                  eq_refl eq_refl)).
Defined.

(** C10. At a win chance of 50 the result produced for a seed is the one
    the audit function recomputes from that seed: the win condition
    (percentage below 50) coincides with the first digest byte being
    below 128, a win is reported as heads and a loss as tails, and
    [verifyResult] accepts the reported result. *)
Theorem generate_then_verify :
  forall (connection : ProvablyFair.Connection) (userSeed : option string)
         (t : list Flow.Event) (r : ProvablyFair.FairResult),
    ProvablyFair.generateProvablyFairResult connection 50 userSeed = (t, Some r) ->
    ProvablyFair.won r
      = (ProvablyFair.firstByte (sha256 (ProvablyFair.seed r)) <? 128)%Z
    /\ ProvablyFair.result r
       = (if ProvablyFair.won r then ProvablyFair.heads else ProvablyFair.tails)
    /\ ProvablyFair.verifyResult (ProvablyFair.seed r) (ProvablyFair.result r) = true.
Proof.
  intros connection userSeed t r H.
  unfold ProvablyFair.generateProvablyFairResult in H.
  destruct (ProvablyFair.getLatestBlockhash connection) as [bh|]; [|discriminate].
  destruct (ProvablyFair.getSlot connection) as [sl|]; [|discriminate].
  cbn in H. injection H as _ Hr. subst r. cbn.
  unfold ProvablyFair.verifyResult.
  rewrite percent_below_50 by apply nth_sha256_byte.
  repeat split.
  destruct (ProvablyFair.firstByte
              (sha256 (ProvablyFair.combinedSeed bh sl userSeed)) <? 128)%Z;
    reflexivity.
Qed.

Lemma generate_then_verify_witness :
  ProvablyFair.verifyResult
    "9sHcv6xwn9YkB8nxTUGKDwPwNnmqVp5oAXxU8Fdkm4J6-5-7xKXtg2CW87d97TXJSDpbD5jBkheTqA83TZRuJosgAsU"
    ProvablyFair.heads = true.
Proof.
  exact (proj2 (proj2 (generate_then_verify (devnet 5) (Some player) _ _ eq_refl))).
Defined.

(** ** Crash *)

Lemma Qinv_le_contravar : forall a b : Q, 0 < b -> b <= a -> / a <= / b.
Proof.
  intros a b Hb Hab.
  destruct (Qle_lt_or_eq _ _ Hab) as [L|E].
  - apply Qlt_le_weak.
    assert (Ha : 0 < a) by (apply Qlt_trans with b; assumption).
    exact (proj1 (Qinv_lt_contravar b a Hb Ha) L).
  - rewrite E. apply Qle_refl.
Qed.

Lemma rawPoint_monotone :
  forall u1 u2 : Q, u1 <= u2 -> u2 < 1 -> rawPoint u1 <= rawPoint u2.
Proof.
  intros u1 u2 H12 H2. unfold rawPoint.
  apply Qmult_le_compat_r; [|discriminate].
  rewrite <- Zle_Qle. apply Qfloor_resp_le.
  apply Qmult_le_compat_r; [|discriminate].
  unfold Qdiv. apply Qmult_le_l; [reflexivity|].
  apply Qinv_le_contravar; lra.
Qed.

Lemma crashPointOf_below_edge :
  forall u : Q, u < Crash.HOUSE_EDGE -> Crash.crashPointOf u = 1.
Proof.
  intros u H. unfold Crash.crashPointOf.
  apply Qltb_lt in H. rewrite H. reflexivity.
Qed.

Lemma crashPointOf_from_edge :
  forall u : Q, Crash.HOUSE_EDGE <= u ->
    Crash.crashPointOf u = Qmax 1 (Qmin (rawPoint u) 1000).
Proof.
  intros u H. unfold Crash.crashPointOf.
  apply Qltb_ge in H. rewrite H. reflexivity.
Qed.

Lemma crashPointOf_bounds :
  forall u : Q, 1 <= Crash.crashPointOf u /\ Crash.crashPointOf u <= 1000.
Proof.
  intro u. unfold Crash.crashPointOf.
  destruct (Js.Qltb u Crash.HOUSE_EDGE).
  - split; discriminate.
  - split.
    + apply Q.le_max_l.
    + apply Q.max_lub; [discriminate | apply Q.le_min_r].
Qed.

(** The first four digest bytes read as an unsigned 32-bit integer. *)
Lemma getUint32_range :
  forall s, (0 <= Crash.getUint32 (sha256 s) < 2 ^ 32)%Z.
Proof.
  intro s. unfold Crash.getUint32.
  pose proof (nth_sha256_byte s 0) as B0.
  pose proof (nth_sha256_byte s 1) as B1.
  pose proof (nth_sha256_byte s 2) as B2.
  pose proof (nth_sha256_byte s 3) as B3.
  unfold isByte in *.
  change (2 ^ 24)%Z with 16777216%Z. change (2 ^ 16)%Z with 65536%Z.
  change (2 ^ 8)%Z with 256%Z. change (2 ^ 32)%Z with 4294967296%Z. lia.
Qed.

Lemma drawOf_below_one :
  forall blockhash now, Crash.drawOf blockhash now < 1.
Proof.
  intros blockhash now. unfold Crash.drawOf.
  pose proof (getUint32_range (blockhash ++ "-crash-" ++ Js.numberToString now))
    as R.
  set (h := sha256 _) in *.
  change (2 ^ 32)%Z with 4294967296%Z in *.
  unfold Qlt, Qdiv, Qmult, Qinv, inject_Z. simpl. lia.
Qed.

(** X28. The draw of the crash game, the first four digest bytes read
    as a 32-bit integer over [2^32], lies in [0,1) for every blockhash
    and clock reading. *)
Lemma drawOf_unit_interval :
  forall blockhash now,
    0 <= Crash.drawOf blockhash now /\ Crash.drawOf blockhash now < 1.
Proof.
  intros blockhash now. unfold Crash.drawOf.
  pose proof (getUint32_range (blockhash ++ "-crash-" ++ Js.numberToString now))
    as R.
  set (h := sha256 _) in *.
  change (2 ^ 32)%Z with 4294967296%Z in *.
  unfold Qle, Qlt, Qdiv, Qmult, Qinv, inject_Z. simpl. lia.
Qed.

Lemma crashPointOf_nondecreasing :
  forall u1 u2 : Q,
    Crash.HOUSE_EDGE <= u1 -> u1 <= u2 -> u2 < 1 ->
    Crash.crashPointOf u1 <= Crash.crashPointOf u2.
Proof.
  intros u1 u2 H1 H12 H2.
  rewrite (crashPointOf_from_edge u1) by assumption.
  rewrite (crashPointOf_from_edge u2) by (apply Qle_trans with u1; assumption).
  apply Q.max_le_compat_l, Q.min_le_compat_r, rawPoint_monotone; assumption.
Qed.

(** From the house edge upwards the formula starts at 100. *)
Lemma crashPointOf_from_100 :
  forall u : Q, Crash.HOUSE_EDGE <= u -> u < 1 -> 100 <= Crash.crashPointOf u.
Proof.
  intros u H1 H2.
  apply Qle_trans with (Crash.crashPointOf Crash.HOUSE_EDGE); [discriminate|].
  apply crashPointOf_nondecreasing; [apply Qle_refl | exact H1 | exact H2].
Qed.



(** C4. For a draw [u] in [0,1): below the house edge the crash point is
    exactly 1; otherwise it is [floor(99 / (1 - u) * 100) / 100] clamped
    between 1 and the ceiling 1000; in both cases it lies in [1, 1000]. *)
Theorem crash_point_rule :
  forall u : Q, 0 <= u -> u < 1 ->
    (u < Crash.HOUSE_EDGE -> Crash.crashPointOf u = 1)
    /\ (Crash.HOUSE_EDGE <= u ->
        Crash.crashPointOf u
        = Qmax 1 (Qmin (inject_Z (Qfloor ((99 / (1 - u)) * 100)) / 100) 1000))
    /\ 1 <= Crash.crashPointOf u
    /\ Crash.crashPointOf u <= 1000.
Proof.
  intros u _ _. split; [|split].
  - apply crashPointOf_below_edge.
  - apply crashPointOf_from_edge.
  - apply crashPointOf_bounds.
Qed.

Lemma crash_point_rule_witness :
  1 <= Crash.crashPointOf (1 # 2) /\ Crash.crashPointOf (1 # 2) <= 1000.
Proof.
  apply (crash_point_rule (1 # 2)); [discriminate | reflexivity].
Defined.

(** C5. From the house edge upwards the crash point does not decrease
    with the draw, and below the house edge it is exactly 1. *)
Theorem crash_point_monotone :
  forall u1 u2 : Q,
    Crash.HOUSE_EDGE <= u1 -> u1 <= u2 -> u2 < 1 ->
    Crash.crashPointOf u1 <= Crash.crashPointOf u2
    /\ forall u : Q, u < Crash.HOUSE_EDGE -> Crash.crashPointOf u = 1.
Proof.
  intros u1 u2 H1 H12 H2. split.
  - apply crashPointOf_nondecreasing; assumption.
  - apply crashPointOf_below_edge.
Qed.

Lemma crash_point_monotone_witness :
  Crash.crashPointOf (1 # 100) <= Crash.crashPointOf (9 # 10).
Proof.
  apply (crash_point_monotone (1 # 100) (9 # 10)); [discriminate | discriminate | reflexivity].
Defined.

Lemma generateCrashPoint_draw :
  forall blockhash now random,
    Crash.generateCrashPoint (Some blockhash) now random
    = Crash.crashPointOf (Crash.drawOf blockhash now).
Proof. reflexivity. Qed.

(** ** Roulette *)

Lemma winningNumberOf_range :
  forall random : Q, 0 <= random -> random < 1 ->
    (0 <= Roulette.winningNumberOf random <= 36)%Z.
Proof.
  intros random H0 H1. unfold Roulette.winningNumberOf.
  set (x := random * 37).
  assert (X0 : 0 <= x) by (unfold x; lra).
  assert (X1 : x < 37) by (unfold x; lra).
  split.
  - change 0%Z with (Qfloor 0). apply Qfloor_resp_le, X0.
  - destruct (Z_le_gt_dec (Qfloor x) 36) as [L|G]; [exact L|exfalso].
    assert (G' : (37 <= Qfloor x)%Z) by lia.
    rewrite Zle_Qle in G'.
    pose proof (Qfloor_le x) as F.
    apply (Qlt_not_le _ _ X1). apply Qle_trans with (inject_Z (Qfloor x)); assumption.
Qed.

Lemma pocket_cases :
  forall n : Z, (0 <= n <= 36)%Z -> In n pockets.
Proof.
  intros n H. unfold pockets.
  replace n with (Z.of_nat (Z.to_nat n)) by lia.
  apply in_map, in_seq. lia.
Qed.

(** Settle a goal about a pocket number by trying each pocket. *)
Ltac each_pocket n H :=
  let C := fresh "C" in
  pose proof (pocket_cases n H) as C;
  vm_compute in C;
  repeat (destruct C as [C|C]; [subst n; reflexivity|]);
  contradiction.

Lemma betWin_table :
  forall (n : Z) (bet : Roulette.Bet), (0 <= n <= 36)%Z ->
    Roulette.betWin n bet
    = if covers bet n
      then Roulette.amount bet * tableReturn (Roulette.type bet)
      else 0.
Proof.
  intros n [t v a] Hn. unfold Roulette.betWin, covers.
  cbn [Roulette.type Roulette.value Roulette.amount].
  destruct t; cbn [tableReturn].
  - destruct v as [v|]; reflexivity.
  - each_pocket n Hn.
  - each_pocket n Hn.
  - each_pocket n Hn.
  - each_pocket n Hn.
  - reflexivity.
  - reflexivity.
Qed.

Lemma totalWinOf_app :
  forall n bets bet,
    Roulette.totalWinOf n (bets ++ [bet])
    = Roulette.totalWinOf n bets + Roulette.betWin n bet.
Proof.
  intros n bets bet. unfold Roulette.totalWinOf.
  rewrite fold_left_app. reflexivity.
Qed.



(** ** The payout server *)

Lemma has_true : forall m k, PayoutServer.has m k = true <-> In k m.
Proof.
  intros m k. unfold PayoutServer.has. rewrite existsb_exists. split.
  - intros [x [Hx E]]. apply String.eqb_eq in E. subst x. exact Hx.
  - intro H. exists k. split; [exact H | apply String.eqb_refl].
Qed.

Lemma In_delete :
  forall m k k', In k (PayoutServer.delete m k') <-> In k m /\ k' <> k.
Proof.
  intros m k k'. unfold PayoutServer.delete. rewrite filter_In.
  rewrite negb_true_iff, String.eqb_neq. reflexivity.
Qed.

Lemma In_set :
  forall m k k', In k (PayoutServer.set m k') <-> In k m \/ k = k'.
Proof.
  intros m k k'. unfold PayoutServer.set.
  destruct (PayoutServer.has m k') eqn:E.
  - apply has_true in E. split; [auto|]. intros [H|H]; [exact H | subst; exact E].
  - rewrite in_app_iff. simpl. intuition auto.
Qed.

Lemma has_false : forall m k, PayoutServer.has m k = false <-> ~ In k m.
Proof.
  intros m k. rewrite <- has_true. destruct (PayoutServer.has m k); split;
    congruence || (intro H; exfalso; apply H; reflexivity).
Qed.

Lemma delete_absent :
  forall m k, ~ In k m -> PayoutServer.delete m k = m.
Proof.
  induction m as [|x m IH]; intros k H; simpl; auto.
  destruct (String.eqb k x) eqn:E.
  - apply String.eqb_eq in E. subst x. exfalso. apply H. left. reflexivity.
  - simpl. f_equal. apply IH. intro I. apply H. right. exact I.
Qed.

(** Marking a game pending and clearing the mark restores the set. *)
Lemma delete_set :
  forall m k, PayoutServer.has m k = false ->
    PayoutServer.delete (PayoutServer.set m k) k = m.
Proof.
  intros m k H. unfold PayoutServer.set. rewrite H.
  unfold PayoutServer.delete. rewrite filter_app. simpl.
  rewrite String.eqb_refl. simpl. rewrite app_nil_r.
  apply delete_absent, has_false, H.
Qed.

Lemma find_app_found :
  forall (A : Type) (f : A -> bool) (l l' : list A) (x : A),
    find f l = Some x -> find f (l ++ l') = Some x.
Proof.
  induction l as [|a l IH]; intros l' x H; simpl in *; [discriminate|].
  destruct (f a); auto.
Qed.

Lemma find_app_missing :
  forall (A : Type) (f : A -> bool) (l l' : list A),
    find f l = None -> find f (l ++ l') = find f l'.
Proof.
  induction l as [|a l IH]; intros l' H; simpl in *; auto.
  destruct (f a); [discriminate | auto].
Qed.

(** ** The recorded result of a round and the payout service *)

Lemma flipCoin_result_independent_of_payout :
  forall chain reply publicKey amount balance side,
    option_map CoinFlip.didWin
      (Flow.value (CoinFlip.flipCoin (withPayoutReply chain reply)
                     publicKey amount balance side))
    = option_map CoinFlip.didWin
        (Flow.value (CoinFlip.flipCoin chain publicKey amount balance side)).
Proof.
  intros chain reply publicKey amount balance side.
  unfold CoinFlip.flipCoin, withPayoutReply. cbn [betBlockhash sendTransaction
    confirmTransaction fairConnection now processPayout].
  destruct (negb (CoinFlip.validateBet amount balance)); [reflexivity|].
  destruct (betBlockhash chain); [|reflexivity].
  destruct (sendTransaction chain); [|reflexivity].
  destruct (confirmTransaction chain) as [[|]|]; try reflexivity.
  unfold ProvablyFair.generateProvablyFairResult.
  destruct (ProvablyFair.getLatestBlockhash (fairConnection chain)); [|reflexivity].
  destruct (ProvablyFair.getSlot (fairConnection chain)); [|reflexivity].
  cbn -[CoinFlip.winMultiplier Qmult].
  destruct (Js.Qltb _ 50); reflexivity.
Qed.

Lemma rollDice_result_independent_of_payout :
  forall chain reply publicKey amount balance target rollOver,
    option_map Dice.didWin
      (Flow.value (Dice.rollDice (withPayoutReply chain reply)
                     publicKey amount balance target rollOver))
    = option_map Dice.didWin
        (Flow.value (Dice.rollDice chain publicKey amount balance target rollOver)).
Proof.
  intros chain reply publicKey amount balance target rollOver.
  unfold Dice.rollDice, withPayoutReply. cbn [betBlockhash sendTransaction
    confirmTransaction fairConnection now processPayout].
  destruct (negb (Dice.validateBet amount balance)); [reflexivity|].
  destruct (betBlockhash chain); [|reflexivity].
  destruct (sendTransaction chain); [|reflexivity].
  destruct (confirmTransaction chain) as [[|]|]; try reflexivity.
  unfold ProvablyFair.generateProvablyFairResult.
  destruct (ProvablyFair.getLatestBlockhash (fairConnection chain)); [|reflexivity].
  destruct (ProvablyFair.getSlot (fairConnection chain)); [|reflexivity].
  cbn -[Dice.multiplier Dice.wins Dice.rollOf Qmult].
  destruct (Dice.wins _ _ _); reflexivity.
Qed.

Section ServerProperties.
Import PayoutService PayoutServer.
Local Open Scope string_scope.

Variable isPublicKey : string -> bool.
Variable network : string.

Local Abbreviation payout := (PayoutServer.payout isPublicKey network).
Local Abbreviation serve := (PayoutServer.serve isPublicKey network).

Lemma wellFormed_guard :
  forall req,
    negb (Js.truthy (playerWallet req)) || negb (Js.nonzero (amount req))
    || negb (Js.truthy (gameId req)) = negb (wellFormed req).
Proof.
  intro req. unfold wellFormed.
  destruct (Js.truthy (playerWallet req)), (Js.nonzero (amount req)),
    (Js.truthy (gameId req)); reflexivity.
Qed.

Lemma withPending_same :
  forall st, withPending st (pendingPayouts st) = st.
Proof. intros [h l p]. reflexivity. Qed.

(** What [attempt] can do to the stores: the pending mark of the game is
    cleared, and the history is unchanged unless every call succeeded,
    in which case it receives one record for the game. *)
Lemma attempt_cases :
  forall st house req rpc st' res calls,
    attempt isPublicKey network st house req rpc = (st', res, calls) ->
    houseKeypair st' = houseKeypair st
    /\ pendingPayouts st' = delete (pendingPayouts st) (gameId req)
    /\ ((payoutHistory st' = payoutHistory st
         /\ Res.success res = false /\ sends calls <= 1)%nat
        \/ exists signature recentBlockhash : string,
             sendRawTransaction rpc = resolves signature
             /\ payoutHistory st'
                = (payoutHistory st
                  ++ [{| Rec.gameId := gameId req;
                         Rec.playerWallet := playerWallet req;
                         Rec.amount := amount req;
                         Rec.signature := signature;
                         Rec.blockhash :=
                           if Js.truthy (blockhash req) then blockhash req
                           else recentBlockhash;
                         Rec.slot := slot req;
                         Rec.timestamp := now rpc |}])%list
             /\ Res.success res = true
             /\ Res.signature res = Some signature
             /\ sends calls = 1%nat).
Proof.
  intros st house req rpc st' res calls H.
  unfold attempt, caught in H.
  assert (Fails : forall message cs,
            (sends cs <= 1)%nat ->
            (withPending st (delete (pendingPayouts st) (gameId req)),
             failure 500 message, cs) = (st', res, calls) ->
            houseKeypair st' = houseKeypair st
            /\ pendingPayouts st' = delete (pendingPayouts st) (gameId req)
            /\ (payoutHistory st' = payoutHistory st
                /\ Res.success res = false /\ (sends calls <= 1)%nat)).
  { intros message cs L E. injection E as <- <- <-. cbn. auto. }
  destruct (isPublicKey (playerWallet req)); cbn [negb] in H;
    [|apply Fails in H; [destruct H as (A & B & C); auto | cbn; auto]].
  destruct (getBalance rpc) as [houseBalance|m];
    [|apply Fails in H; [destruct H as (A & B & C); auto | cbn; auto]].
  destruct (Double.ltb _ _).
  { injection H as <- <- <-. cbn. repeat split; auto. }
  destruct (getLatestBlockhash rpc) as [[recentBlockhash lastValid]|m];
    [|apply Fails in H; [destruct H as (A & B & C); auto | cbn; auto]].
  destruct (sendRawTransaction rpc) as [signature|m];
    [|apply Fails in H; [destruct H as (A & B & C); auto | cbn; auto]].
  destruct (confirmTransaction rpc) as [[|]|m];
    try (apply Fails in H; [destruct H as (A & B & C); auto | cbn; auto]; fail).
  injection H as <- <- <-. cbn.
  repeat split; auto. right. exists signature, recentBlockhash. auto.
Qed.

(** The handler either refuses the request, or answers from the
    history, or enters [attempt] with the game marked pending; in the
    first two cases it touches neither the stores nor the connection. *)
Lemma payout_cases :
  forall st req rpc st' res calls,
    payout st req rpc = (st', res, calls) ->
    (st' = st /\ calls = [] /\ Res.success res = false)
    \/ (st' = st /\ calls = []
        /\ wellFormed req = true
        /\ has (pendingPayouts st) (gameId req) = false
        /\ (exists house, houseKeypair st = Some house)
        /\ exists p, recorded st (gameId req) = Some p
                     /\ res = cached (Rec.signature p))
    \/ (wellFormed req = true
        /\ has (pendingPayouts st) (gameId req) = false
        /\ recorded st (gameId req) = None
        /\ exists house,
             houseKeypair st = Some house
             /\ attempt isPublicKey network
                  (withPending st (set (pendingPayouts st) (gameId req)))
                  house req rpc = (st', res, calls)).
Proof.
  intros st req rpc st' res calls H.
  unfold PayoutServer.payout in H. rewrite wellFormed_guard in H.
  destruct (wellFormed req); cbn [negb] in H;
    [|injection H as <- <- <-; left; cbn; auto].
  destruct (houseKeypair st) as [house|] eqn:K;
    [|injection H as <- <- <-; left; cbn; auto].
  destruct (has (pendingPayouts st) (gameId req)) eqn:P;
    [injection H as <- <- <-; left; cbn; auto|].
  fold (recorded st (gameId req)) in H.
  destruct (recorded st (gameId req)) as [p|] eqn:F.
  - injection H as <- <- <-. right. left.
    repeat split; eauto.
  - right. right. repeat split; auto. exists house. auto.
Qed.

(** A game with a record in the history is answered from the record. *)
Lemma payout_recorded :
  forall st req rpc house p,
    wellFormed req = true ->
    houseKeypair st = Some house ->
    has (pendingPayouts st) (gameId req) = false ->
    recorded st (gameId req) = Some p ->
    payout st req rpc = (st, cached (Rec.signature p), []).
Proof.
  intros st req rpc house p W K P F.
  unfold PayoutServer.payout. rewrite wellFormed_guard, W, K, P.
  fold (recorded st (gameId req)). rewrite F. reflexivity.
Qed.

Lemma payout_keeps_settled :
  forall game signature st req rpc st' res calls,
    settled game signature st ->
    payout st req rpc = (st', res, calls) ->
    settled game signature st'.
Proof.
  intros game signature st req rpc st' res calls (K & P & p & F & S) H.
  destruct (payout_cases _ _ _ _ _ _ H)
    as [(-> & _ & _)|[(-> & _)|(W & P' & F' & house & K' & A)]].
  - repeat split; eauto.
  - repeat split; eauto.
  - destruct (attempt_cases _ _ _ _ _ _ _ A) as (HK & HP & HH).
    cbn in HK, HP.
    split; [rewrite HK; exact K|]. split.
    + apply has_false. rewrite HP. intro I.
      apply In_delete in I. destruct I as [I N].
      apply In_set in I. destruct I as [I|I]; [|congruence].
      apply has_false in P. contradiction.
    + exists p. split; [|exact S]. unfold recorded in *.
      destruct HH as [(HH & _)|(sg & bh & _ & HH & _)]; rewrite HH; cbn; auto.
      apply find_app_found, F.
Qed.

Lemma serve_keeps_settled :
  forall game signature reqs st st' ress calls,
    settled game signature st ->
    serve st reqs = (st', ress, calls) ->
    settled game signature st'.
Proof.
  induction reqs as [|[req rpc] reqs IH]; intros st st' ress calls I H.
  - injection H as <- _ _. exact I.
  - cbn [PayoutServer.serve] in H.
    destruct (payout st req rpc) as [[st1 res1] calls1] eqn:E1.
    destruct (serve st1 reqs) as [[st2 ress2] calls2] eqn:E2.
    injection H as <- _ _.
    eapply IH; [|exact E2]. eapply payout_keeps_settled; eauto.
Qed.

(** A request answered with success leaves its game settled under the
    signature of the answer; it sent one transfer, or none when it was
    answered from the history. *)
Lemma payout_success_settles :
  forall st req rpc st' res calls,
    payout st req rpc = (st', res, calls) ->
    Res.success res = true ->
    wellFormed req = true
    /\ (calls = [] \/ sends calls = 1%nat)
    /\ exists signature,
         Res.signature res = Some signature
         /\ settled (gameId req) signature st'.
Proof.
  intros st req rpc st' res calls H S.
  destruct (payout_cases _ _ _ _ _ _ H)
    as [(_ & _ & E)|[(-> & -> & W & P & K & p & F & ->)
                    |(W & P & F & house & K & A)]];
    [congruence| |].
  - split; [exact W|]. split; [left; reflexivity|].
    exists (Rec.signature p). split; [reflexivity|].
    repeat split; eauto.
  - destruct (attempt_cases _ _ _ _ _ _ _ A) as (HK & HP & HH).
    cbn in HK, HP.
    destruct HH as [(_ & S' & _)|(sg & bh & _ & HH & _ & Sg & N)]; [congruence|].
    split; [exact W|]. split; [right; exact N|].
    exists sg. split; [exact Sg|]. split; [|split].
    + exists house. rewrite HK. exact K.
    + apply has_false. rewrite HP. intro I. apply In_delete in I. tauto.
    + eexists. split.
      * unfold recorded in *. rewrite HH. cbn in *.
        rewrite find_app_missing by exact F. cbn.
        rewrite String.eqb_refl. reflexivity.
      * reflexivity.
Qed.

(** The transfer of a successful attempt: among its calls there is one
    transfer, to the player's wallet and of the lamports of the amount. *)
Lemma attempt_success_transfer :
  forall st house req rpc st' res calls,
    attempt isPublicKey network st house req rpc = (st', res, calls) ->
    Res.success res = true ->
    filter isSend calls
    = [callSendRawTransaction (playerWallet req) (lamportsOf req)].
Proof.
  intros st house req rpc st' res calls H S.
  unfold attempt, caught in H.
  destruct (isPublicKey (playerWallet req)); cbn [negb] in H;
    [|injection H as _ <- _; discriminate].
  destruct (getBalance rpc) as [houseBalance|m];
    [|injection H as _ <- _; discriminate].
  destruct (Double.ltb _ _); [injection H as _ <- _; discriminate|].
  destruct (getLatestBlockhash rpc) as [[recentBlockhash lastValid]|m];
    [|injection H as _ <- _; discriminate].
  destruct (sendRawTransaction rpc) as [signature|m];
    [|injection H as _ <- _; discriminate].
  destruct (confirmTransaction rpc) as [[|]|m];
    try (injection H as _ <- _; discriminate).
  injection H as _ _ <-. reflexivity.
Qed.

(** A record of the history stays the record of its game. *)
Lemma payout_keeps_record :
  forall game p st req rpc st' res calls,
    recorded st game = Some p ->
    payout st req rpc = (st', res, calls) ->
    recorded st' game = Some p.
Proof.
  intros game p st req rpc st' res calls F H.
  destruct (payout_cases _ _ _ _ _ _ H)
    as [(-> & _ & _)|[(-> & _)|(W & P' & F' & house & K' & A)]];
    [exact F | exact F |].
  destruct (attempt_cases _ _ _ _ _ _ _ A) as (_ & _ & HH).
  unfold recorded in *.
  destruct HH as [(HH & _)|(sg & bh & _ & HH & _)]; rewrite HH; cbn; auto.
  apply find_app_found, F.
Qed.

Lemma serve_keeps_record :
  forall game p reqs st st' ress calls,
    recorded st game = Some p ->
    serve st reqs = (st', ress, calls) ->
    recorded st' game = Some p.
Proof.
  induction reqs as [|[req rpc] reqs IH]; intros st st' ress calls F H.
  - injection H as <- _ _. exact F.
  - cbn [PayoutServer.serve] in H.
    destruct (payout st req rpc) as [[st1 res1] calls1] eqn:E1.
    destruct (serve st1 reqs) as [[st2 ress2] calls2] eqn:E2.
    injection H as <- _ _.
    eapply IH; [|exact E2]. eapply payout_keeps_record; eauto.
Qed.

(** C1. Once a payout for a game id has completed successfully, the
    history holds a record [p] of the game, and the answer carries the
    signature of that record.  If the game had no record before the
    call, the call sent exactly one transfer, to the player and of the
    lamports of the amount, the signature of the record is the one the
    connection returned for that transfer, and the record was appended
    to the history; if it had one, the call was answered from it without
    any call on the ledger.  After any further traffic the record of the
    game is still [p], and two more calls with the request both return
    the cached answer carrying its signature: they are identical, make
    no call on the ledger and leave the server unchanged. *)
Theorem settle_idempotent :
  forall st req rpc st1 res calls later st2 ress calls' rpc2 rpc3,
    payout st req rpc = (st1, res, calls) ->
    Res.success res = true ->
    serve st1 later = (st2, ress, calls') ->
    exists p,
      recorded st1 (gameId req) = Some p
      /\ Res.signature res = Some (Rec.signature p)
      /\ match recorded st (gameId req) with
         | Some existingPayout =>
             existingPayout = p /\ calls = [] /\ st1 = st
         | None =>
             sendRawTransaction rpc = resolves (Rec.signature p)
             /\ filter isSend calls
                = [callSendRawTransaction (playerWallet req) (lamportsOf req)]
             /\ payoutHistory st1 = (payoutHistory st ++ [p])%list
             /\ Rec.playerWallet p = playerWallet req
             /\ Rec.amount p = amount req
         end
      /\ recorded st2 (gameId req) = Some p
      /\ serve st2 [(req, rpc2); (req, rpc3)]
         = (st2, [cached (Rec.signature p); cached (Rec.signature p)], []).
Proof.
  intros st req rpc st1 res calls later st2 ress calls' rpc2 rpc3 H S L.
  destruct (payout_success_settles _ _ _ _ _ _ H S) as (W & _ & sg & Sg & I).
  assert (First : exists p,
            recorded st1 (gameId req) = Some p
            /\ Res.signature res = Some (Rec.signature p)
            /\ match recorded st (gameId req) with
               | Some existingPayout =>
                   existingPayout = p /\ calls = [] /\ st1 = st
               | None =>
                   sendRawTransaction rpc = resolves (Rec.signature p)
                   /\ filter isSend calls
                      = [callSendRawTransaction (playerWallet req) (lamportsOf req)]
                   /\ payoutHistory st1 = (payoutHistory st ++ [p])%list
                   /\ Rec.playerWallet p = playerWallet req
                   /\ Rec.amount p = amount req
               end).
  { destruct (payout_cases _ _ _ _ _ _ H)
      as [(_ & _ & E)|[(-> & -> & _ & P & K & p & F & ->)
                      |(_ & P & F & house & K & A)]];
      [congruence| |].
    - exists p. rewrite F. repeat split; auto.
    - pose proof (attempt_success_transfer _ _ _ _ _ _ _ A S) as T.
      destruct (attempt_cases _ _ _ _ _ _ _ A) as (_ & _ & HH).
      destruct HH as [(_ & S' & _)|(sg' & bh & Sd & HH & _ & Sg' & _)];
        [congruence|].
      cbn [payoutHistory withPending] in HH.
      match type of HH with _ = (_ ++ [?r])%list => exists r end.
      rewrite F. split; [|split; [exact Sg'|]].
      + unfold recorded in *. rewrite HH.
        rewrite find_app_missing by exact F. cbn.
        rewrite String.eqb_refl. reflexivity.
      + cbn [Rec.signature Rec.playerWallet Rec.amount].
        repeat split; auto. }
  destruct First as (p & F1 & Sp & Before).
  exists p. split; [exact F1|]. split; [exact Sp|]. split; [exact Before|].
  pose proof (serve_keeps_record _ _ _ _ _ _ _ F1 L) as F2.
  split; [exact F2|].
  assert (E : sg = Rec.signature p) by congruence. subst sg.
  pose proof (serve_keeps_settled _ _ _ _ _ _ _ I L) as ((house & K) & P & _).
  cbn [PayoutServer.serve].
  rewrite (payout_recorded st2 req rpc2 house p W K P F2).
  rewrite (payout_recorded st2 req rpc3 house p W K P F2).
  reflexivity.
Qed.

(** C8. When a payout request reaches the balance check and the house
    balance is below the payout in lamports plus 5000 for fees, as the
    handler computes and compares them in double precision
    ([houseBalance < lamports + 5000] with
    [lamports = Math.floor(amount * LAMPORTS_PER_SOL)]), the handler
    answers with the insufficient-balance error after the balance query
    alone: nothing is sent, no record is added, and the server is left
    exactly as it was, so that the same request succeeds once the
    balance passes the same check.  On the client the recorded result of
    the round does not depend on what the payout service answered. *)
Theorem insufficient_balance_fails_fast :
  forall st req rpc houseBalance,
    reachesBalanceCheck isPublicKey st req = true ->
    getBalance rpc = resolves houseBalance ->
    Double.ltb (inject_Z houseBalance)
               (Double.add (inject_Z (lamportsOf req)) 5000) = true ->
    payout st req rpc
    = (st, failure 503 "Insufficient house wallet balance", [callGetBalance])
    /\ sends [callGetBalance] = 0%nat
    /\ (forall rpc' houseBalance' recentBlockhash lastValidBlockHeight signature,
          getBalance rpc' = resolves houseBalance' ->
          Double.ltb (inject_Z houseBalance')
                     (Double.add (inject_Z (lamportsOf req)) 5000) = false ->
          getLatestBlockhash rpc' = resolves (recentBlockhash, lastValidBlockHeight) ->
          sendRawTransaction rpc' = resolves signature ->
          PayoutServer.confirmTransaction rpc' = resolves false ->
          exists st' res,
            payout st req rpc'
            = (st', res,
               [callGetBalance; callGetLatestBlockhash;
                callSendRawTransaction (playerWallet req) (lamportsOf req);
                callConfirmTransaction signature])
            /\ Res.success res = true
            /\ Res.signature res = Some signature
            /\ settled (gameId req) signature st')
    /\ (forall chain reply publicKey amount balance side,
          option_map CoinFlip.didWin
            (Flow.value (CoinFlip.flipCoin (withPayoutReply chain reply)
                           publicKey amount balance side))
          = option_map CoinFlip.didWin
              (Flow.value (CoinFlip.flipCoin chain publicKey amount balance side)))
    /\ (forall chain reply publicKey amount balance target rollOver,
          option_map Dice.didWin
            (Flow.value (Dice.rollDice (withPayoutReply chain reply)
                           publicKey amount balance target rollOver))
          = option_map Dice.didWin
              (Flow.value (Dice.rollDice chain publicKey amount balance
                             target rollOver))).
Proof.
  intros st req rpc houseBalance R B L.
  unfold reachesBalanceCheck in R.
  apply andb_prop in R; destruct R as [R V].
  apply andb_prop in R; destruct R as [R F].
  apply andb_prop in R; destruct R as [R P].
  apply andb_prop in R; destruct R as [W K].
  apply negb_true_iff in P.
  destruct (houseKeypair st) as [house|] eqn:EK; [|discriminate].
  destruct (recorded st (gameId req)) eqn:EF; [discriminate|].
  assert (Enter : forall rpc0,
            payout st req rpc0
            = attempt isPublicKey network
                (withPending st (set (pendingPayouts st) (gameId req)))
                house req rpc0).
  { intro rpc0. unfold PayoutServer.payout.
    rewrite wellFormed_guard, W, EK, P.
    fold (recorded st (gameId req)). rewrite EF. reflexivity. }
  split; [|split; [reflexivity|split; [|split]]].
  - rewrite Enter. unfold attempt. rewrite V, B. cbn [negb].
    fold (lamportsOf req). rewrite L.
    cbn [pendingPayouts withPending]. rewrite delete_set by exact P.
    unfold withPending. cbn. destruct st; reflexivity.
  - intros rpc' houseBalance' recentBlockhash lastValid signature B' L' G S C.
    destruct (payout st req rpc') as [[st' res] calls] eqn:E.
    pose proof E as E'. rewrite Enter in E'. unfold attempt in E'.
    rewrite V, B' in E'. cbn [negb] in E'. fold (lamportsOf req) in E'.
    rewrite L', G, S, C in E'.
    injection E' as <- <- <-.
    eexists. eexists. split; [reflexivity|]. cbn [Res.success Res.signature].
    split; [reflexivity|]. split; [reflexivity|].
    split; [|split].
    + exists house. exact EK.
    + cbn [pendingPayouts withPending]. rewrite delete_set by exact P. exact P.
    + eexists. split.
      * unfold recorded in *. cbn [payoutHistory withPending].
        rewrite find_app_missing by exact EF. cbn.
        rewrite String.eqb_refl. reflexivity.
      * reflexivity.
  - apply flipCoin_result_independent_of_payout.
  - apply rollDice_result_independent_of_payout.
Qed.

End ServerProperties.

Lemma settle_idempotent_witness :
  exists p,
    recorded (fst (fst afterPayout)) "game_1700000000000" = Some p
    /\ PayoutServer.Res.signature (snd (fst afterPayout))
       = Some (PayoutServer.Rec.signature p)
    /\ (PayoutServer.sendRawTransaction (healthyRpc 5000000000)
        = PayoutServer.resolves (PayoutServer.Rec.signature p)
        /\ filter PayoutServer.isSend (snd afterPayout)
           = [PayoutServer.callSendRawTransaction player 2000000000]
        /\ PayoutServer.payoutHistory (fst (fst afterPayout)) = [p]
        /\ PayoutServer.Rec.playerWallet p = player
        /\ PayoutServer.Rec.amount p = 2)
    /\ recorded (fst (fst afterPayout)) "game_1700000000000" = Some p
    /\ PayoutServer.serve acceptAll "devnet" (fst (fst afterPayout))
         [(winnerRequest, healthyRpc 5000000000); (winnerRequest, healthyRpc 0)]
       = (fst (fst afterPayout),
          [cached (PayoutServer.Rec.signature p);
           cached (PayoutServer.Rec.signature p)], []).
Proof.
  apply (settle_idempotent acceptAll "devnet" freshServer winnerRequest
           (healthyRpc 5000000000) (fst (fst afterPayout)) (snd (fst afterPayout))
           (snd afterPayout) [] (fst (fst afterPayout)) [] []);
    vm_compute; reflexivity.
Defined.

Lemma insufficient_balance_fails_fast_witness :
  PayoutServer.payout acceptAll "devnet" freshServer winnerRequest
    (healthyRpc 1000000000)
  = (freshServer,
     PayoutServer.failure 503 "Insufficient house wallet balance",
     [PayoutServer.callGetBalance]).
Proof.
  apply (insufficient_balance_fails_fast acceptAll "devnet" freshServer
           winnerRequest (healthyRpc 1000000000) 1000000000);
    vm_compute; reflexivity.
Defined.

(** At the threshold: a payout of 0.00104 SOL is 1039999 lamports, so a
    house balance of 1044999 lamports passes the check and the transfer
    is sent. *)
Lemma payout_at_the_threshold :
  filter PayoutServer.isSend
    (snd (PayoutServer.payout acceptAll "devnet" freshServer thresholdRequest
            (healthyRpc 1044999)))
  = [PayoutServer.callSendRawTransaction player 1039999].
Proof. vm_compute. reflexivity. Qed.

(** ** The payout server under interleaving *)

Section InterleavedServer.
Import PayoutService PayoutServer.
Local Open Scope string_scope.

Variable isPublicKey : string -> bool.
Variable network : string.

Local Abbreviation step := (PayoutServer.step isPublicKey network).
Local Abbreviation run := (PayoutServer.run isPublicKey network).

Lemma taskOf_found :
  forall ts game t,
    taskOf ts game = Some t -> In game (gamesOf ts) /\ gameId (request t) = game.
Proof.
  intros ts game t H. unfold taskOf in H.
  apply find_some in H. destruct H as [I E].
  apply String.eqb_eq in E. split; [|exact E].
  unfold gamesOf. rewrite <- E. apply in_map with (f := fun t => gameId (request t)), I.
Qed.

Lemma gamesOf_dropTask :
  forall ts game game',
    In game' (gamesOf (dropTask ts game))
    <-> In game' (gamesOf ts) /\ game' <> game.
Proof.
  intros ts game game'. unfold gamesOf, dropTask.
  rewrite !in_map_iff. split.
  - intros (t & E & I). apply filter_In in I. destruct I as [I N].
    apply negb_true_iff, String.eqb_neq in N. subst game'.
    split; [exists t; auto | exact N].
  - intros ((t & E & I) & N). exists t. split; [exact E|].
    apply filter_In. split; [exact I|].
    apply negb_true_iff, String.eqb_neq. congruence.
Qed.

Lemma NoDup_gamesOf_dropTask :
  forall ts game, NoDup (gamesOf ts) -> NoDup (gamesOf (dropTask ts game)).
Proof.
  induction ts as [|t ts IH]; intros game H; cbn; [constructor|].
  inversion H as [|g gs N D]; subst.
  destruct (negb (gameId (request t) =? game)); cbn.
  - constructor; [|apply IH, D].
    intro I. apply gamesOf_dropTask in I. apply N, I.
  - apply IH, D.
Qed.

Lemma gamesOf_moveTask :
  forall ts game next, gamesOf (moveTask ts game next) = gamesOf ts.
Proof.
  intros ts game next. unfold gamesOf, moveTask. rewrite map_map.
  apply map_ext. intro t. destruct (gameId (request t) =? game); reflexivity.
Qed.

Lemma recorded_none :
  forall st game,
    recorded st game = None <-> ~ In game (map Rec.gameId (payoutHistory st)).
Proof.
  intros st game. unfold recorded. split.
  - intros H I. apply in_map_iff in I. destruct I as (p & E & I).
    apply (find_none _ _ H) in I. rewrite E, String.eqb_refl in I. discriminate.
  - intro H. destruct (find _ _) as [p|] eqn:F; [|reflexivity].
    apply find_some in F. destruct F as [I E]. apply String.eqb_eq in E.
    exfalso. apply H. rewrite <- E. apply in_map, I.
Qed.


Lemma NoDup_snoc :
  forall (A : Type) (l : list A) (a : A),
    NoDup l -> ~ In a l -> NoDup (l ++ [a]).
Proof.
  induction l as [|x l IH]; intros a D N; cbn.
  - constructor; [intros []|constructor].
  - inversion D as [|y ys Nx Dl]; subst. constructor.
    + rewrite in_app_iff. cbn. intros [I|[I|[]]]; [contradiction|].
      apply N. left. symmetry. exact I.
    + apply IH; [exact Dl|]. intro I. apply N. right. exact I.
Qed.

(** A request that answers leaves the stores consistent: its game is no
    longer pending, and the history is unchanged or has received the
    record of that game. *)
Lemma consistent_finish :
  forall node game st',
    consistent node ->
    (forall game', has (pendingPayouts st') game' = true
                   <-> has (pendingPayouts (server node)) game' = true
                       /\ game' <> game) ->
    (payoutHistory st' = payoutHistory (server node)
     \/ (recorded (server node) game = None
         /\ exists p, payoutHistory st' = (payoutHistory (server node) ++ [p])%list
                      /\ Rec.gameId p = game)) ->
    consistent {| server := st'; tasks := dropTask (tasks node) game |}.
Proof.
  intros node game st' (A & B & C & D) P H. unfold consistent. cbn [server tasks].
  split; [|split; [|split]].
  - intro g. rewrite P, A, gamesOf_dropTask. reflexivity.
  - apply NoDup_gamesOf_dropTask, B.
  - intros g I. apply gamesOf_dropTask in I. destruct I as [I N].
    specialize (C g I). unfold recorded in *.
    destruct H as [H|(_ & p & H & E)]; rewrite H; [exact C|].
    rewrite find_app_missing by exact C. cbn.
    rewrite E. destruct (game =? g) eqn:Q; [|reflexivity].
    apply String.eqb_eq in Q. congruence.
  - destruct H as [H|(R & p & H & E)]; rewrite H; [exact D|].
    rewrite map_app. cbn. rewrite E.
    apply NoDup_snoc; [exact D | apply recorded_none, R].
Qed.


Lemma consistent_suspend :
  forall node game next,
    consistent node ->
    consistent {| server := server node;
                  tasks := moveTask (tasks node) game next |}.
Proof.
  intros node game next (A & B & C & D). unfold consistent. cbn [server tasks].
  rewrite gamesOf_moveTask. auto.
Qed.

Lemma consistent_arrive :
  forall node req,
    consistent node ->
    has (pendingPayouts (server node)) (gameId req) = false ->
    recorded (server node) (gameId req) = None ->
    consistent
      {| server := withPending (server node)
                     (set (pendingPayouts (server node)) (gameId req));
         tasks := (tasks node ++ [{| request := req; stage := awaitsBalance |}])%list |}.
Proof.
  intros node req (A & B & C & D) P R. unfold consistent.
  cbn [server tasks withPending pendingPayouts payoutHistory].
  unfold gamesOf. rewrite map_app. cbn [map request]. fold (gamesOf (tasks node)).
  split; [|split; [|split]].
  - intro g. rewrite has_true, In_set, in_app_iff, <- A, has_true. cbn.
    split.
    + intros [H|H]; [left; exact H | right; left; symmetry; exact H].
    + intros [H|[H|[]]]; [left; exact H | right; symmetry; exact H].
  - apply NoDup_snoc; [exact B|]. intro I. apply A in I. congruence.
  - intros g I. unfold recorded in *. cbn [withPending payoutHistory].
    apply in_app_iff in I. destruct I as [I|[<-|[]]]; auto.
  - exact D.
Qed.


Lemma has_delete :
  forall m game game',
    has (delete m game) game' = true <-> has m game' = true /\ game' <> game.
Proof.
  intros m game game'. rewrite !has_true, In_delete.
  split; intros [H N]; split; auto.
Qed.

(** Every move of the server keeps the stores consistent. *)
Lemma step_consistent :
  forall node input node' res calls,
    consistent node ->
    step node input = (node', res, calls) ->
    consistent node'.
Proof.
  intros node input node' res calls I H.
  assert (Caught : forall st0 req message cs game,
            pendingPayouts st0 = pendingPayouts (server node)
            \/ (pendingPayouts st0
                = set (pendingPayouts (server node)) game
                /\ has (pendingPayouts (server node)) game = false) ->
            payoutHistory st0 = payoutHistory (server node) ->
            gameId req = game ->
            finish node game (caught st0 req message cs) = (node', res, calls) ->
            consistent node').
  { intros st0 req message cs game HP HH G E.
    unfold finish, caught in E. injection E as <- _ _.
    apply consistent_finish; [exact I| |left; cbn; exact HH].
    intro g. cbn [pendingPayouts withPending]. rewrite G, has_delete.
    destruct HP as [->|[-> P]]; [reflexivity|].
    rewrite !has_true, In_set. split.
    - intros [[K|K] N]; [auto | contradiction].
    - intros [K N]. auto. }
  destruct input as [req|game reply|game reply|game reply|game reply clock];
    cbn [PayoutServer.step] in H.
  - (* a request arrives *)
    destruct (negb (Js.truthy (playerWallet req)) || _ || _);
      [injection H as <- _ _; exact I|].
    destruct (houseKeypair (server node)) as [house|];
      [|injection H as <- _ _; exact I].
    destruct (has (pendingPayouts (server node)) (gameId req)) eqn:P;
      [injection H as <- _ _; exact I|].
    fold (recorded (server node) (gameId req)) in H.
    destruct (recorded (server node) (gameId req)) eqn:R;
      [injection H as <- _ _; exact I|].
    destruct (negb (isPublicKey (playerWallet req))).
    + refine (Caught _ _ _ _ _ _ _ _ H);
        [right; split; [reflexivity | exact P] | reflexivity | reflexivity].
    + injection H as <- _ _. apply consistent_arrive; assumption.
  - (* the balance is known *)
    destruct (taskOf (tasks node) game) as [[req [| | |]]|] eqn:T;
      try (injection H as <- _ _; exact I).
    destruct (taskOf_found _ _ _ T) as [In_g G]. cbn [request] in G.
    destruct reply as [houseBalance|message].
    + destruct (Double.ltb _ _).
      * unfold finish in H. injection H as <- _ _.
        apply consistent_finish; [exact I| |left; reflexivity].
        intro g. cbn [pendingPayouts withPending]. rewrite G. apply has_delete.
      * unfold suspend in H. injection H as <- _ _.
        apply consistent_suspend, I.
    + refine (Caught _ _ _ _ _ _ _ _ H); [left; reflexivity | reflexivity | exact G].
  - (* the blockhash is known *)
    destruct (taskOf (tasks node) game) as [[req [| | |]]|] eqn:T;
      try (injection H as <- _ _; exact I).
    destruct (taskOf_found _ _ _ T) as [In_g G]. cbn [request] in G.
    destruct reply as [[recentBlockhash lastValid]|message].
    + unfold suspend in H. injection H as <- _ _.
      apply consistent_suspend, I.
    + refine (Caught _ _ _ _ _ _ _ _ H); [left; reflexivity | reflexivity | exact G].
  - (* the transfer was sent *)
    destruct (taskOf (tasks node) game) as [[req [| |bh|]]|] eqn:T;
      try (injection H as <- _ _; exact I).
    destruct (taskOf_found _ _ _ T) as [In_g G]. cbn [request] in G.
    destruct reply as [signature|message].
    + unfold suspend in H. injection H as <- _ _.
      apply consistent_suspend, I.
    + refine (Caught _ _ _ _ _ _ _ _ H); [left; reflexivity | reflexivity | exact G].
  - (* the confirmation is known *)
    destruct (taskOf (tasks node) game) as [[req [| | |bh signature]]|] eqn:T;
      try (injection H as <- _ _; exact I).
    destruct (taskOf_found _ _ _ T) as [In_g G]. cbn [request] in G.
    destruct reply as [[|]|message];
      try (refine (Caught _ _ _ _ _ _ _ _ H); [left; reflexivity | reflexivity | exact G]).
    unfold finish in H. injection H as <- _ _.
    apply consistent_finish; [exact I| |].
    + intro g. cbn [pendingPayouts]. rewrite G. apply has_delete.
    + right. split.
      * destruct I as (_ & _ & C & _). apply C, In_g.
      * eexists. split; [reflexivity|]. exact G.
Qed.


Lemma run_consistent :
  forall inputs node node' ress calls,
    consistent node ->
    run node inputs = (node', ress, calls) ->
    consistent node'.
Proof.
  induction inputs as [|input inputs IH]; intros node node' ress calls I H;
    cbn [PayoutServer.run] in H.
  - injection H as <- _ _. exact I.
  - destruct (step node input) as [[node1 res] calls1] eqn:E1.
    destruct (run node1 inputs) as [[node2 ress2] calls2] eqn:E2.
    injection H as <- _ _.
    eapply IH; [|exact E2]. eapply step_consistent; eauto.
Qed.

(** No move of the server removes or replaces the record of a game, or
    changes the house wallet. *)
Lemma step_keeps_record :
  forall node input node' res calls game p,
    step node input = (node', res, calls) ->
    recorded (server node) game = Some p ->
    recorded (server node') game = Some p
    /\ houseKeypair (server node') = houseKeypair (server node).
Proof.
  intros node input node' res calls game p H R.
  assert (Caught : forall st0 req message cs g,
            payoutHistory st0 = payoutHistory (server node) ->
            houseKeypair st0 = houseKeypair (server node) ->
            finish node g (caught st0 req message cs) = (node', res, calls) ->
            recorded (server node') game = Some p
            /\ houseKeypair (server node') = houseKeypair (server node)).
  { intros st0 req message cs g HH HK E.
    unfold finish, caught in E. injection E as <- _ _.
    unfold recorded in *. cbn. rewrite HH, HK. auto. }
  destruct input as [req|g reply|g reply|g reply|g reply clock];
    cbn [PayoutServer.step] in H.
  - destruct (negb (Js.truthy (playerWallet req)) || _ || _);
      [injection H as <- _ _; auto|].
    destruct (houseKeypair (server node)) as [house|] eqn:K;
      [|injection H as <- _ _; auto].
    destruct (has (pendingPayouts (server node)) (gameId req));
      [injection H as <- _ _; auto|].
    destruct (find _ _); [injection H as <- _ _; auto|].
    destruct (negb (isPublicKey (playerWallet req))).
    + refine (Caught _ _ _ _ _ _ _ H); [reflexivity | exact K].
    + injection H as <- _ _. cbn. auto.
  - destruct (taskOf (tasks node) g) as [[req [| | |]]|];
      try (injection H as <- _ _; auto; fail).
    destruct reply as [houseBalance|message].
    + destruct (Double.ltb _ _).
      * unfold finish in H. injection H as <- _ _. cbn. auto.
      * unfold suspend in H. injection H as <- _ _. cbn. auto.
    + refine (Caught _ _ _ _ _ _ _ H); reflexivity.
  - destruct (taskOf (tasks node) g) as [[req [| | |]]|];
      try (injection H as <- _ _; auto; fail).
    destruct reply as [[recentBlockhash lastValid]|message].
    + unfold suspend in H. injection H as <- _ _. cbn. auto.
    + refine (Caught _ _ _ _ _ _ _ H); reflexivity.
  - destruct (taskOf (tasks node) g) as [[req [| |bh|]]|];
      try (injection H as <- _ _; auto; fail).
    destruct reply as [signature|message].
    + unfold suspend in H. injection H as <- _ _. cbn. auto.
    + refine (Caught _ _ _ _ _ _ _ H); reflexivity.
  - destruct (taskOf (tasks node) g) as [[req [| | |bh signature]]|];
      try (injection H as <- _ _; auto; fail).
    destruct reply as [[|]|message];
      try (refine (Caught _ _ _ _ _ _ _ H); reflexivity).
    unfold finish in H. injection H as <- _ _.
    unfold recorded in *. cbn [server payoutHistory houseKeypair].
    split; [|reflexivity]. apply find_app_found, R.
Qed.

Lemma run_keeps_record :
  forall inputs node node' ress calls game p,
    run node inputs = (node', ress, calls) ->
    recorded (server node) game = Some p ->
    recorded (server node') game = Some p
    /\ houseKeypair (server node') = houseKeypair (server node).
Proof.
  induction inputs as [|input inputs IH]; intros node node' ress calls game p H R;
    cbn [PayoutServer.run] in H.
  - injection H as <- _ _. auto.
  - destruct (step node input) as [[node1 res] calls1] eqn:E1.
    destruct (run node1 inputs) as [[node2 ress2] calls2] eqn:E2.
    injection H as <- _ _.
    destruct (step_keeps_record _ _ _ _ _ _ _ E1 R) as [R1 K1].
    destruct (IH _ _ _ _ _ _ E2 R1) as [R2 K2].
    split; [exact R2 | congruence].
Qed.

(** X2. Under any schedule, a game with a record is not pending, so that
    a request for it is answered from the record at once: the same
    answer each time, no call, no change. *)
Lemma recorded_game_answered_from_record :
  forall node inputs node' ress calls req p house,
    consistent node ->
    houseKeypair (server node) = Some house ->
    recorded (server node) (gameId req) = Some p ->
    wellFormed req = true ->
    run node inputs = (node', ress, calls) ->
    step node' (arrives req) = (node', Some (cached (Rec.signature p)), []).
Proof.
  intros node inputs node' ress calls req p house I K R W H.
  pose proof (run_consistent _ _ _ _ _ I H) as (A & _ & C & _).
  destruct (run_keeps_record _ _ _ _ _ _ _ H R) as [R' K'].
  assert (P : has (pendingPayouts (server node')) (gameId req) = false).
  { destruct (has _ _) eqn:E; [|reflexivity].
    apply A, C in E. congruence. }
  cbn [PayoutServer.step]. rewrite wellFormed_guard, W, K', K, P.
  fold (recorded (server node') (gameId req)). rewrite R'. reflexivity.
Qed.


(** Unfold a schedule on a node whose moves are decided. *)
Ltac play :=
  repeat (cbn [PayoutServer.run PayoutServer.step server tasks taskOf dropTask
               moveTask find filter map app finish suspend idle caught
               request stage negb withPending pendingPayouts payoutHistory
               houseKeypair];
          rewrite ?String.eqb_refl).

(** Served without interruption, a request does what [payout] says: the
    same final stores, the same answer, the same calls in the same
    order. *)
Lemma uninterrupted_is_payout :
  forall st req rpc st' res calls,
    PayoutServer.payout isPublicKey network st req rpc = (st', res, calls) ->
    run {| server := st; tasks := [] |} (uninterrupted req rpc)
    = ({| server := st'; tasks := [] |}, [res], calls).
Proof.
  intros st req rpc st' res calls H.
  unfold PayoutServer.payout in H. unfold uninterrupted.
  cbn [PayoutServer.run PayoutServer.step server].
  destruct (negb (Js.truthy (playerWallet req)) || _ || _);
    [injection H as <- <- <-; play; reflexivity|].
  destruct (houseKeypair st) as [house|];
    [|injection H as <- <- <-; play; reflexivity].
  destruct (has (pendingPayouts st) (gameId req));
    [injection H as <- <- <-; play; reflexivity|].
  destruct (find _ (payoutHistory st));
    [injection H as <- <- <-; play; reflexivity|].
  unfold attempt, caught in H.
  destruct (isPublicKey (playerWallet req)); cbn [negb] in H |- *;
    [|injection H as <- <- <-; play; reflexivity].
  play.
  destruct (getBalance rpc) as [houseBalance|message];
    [|injection H as <- <- <-; play; reflexivity].
  destruct (Double.ltb _ _);
    [injection H as <- <- <-; play; reflexivity|].
  play.
  destruct (getLatestBlockhash rpc) as [[recentBlockhash lastValid]|message];
    [|injection H as <- <- <-; play; reflexivity].
  play.
  destruct (sendRawTransaction rpc) as [signature|message];
    [|injection H as <- <- <-; play; reflexivity].
  play.
  destruct (confirmTransaction rpc) as [[|]|message];
    injection H as <- <- <-; play; reflexivity.
Qed.


Lemma fresh_consistent :
  forall st,
    pendingPayouts st = [] ->
    NoDup (map Rec.gameId (payoutHistory st)) ->
    consistent {| server := st; tasks := [] |}.
Proof.
  intros st P D. unfold consistent. cbn [server tasks gamesOf map].
  rewrite P. split; [|split; [|split]].
  - intro game. cbn. split; [discriminate | intros []].
  - constructor.
  - intros game [].
  - exact D.
Qed.

(** X1. Under any schedule of requests and replies, a server that
    starts with nothing pending never holds two records for one game. *)
Lemma one_record_per_game :
  forall st inputs node ress calls,
    pendingPayouts st = [] ->
    NoDup (map Rec.gameId (payoutHistory st)) ->
    run {| server := st; tasks := [] |} inputs = (node, ress, calls) ->
    NoDup (map Rec.gameId (payoutHistory (server node))).
Proof.
  intros st inputs node ress calls P D H.
  pose proof (run_consistent _ _ _ _ _ (fresh_consistent st P D) H)
    as (_ & _ & _ & N).
  exact N.
Qed.

End InterleavedServer.

(** ** Wager flows: escrow, seed, outcome *)

Section WagerFlows.
Import Js Flow ProvablyFair.
Local Open Scope string_scope.

(** The outcome of the fairness function by cases on the connection. *)
Lemma generate_cases :
  forall connection winChance userSeed,
    (generateProvablyFairResult connection winChance userSeed = ([], None))
    \/ exists blockhash slot,
         getLatestBlockhash connection = Some blockhash
         /\ getSlot connection = Some slot
         /\ generateProvablyFairResult connection winChance userSeed
            = ([Digest (combinedSeed blockhash slot userSeed)],
               Some {| result :=
                         if Qltb (randomPercent (firstByte
                              (sha256 (combinedSeed blockhash slot userSeed))))
                              winChance
                         then heads else tails;
                       won := Qltb (randomPercent (firstByte
                              (sha256 (combinedSeed blockhash slot userSeed))))
                              winChance;
                       fairBlockhash := blockhash;
                       fairSlot := slot;
                       seed := combinedSeed blockhash slot userSeed |}).
Proof.
  intros connection winChance userSeed.
  unfold generateProvablyFairResult.
  destruct (getLatestBlockhash connection) as [blockhash|]; [|left; reflexivity].
  destruct (getSlot connection) as [slot|]; [|left; reflexivity].
  right. exists blockhash, slot. repeat split.
Qed.

Lemma no_digest_follows :
  forall t, existsb isDigest t = false -> digestsFollowConfirmation t.
Proof.
  intros t H pre seed post E. subst t.
  rewrite existsb_app in H. cbn in H.
  rewrite orb_true_r in H. discriminate.
Qed.

Lemma confirmed_prefix_follows :
  forall lamports betSignature rest,
    digestsFollowConfirmation
      (BetSubmitted lamports betSignature
       :: BetConfirmation betSignature false :: rest).
Proof.
  intros lamports betSignature rest pre seed post E.
  destruct pre as [|e1 [|e2 pre]]; cbn in E; try discriminate.
  injection E as E1 E2 _. subst e1 e2.
  exists lamports, betSignature. cbn. auto.
Qed.

(** The shape of a coin-flip trace. *)
Lemma flipCoin_trace :
  forall chain publicKey amount balance side,
    let t := trace (CoinFlip.flipCoin chain publicKey amount balance side) in
    (existsb isDigest t = false /\ seedsOf t = [])
    \/ exists lamports betSignature blockhash slot rest,
         getLatestBlockhash (fairConnection chain) = Some blockhash
         /\ getSlot (fairConnection chain) = Some slot
         /\ t = BetSubmitted lamports betSignature
                :: BetConfirmation betSignature false :: rest
         /\ seedsOf t = [combinedSeed blockhash slot (Some publicKey)].
Proof.
  intros chain publicKey amount balance side. cbv zeta.
  unfold CoinFlip.flipCoin.
  destruct (negb (CoinFlip.validateBet amount balance)); [left; split; reflexivity|].
  destruct (betBlockhash chain); [|left; split; reflexivity].
  destruct (sendTransaction chain) as [sig|]; [|left; split; reflexivity].
  destruct (confirmTransaction chain) as [[|]|]; try (left; split; reflexivity).
  destruct (generate_cases (fairConnection chain) 50 (Some publicKey))
    as [E|(blockhash & slot & B & S & E)]; rewrite E.
  - left; split; reflexivity.
  - right. exists (solToLamports amount), sig, blockhash, slot.
    cbn -[Qmult CoinFlip.winMultiplier].
    destruct (Qltb _ 50); cbn -[Qmult CoinFlip.winMultiplier];
      eexists; repeat split; eauto.
Qed.

(** The shape of a dice trace. *)
Lemma rollDice_trace :
  forall chain publicKey amount balance target rollOver,
    let t := trace (Dice.rollDice chain publicKey amount balance target rollOver) in
    (existsb isDigest t = false /\ seedsOf t = [])
    \/ exists lamports betSignature blockhash slot rest,
         getLatestBlockhash (fairConnection chain) = Some blockhash
         /\ getSlot (fairConnection chain) = Some slot
         /\ t = BetSubmitted lamports betSignature
                :: BetConfirmation betSignature false :: rest
         /\ seedsOf t
            = [combinedSeed blockhash slot (Some publicKey);
               blockhash ++ "-" ++ numberToString slot ++ "-" ++ publicKey
               ++ "-dice"].
Proof.
  intros chain publicKey amount balance target rollOver. cbv zeta.
  unfold Dice.rollDice.
  destruct (negb (Dice.validateBet amount balance)); [left; split; reflexivity|].
  destruct (betBlockhash chain); [|left; split; reflexivity].
  destruct (sendTransaction chain) as [sig|]; [|left; split; reflexivity].
  destruct (confirmTransaction chain) as [[|]|]; try (left; split; reflexivity).
  destruct (generate_cases (fairConnection chain)
              (inject_Z (Dice.winChance rollOver target)) (Some publicKey))
    as [E|(blockhash & slot & B & S & E)]; rewrite E.
  - left; split; reflexivity.
  - right. exists (solToLamports amount), sig, blockhash, slot.
    cbn -[Qmult Dice.multiplier Dice.wins Dice.rollOf String.append].
    destruct (Dice.wins _ _ _);
      cbn -[Qmult Dice.multiplier Dice.wins Dice.rollOf String.append];
      eexists; repeat split; eauto.
Qed.

End WagerFlows.

(** C2, as stated, fails: the seed does not contain the escrow reference
    or any value of the wager's own.  Two dice wagers of one player with
    different bet signatures, placed at different times, that are
    resolved under the same blockhash and slot hash exactly the same two
    seeds, made of blockhash, slot and public key only. *)
Lemma seed_omits_escrow_reference :
  sendTransaction (wager firstBet 1700000000000 5)
    <> sendTransaction (wager secondBet 1700000000400 5)
  /\ seedsOf (Flow.trace (Dice.rollDice (wager firstBet 1700000000000 5)
                            player 1 100 50 true))
     = seedsOf (Flow.trace (Dice.rollDice (wager secondBet 1700000000400 5)
                              player 1 100 50 true))
  /\ seedsOf (Flow.trace (Dice.rollDice (wager firstBet 1700000000000 5)
                            player 1 100 50 true))
     = ["9sHcv6xwn9YkB8nxTUGKDwPwNnmqVp5oAXxU8Fdkm4J6-5-7xKXtg2CW87d97TXJSDpbD5jBkheTqA83TZRuJosgAsU";
        "9sHcv6xwn9YkB8nxTUGKDwPwNnmqVp5oAXxU8Fdkm4J6-5-7xKXtg2CW87d97TXJSDpbD5jBkheTqA83TZRuJosgAsU-dice"]%string.
Proof.
  split; [discriminate|]. split; vm_compute; reflexivity.
Qed.

(** C2, amended.  For every coin-flip and dice wager, each digest is
    computed after the wager's own bet transfer was submitted and
    confirmed without error; the seed material is the blockhash and the
    slot that the connection reports at that point, joined with the
    player's public key, and for the dice roll the same with the suffix
    [-dice]. *)
Theorem seed_follows_escrow_confirmation :
  forall chain publicKey amount balance side target rollOver,
    digestsFollowConfirmation
      (Flow.trace (CoinFlip.flipCoin chain publicKey amount balance side))
    /\ digestsFollowConfirmation
         (Flow.trace (Dice.rollDice chain publicKey amount balance target rollOver))
    /\ (seedsOf (Flow.trace (CoinFlip.flipCoin chain publicKey amount balance side)) = []
        \/ exists blockhash slot,
             ProvablyFair.getLatestBlockhash (fairConnection chain) = Some blockhash
             /\ ProvablyFair.getSlot (fairConnection chain) = Some slot
             /\ seedsOf (Flow.trace (CoinFlip.flipCoin chain publicKey amount balance side))
                = [ProvablyFair.combinedSeed blockhash slot (Some publicKey)])
    /\ (seedsOf (Flow.trace (Dice.rollDice chain publicKey amount balance
                               target rollOver)) = []
        \/ exists blockhash slot,
             ProvablyFair.getLatestBlockhash (fairConnection chain) = Some blockhash
             /\ ProvablyFair.getSlot (fairConnection chain) = Some slot
             /\ seedsOf (Flow.trace (Dice.rollDice chain publicKey amount balance
                                       target rollOver))
                = [ProvablyFair.combinedSeed blockhash slot (Some publicKey);
                   (blockhash ++ "-" ++ Js.numberToString slot ++ "-"
                    ++ publicKey ++ "-dice")%string]).
Proof.
  intros chain publicKey amount balance side target rollOver.
  pose proof (flipCoin_trace chain publicKey amount balance side) as C.
  pose proof (rollDice_trace chain publicKey amount balance target rollOver) as D.
  cbv zeta in C, D.
  split; [|split; [|split]].
  - destruct C as [(N & _)|(l & sg & bh & sl & rest & _ & _ & E & _)].
    + apply no_digest_follows, N.
    + rewrite E. apply confirmed_prefix_follows.
  - destruct D as [(N & _)|(l & sg & bh & sl & rest & _ & _ & E & _)].
    + apply no_digest_follows, N.
    + rewrite E. apply confirmed_prefix_follows.
  - destruct C as [(_ & S)|(l & sg & bh & sl & rest & B & S & _ & E)].
    + left. exact S.
    + right. exists bh, sl. auto.
  - destruct D as [(_ & S)|(l & sg & bh & sl & rest & B & S & _ & E)].
    + left. exact S.
    + right. exists bh, sl. auto.
Qed.

(** ** Win rule and multiplier of coin flip and dice *)

Section WinRule.
Import Js Flow ProvablyFair.
Local Open Scope string_scope.

(** What a completed coin flip recorded. *)
Lemma flipCoin_round :
  forall chain publicKey amount balance side t r,
    CoinFlip.flipCoin chain publicKey amount balance side = (t, Some r) ->
    CoinFlip.didWin r = won (CoinFlip.fair r)
    /\ won (CoinFlip.fair r)
       = Qltb (randomPercent (firstByte (sha256 (seed (CoinFlip.fair r))))) 50
    /\ CoinFlip.coinResult r
       = (if CoinFlip.didWin r then side else CoinFlip.opposite side)
    /\ CoinFlip.payout r
       = (if CoinFlip.didWin r then amount * CoinFlip.winMultiplier else 0).
Proof.
  intros chain publicKey amount balance side t r H.
  unfold CoinFlip.flipCoin in H.
  destruct (negb (CoinFlip.validateBet amount balance)); [discriminate|].
  destruct (betBlockhash chain); [|discriminate].
  destruct (sendTransaction chain) as [sig|]; [|discriminate].
  destruct (confirmTransaction chain) as [[|]|]; try discriminate.
  destruct (generate_cases (fairConnection chain) 50 (Some publicKey))
    as [E|(blockhash & slot & B & S & E)]; rewrite E in H; [discriminate|].
  cbn -[Qmult CoinFlip.winMultiplier] in H.
  destruct (Qltb _ 50) eqn:W; cbn -[Qmult CoinFlip.winMultiplier] in H;
    injection H as _ <-; cbn -[Qmult CoinFlip.winMultiplier];
    rewrite W; repeat split.
Qed.

(** What a completed dice round recorded. *)
Lemma rollDice_round :
  forall chain publicKey amount balance target rollOver t r,
    Dice.rollDice chain publicKey amount balance target rollOver = (t, Some r) ->
    won (Dice.fair r)
    = Qltb (randomPercent (firstByte (sha256 (seed (Dice.fair r)))))
        (inject_Z (Dice.winChance rollOver target))
    /\ Dice.rollResult r
       = Dice.rollOf (firstByte (sha256
           (fairBlockhash (Dice.fair r) ++ "-"
            ++ numberToString (fairSlot (Dice.fair r)) ++ "-"
            ++ publicKey ++ "-dice")))
    /\ Dice.didWin r = Dice.wins rollOver target (Dice.rollResult r)
    /\ Dice.payout r
       = (if Dice.didWin r then amount * Dice.multiplier rollOver target else 0).
Proof.
  intros chain publicKey amount balance target rollOver t r H.
  unfold Dice.rollDice in H.
  destruct (negb (Dice.validateBet amount balance)); [discriminate|].
  destruct (betBlockhash chain); [|discriminate].
  destruct (sendTransaction chain) as [sig|]; [|discriminate].
  destruct (confirmTransaction chain) as [[|]|]; try discriminate.
  destruct (generate_cases (fairConnection chain)
              (inject_Z (Dice.winChance rollOver target)) (Some publicKey))
    as [E|(blockhash & slot & B & S & E)]; rewrite E in H; [discriminate|].
  cbn -[Qmult Dice.multiplier Dice.wins Dice.rollOf String.append] in H.
  destruct (Dice.wins _ _ _) eqn:W;
    cbn -[Qmult Dice.multiplier Dice.wins Dice.rollOf String.append] in H;
    injection H as _ <-;
    (split; [reflexivity|]); (split; [reflexivity|]);
    (split; [symmetry; exact W | reflexivity]).
Qed.

(** The roll of a completed dice round: the first byte of the digest of
    the blockhash and the slot the fairness function read, the player's
    key and the suffix [-dice]. *)
Lemma rollDice_roll :
  forall chain publicKey amount balance target rollOver t r,
    Dice.rollDice chain publicKey amount balance target rollOver = (t, Some r) ->
    exists blockhash slot,
      getLatestBlockhash (fairConnection chain) = Some blockhash
      /\ getSlot (fairConnection chain) = Some slot
      /\ Dice.rollResult r
         = Dice.rollOf (firstByte (sha256
             (blockhash ++ "-" ++ numberToString slot ++ "-"
              ++ publicKey ++ "-dice"))).
Proof.
  intros chain publicKey amount balance target rollOver t r H.
  unfold Dice.rollDice in H.
  destruct (negb (Dice.validateBet amount balance)); [discriminate|].
  destruct (betBlockhash chain); [|discriminate].
  destruct (sendTransaction chain) as [sig|]; [|discriminate].
  destruct (confirmTransaction chain) as [[|]|]; try discriminate.
  destruct (generate_cases (fairConnection chain)
              (inject_Z (Dice.winChance rollOver target)) (Some publicKey))
    as [E|(blockhash & slot & B & S & E)]; rewrite E in H; [discriminate|].
  exists blockhash, slot. split; [exact B|]. split; [exact S|].
  cbn -[Qmult Dice.multiplier Dice.wins Dice.rollOf String.append] in H.
  destruct (Dice.wins _ _ _);
    cbn -[Qmult Dice.multiplier Dice.wins Dice.rollOf String.append] in H;
    injection H as _ <-; reflexivity.
Qed.

Lemma wins_spec :
  forall rollOver target rollResult,
    Dice.wins rollOver target rollResult = true
    <-> (if rollOver then (rollResult > target)%Z else (rollResult < target)%Z).
Proof.
  intros [|] target rollResult; unfold Dice.wins.
  - rewrite Z.gtb_ltb, Z.ltb_lt. lia.
  - apply Z.ltb_lt.
Qed.

(** The dice multiplier is [(1 - HOUSE_EDGE)] over the win chance as a
    fraction. *)
Lemma multiplier_formula :
  forall rollOver target,
    (0 < Dice.winChance rollOver target)%Z ->
    Dice.multiplier rollOver target
    == (1 - Dice.HOUSE_EDGE) / (inject_Z (Dice.winChance rollOver target) / 100).
Proof.
  intros rollOver target H. unfold Dice.multiplier.
  assert (N : ~ inject_Z (Dice.winChance rollOver target) == 0).
  { intro E. unfold Qeq in E. cbn in E. lia. }
  field. exact N.
Qed.

(** The roll is a number from 1 to 100. *)
Lemma rollOf_range :
  forall byte, isByte byte -> (1 <= Dice.rollOf byte <= 100)%Z.
Proof.
  intros byte [L U]. unfold Dice.rollOf.
  assert (A : 0 <= (inject_Z byte / 255) * 99).
  { unfold Qle, Qdiv, Qmult, Qinv, inject_Z. simpl. lia. }
  assert (B : (inject_Z byte / 255) * 99 <= 99).
  { unfold Qle, Qdiv, Qmult, Qinv, inject_Z. simpl. lia. }
  apply Qfloor_resp_le in A. apply Qfloor_resp_le in B.
  change (Qfloor 0) with 0%Z in A. change (Qfloor 99) with 99%Z in B. lia.
Qed.

End WinRule.




(** ** Slots *)

Lemma three_sevens : Slots.getRandomSymbol 0 = Slots.seven.
Proof. reflexivity. Qed.

Lemma calculateWin_three_sevens :
  forall jackpot betAmt,
    Slots.calculateWin jackpot (Slots.seven, Slots.seven, Slots.seven) betAmt
    = {| Slots.amount := jackpot; Slots.type := Slots.typeJackpot |}.
Proof. reflexivity. Qed.

(** What a completed spin did to the jackpot: the state received 2% of
    the stake; on three sevens (with a positive jackpot) the win is the
    jackpot as the spin started with it, the state is reset to the
    initial jackpot, and the amount paid is below the state the jackpot
    had reached. *)
Lemma spin_jackpot :
  forall chain publicKey jackpot amount balance random1 random2 random3 t r,
    Slots.spin chain publicKey jackpot amount balance random1 random2 random3
    = (t, Some r) ->
    Slots.poolAtResult r = jackpot + amount * Slots.JACKPOT_CONTRIBUTION
    /\ (Slots.finalReels r = (Slots.seven, Slots.seven, Slots.seven) ->
        0 < jackpot ->
        Slots.amount (Slots.result r) = jackpot
        /\ Slots.jackpotAfter r = Slots.INITIAL_JACKPOT
        /\ Slots.amount (Slots.result r) < Slots.poolAtResult r).
Proof.
  intros chain publicKey jackpot amount balance random1 random2 random3 t r H.
  unfold Slots.spin in H.
  destruct (Js.Qltb amount Slots.MIN_BET) eqn:Min; [discriminate|].
  destruct (Js.Qltb Slots.MAX_BET amount); [discriminate|].
  destruct (Js.Qltb balance amount); [discriminate|].
  destruct (betBlockhash chain); [|discriminate].
  destruct (sendTransaction chain) as [sig|]; [|discriminate].
  destruct (confirmTransaction chain) as [err|]; [|discriminate].
  assert (Pos : 0 < amount * Slots.JACKPOT_CONTRIBUTION).
  { apply Qltb_ge in Min.
    apply Qmult_lt_0_compat; [|reflexivity].
    apply Qlt_le_trans with Slots.MIN_BET; [reflexivity | exact Min]. }
  remember (Slots.getRandomSymbol random1, Slots.getRandomSymbol random2,
            Slots.getRandomSymbol random3) as reels eqn:Ereels.
  remember (Slots.calculateWin jackpot reels amount) as win eqn:Ewin.
  remember (amount * Slots.JACKPOT_CONTRIBUTION) as c eqn:Ec.
  cbv beta iota zeta delta [Flow.bind Flow.await Flow.emit Flow.ret] in H.
  destruct (Js.Qltb 0 (Slots.amount win)) eqn:W; cbv beta iota in H;
    injection H as _ <-;
    cbn [Slots.poolAtResult Slots.finalReels Slots.result Slots.jackpotAfter];
    (split; [reflexivity|]); intros R J;
    rewrite R, calculateWin_three_sevens in Ewin; subst win;
    cbn [Slots.amount Slots.type Slots.includesJACKPOT] in *.
  - repeat split. lra.
  - apply Qltb_lt in J. congruence.
Qed.

(** C7, at the failing input.  With the jackpot at 5000 and a stake of
    1, a spin that lands on three sevens raises the pool to 5000.02 and
    resets it to 5000, but pays 5000: the contribution of the stake is
    not part of the amount paid. *)
Theorem slots_jackpot_pays_stale_pool :
  exists r,
    Flow.value (Slots.spin (wager firstBet 1700000000000 5) player
                  5000 1 100 0 0 0) = Some r
    /\ Slots.finalReels r = (Slots.seven, Slots.seven, Slots.seven)
    /\ Slots.poolAtResult r == 5000 + 2 / 100
    /\ Slots.amount (Slots.result r) == 5000
    /\ Slots.jackpotAfter r == Slots.INITIAL_JACKPOT
    /\ Slots.amount (Slots.result r) < Slots.poolAtResult r.
Proof.
  eexists. split; [vm_compute; reflexivity|].
  repeat split.
Qed.

(* ================================================================== *)
(** * Further properties of the code                                   *)
(* ================================================================== *)

Lemma Qle_bool_false_lt :
  forall x y : Q, Qle_bool x y = false -> y < x.
Proof.
  intros x y H. apply Qnot_le_lt. intro L.
  apply Qle_bool_iff in L. congruence.
Qed.

(** ** The payout server under any schedule, and its other routes *)

Section ServerSchedules.
Import PayoutService PayoutServer ServerRoutes.
Local Open Scope string_scope.

Variable isPublicKey : string -> bool.
Variable network : string.

Local Abbreviation payout := (PayoutServer.payout isPublicKey network).
Local Abbreviation step := (PayoutServer.step isPublicKey network).
Local Abbreviation run := (PayoutServer.run isPublicKey network).

(** A move of the server leaves the history as it is or adds one record
    at its end, the latter only on a confirmation without error; the
    house wallet stays. *)
Lemma step_history_grows :
  forall node input node' res calls,
    step node input = (node', res, calls) ->
    houseKeypair (server node') = houseKeypair (server node)
    /\ exists more,
         payoutHistory (server node')
         = (payoutHistory (server node) ++ more)%list
         /\ (List.length more <= confirmations [input])%nat.
Proof.
  intros node input node' res calls H.
  assert (Same : forall n : Node,
            houseKeypair (server n) = houseKeypair (server node) ->
            payoutHistory (server n) = payoutHistory (server node) ->
            houseKeypair (server n) = houseKeypair (server node)
            /\ exists more,
                 payoutHistory (server n)
                 = (payoutHistory (server node) ++ more)%list
                 /\ (List.length more <= confirmations [input])%nat).
  { intros n HK HH. split; [exact HK|]. exists []. rewrite app_nil_r.
    split; [exact HH | apply Nat.le_0_l]. }
  assert (Caught : forall st0 req message cs g,
            payoutHistory st0 = payoutHistory (server node) ->
            houseKeypair st0 = houseKeypair (server node) ->
            finish node g (caught st0 req message cs) = (node', res, calls) ->
            houseKeypair (server node') = houseKeypair (server node)
            /\ exists more,
                 payoutHistory (server node')
                 = (payoutHistory (server node) ++ more)%list
                 /\ (List.length more <= confirmations [input])%nat).
  { intros st0 req message cs g HH HK E.
    unfold finish, caught in E. injection E as <- _ _.
    apply Same; cbn; assumption. }
  destruct input as [req|g reply|g reply|g reply|g reply clock];
    cbn [PayoutServer.step] in H.
  - destruct (negb (Js.truthy (playerWallet req)) || _ || _);
      [injection H as <- _ _; auto|].
    destruct (houseKeypair (server node)) as [house|] eqn:K;
      [|injection H as <- _ _; apply Same; auto].
    destruct (has (pendingPayouts (server node)) (gameId req));
      [injection H as <- _ _; apply Same; auto|].
    destruct (find _ _); [injection H as <- _ _; apply Same; auto|].
    destruct (negb (isPublicKey (playerWallet req))).
    + refine (Caught _ _ _ _ _ _ _ H); [reflexivity | exact K].
    + injection H as <- _ _. apply Same; cbn; auto.
  - destruct (taskOf (tasks node) g) as [[req [| | |]]|];
      try (injection H as <- _ _; auto; fail).
    destruct reply as [houseBalance|message].
    + destruct (Double.ltb _ _).
      * unfold finish in H. injection H as <- _ _. apply Same; reflexivity.
      * unfold suspend in H. injection H as <- _ _. apply Same; reflexivity.
    + refine (Caught _ _ _ _ _ _ _ H); reflexivity.
  - destruct (taskOf (tasks node) g) as [[req [| | |]]|];
      try (injection H as <- _ _; auto; fail).
    destruct reply as [[recentBlockhash lastValid]|message].
    + unfold suspend in H. injection H as <- _ _. apply Same; reflexivity.
    + refine (Caught _ _ _ _ _ _ _ H); reflexivity.
  - destruct (taskOf (tasks node) g) as [[req [| |bh|]]|];
      try (injection H as <- _ _; auto; fail).
    destruct reply as [signature|message].
    + unfold suspend in H. injection H as <- _ _. apply Same; reflexivity.
    + refine (Caught _ _ _ _ _ _ _ H); reflexivity.
  - destruct (taskOf (tasks node) g) as [[req [| | |bh signature]]|];
      try (injection H as <- _ _; auto; fail).
    destruct reply as [[|]|message];
      try (refine (Caught _ _ _ _ _ _ _ H); reflexivity).
    unfold finish in H. injection H as <- _ _.
    cbn [server payoutHistory houseKeypair]. split; [reflexivity|].
    eexists. split; [reflexivity|]. cbn. apply Nat.le_refl.
Qed.

Lemma confirmations_cons :
  forall input inputs,
    confirmations (input :: inputs)
    = (confirmations [input] + confirmations inputs)%nat.
Proof.
  intros input inputs. unfold confirmations. cbn [filter].
  destruct input as [| | | |g [[|]|] clock]; reflexivity.
Qed.

Lemma run_history_grows :
  forall inputs node node' ress calls,
    run node inputs = (node', ress, calls) ->
    houseKeypair (server node') = houseKeypair (server node)
    /\ exists more,
         payoutHistory (server node')
         = (payoutHistory (server node) ++ more)%list
         /\ (List.length more <= confirmations inputs)%nat.
Proof.
  induction inputs as [|input inputs IH]; intros node node' ress calls H;
    cbn [PayoutServer.run] in H.
  - injection H as <- _ _. split; [reflexivity|].
    exists []. rewrite app_nil_r. split; [reflexivity | apply Nat.le_refl].
  - destruct (step node input) as [[node1 res] calls1] eqn:E1.
    destruct (run node1 inputs) as [[node2 ress2] calls2] eqn:E2.
    injection H as <- _ _.
    destruct (step_history_grows _ _ _ _ _ E1) as (K1 & more1 & H1 & L1).
    destruct (IH _ _ _ _ E2) as (K2 & more2 & H2 & L2).
    split; [congruence|].
    exists (more1 ++ more2)%list. split.
    + rewrite H2, H1, app_assoc. reflexivity.
    + rewrite confirmations_cons, length_app. lia.
Qed.

(** X3. Under any schedule of requests and replies, the payout history
    only grows at its end: what was recorded stays in place, the number
    of records added is at most the number of confirmations that came
    back without error, and the total that [/api/payouts] reports never
    goes down. *)
Theorem history_is_append_only :
  forall node inputs node' ress calls,
    run node inputs = (node', ress, calls) ->
    exists more,
      payoutHistory (server node')
      = (payoutHistory (server node) ++ more)%list
      /\ (List.length more <= confirmations inputs)%nat
      /\ (total (getPayouts (server node))
          <= total (getPayouts (server node')))%nat.
Proof.
  intros node inputs node' ress calls H.
  destruct (run_history_grows _ _ _ _ _ H) as (_ & more & E & L).
  exists more. split; [exact E|]. split; [exact L|].
  unfold getPayouts. cbn [total]. rewrite E, length_app. lia.
Qed.

(** X4. While a request for a game is suspended at one of the awaited
    calls, whatever else has happened meanwhile, another request for the
    same game is refused with status 409: no call is made and nothing
    changes. *)
Theorem pending_game_is_refused :
  forall node inputs node' ress calls req house,
    consistent node ->
    houseKeypair (server node) = Some house ->
    run node inputs = (node', ress, calls) ->
    wellFormed req = true ->
    In (gameId req) (gamesOf (tasks node')) ->
    step node' (arrives req)
    = (node',
       Some (failure 409 "Payout for this game is already being processed"),
       []).
Proof.
  intros node inputs node' ress calls req house I K H W G.
  pose proof (run_consistent _ _ _ _ _ _ _ I H) as (A & _).
  destruct (run_history_grows _ _ _ _ _ H) as (K' & _).
  apply A in G.
  cbn [PayoutServer.step]. rewrite wellFormed_guard, W, K', K, G. reflexivity.
Qed.

(** X5. A request that is paid (its answer carries the explorer link)
    shows up at once in [/api/payouts]: the total goes up by one and the
    last record listed is the one of this game, with the wallet and the
    amount of the request and the signature of the answer.  The listing
    never holds more than 50 records. *)
Theorem payouts_lists_new_payment :
  forall st req rpc st' res calls url,
    payout st req rpc = (st', res, calls) ->
    Res.explorerUrl res = Some url ->
    total (getPayouts st') = S (total (getPayouts st))
    /\ (List.length (payouts (getPayouts st')) <= 50)%nat
    /\ exists older p,
         payouts (getPayouts st') = (older ++ [p])%list
         /\ Rec.gameId p = gameId req
         /\ Rec.playerWallet p = playerWallet req
         /\ Rec.amount p = amount req
         /\ Res.signature res = Some (Rec.signature p).
Proof.
  intros st req rpc st' res calls url H U.
  destruct (payout_cases _ _ _ _ _ _ _ _ H)
    as [(_ & _ & E)|[(-> & -> & W & P & K & p & F & ->)
                    |(W & P & F & house & K & A)]].
  - unfold PayoutServer.payout in H. rewrite wellFormed_guard in H.
    destruct (wellFormed req); cbn [negb] in H;
      [|injection H as _ <- _; discriminate].
    destruct (houseKeypair st); [|injection H as _ <- _; discriminate].
    destruct (has _ _); [injection H as _ <- _; discriminate|].
    destruct (find _ _); [injection H as _ <- _; discriminate|].
    unfold attempt in H.
    destruct (negb (isPublicKey (playerWallet req)));
      [injection H as _ <- _; discriminate|].
    destruct (getBalance rpc); [|injection H as _ <- _; discriminate].
    destruct (Double.ltb _ _); [injection H as _ <- _; discriminate|].
    destruct (getLatestBlockhash rpc) as [[? ?]|];
      [|injection H as _ <- _; discriminate].
    destruct (sendRawTransaction rpc); [|injection H as _ <- _; discriminate].
    destruct (confirmTransaction rpc) as [[|]|];
      injection H as _ <- _; cbn in E; discriminate.
  - discriminate.
  - destruct (attempt_cases _ _ _ _ _ _ _ _ _ A) as (_ & _ & HH).
    cbn [payoutHistory withPending] in HH.
    destruct HH as [(_ & S' & _)|(sg & bh & _ & HH & _ & Sg & N)].
    + exfalso. clear - A U S'. unfold attempt, caught in A.
      destruct (negb (isPublicKey (playerWallet req)));
        [injection A as _ <- _; discriminate|].
      destruct (getBalance rpc); [|injection A as _ <- _; discriminate].
      destruct (Double.ltb _ _); [injection A as _ <- _; discriminate|].
      destruct (getLatestBlockhash rpc) as [[? ?]|];
        [|injection A as _ <- _; discriminate].
      destruct (sendRawTransaction rpc); [|injection A as _ <- _; discriminate].
      destruct (confirmTransaction rpc) as [[|]|];
        injection A as _ <- _; discriminate.
    + unfold getPayouts. cbn [total payouts]. rewrite HH.
      rewrite length_app. cbn [List.length].
      split; [lia|]. split.
      * unfold JsArray.sliceLast. rewrite length_skipn, length_app.
        cbn [List.length]. lia.
      * unfold JsArray.sliceLast. rewrite length_app. cbn [List.length].
        rewrite skipn_app.
        replace (List.length (payoutHistory st) + 1 - 50
                 - List.length (payoutHistory st))%nat with 0%nat by lia.
        cbn [skipn]. eexists. eexists. split; [reflexivity|].
        cbn. auto.
Qed.

End ServerSchedules.

Lemma one_record_per_game_witness :
  NoDup (map PayoutServer.Rec.gameId
           (PayoutServer.payoutHistory
              (PayoutServer.server
                 (fst (fst (afterSchedule (paidSchedule ++ paidSchedule))))))).
Proof.
  apply (one_record_per_game acceptAll "devnet" freshServer
           (paidSchedule ++ paidSchedule)
           (fst (fst (afterSchedule (paidSchedule ++ paidSchedule))))
           (snd (fst (afterSchedule (paidSchedule ++ paidSchedule))))
           (snd (afterSchedule (paidSchedule ++ paidSchedule))));
    [reflexivity | constructor | reflexivity].
Defined.

Lemma recorded_game_answered_from_record_witness :
  PayoutServer.step acceptAll "devnet"
    (fst (fst (afterSchedule paidSchedule))) (PayoutServer.arrives repeatedRequest)
  = (fst (fst (afterSchedule paidSchedule)),
     Some (cached "3Bxs4ThwQbE4vyj5payoutsignature"), []).
Proof.
  refine (recorded_game_answered_from_record acceptAll "devnet"
            (fst (fst (afterSchedule paidSchedule))) []
            (fst (fst (afterSchedule paidSchedule))) [] [] repeatedRequest
            {| PayoutServer.Rec.gameId := "game_1700000000000";
               PayoutServer.Rec.playerWallet := player;
               PayoutServer.Rec.amount := 2;
               PayoutServer.Rec.signature := "3Bxs4ThwQbE4vyj5payoutsignature";
               PayoutServer.Rec.blockhash :=
                 "9sHcv6xwn9YkB8nxTUGKDwPwNnmqVp5oAXxU8Fdkm4J6";
               PayoutServer.Rec.slot := 5;
               PayoutServer.Rec.timestamp := 1700000002000 |}
            "2Lohfz4wUTRGmr7cBGU12sd1TNZHBMLL4N9BMvBnoFaC" _ _ _ _ _);
    try reflexivity.
  apply (run_consistent acceptAll "devnet" paidSchedule freshNode _
           (snd (fst (afterSchedule paidSchedule)))
           (snd (afterSchedule paidSchedule)));
    [apply fresh_consistent; [reflexivity | constructor] | reflexivity].
Defined.

Lemma history_is_append_only_witness :
  exists more,
    PayoutServer.payoutHistory
      (PayoutServer.server (fst (fst (afterSchedule paidSchedule))))
    = ([] ++ more)%list
    /\ (List.length more <= confirmations paidSchedule)%nat
    /\ (ServerRoutes.total (ServerRoutes.getPayouts freshServer)
        <= ServerRoutes.total
             (ServerRoutes.getPayouts
                (PayoutServer.server (fst (fst (afterSchedule paidSchedule))))))%nat.
Proof.
  apply (history_is_append_only acceptAll "devnet" freshNode paidSchedule
           (fst (fst (afterSchedule paidSchedule)))
           (snd (fst (afterSchedule paidSchedule)))
           (snd (afterSchedule paidSchedule))).
  reflexivity.
Defined.

Lemma pending_game_is_refused_witness :
  PayoutServer.step acceptAll "devnet"
    (fst (fst (afterSchedule [PayoutServer.arrives winnerRequest])))
    (PayoutServer.arrives repeatedRequest)
  = (fst (fst (afterSchedule [PayoutServer.arrives winnerRequest])),
     Some (PayoutServer.failure 409
             "Payout for this game is already being processed"),
     []).
Proof.
  apply (pending_game_is_refused acceptAll "devnet" freshNode
           [PayoutServer.arrives winnerRequest]
           (fst (fst (afterSchedule [PayoutServer.arrives winnerRequest])))
           (snd (fst (afterSchedule [PayoutServer.arrives winnerRequest])))
           (snd (afterSchedule [PayoutServer.arrives winnerRequest]))
           repeatedRequest
           "2Lohfz4wUTRGmr7cBGU12sd1TNZHBMLL4N9BMvBnoFaC");
    [apply fresh_consistent; [reflexivity | constructor]
    | reflexivity | reflexivity | reflexivity | left; reflexivity].
Defined.

Lemma payouts_lists_new_payment_witness :
  ServerRoutes.total (ServerRoutes.getPayouts (fst (fst afterPayout))) = 1%nat
  /\ (List.length (ServerRoutes.payouts
                     (ServerRoutes.getPayouts (fst (fst afterPayout)))) <= 50)%nat
  /\ exists older p,
       ServerRoutes.payouts (ServerRoutes.getPayouts (fst (fst afterPayout)))
       = (older ++ [p])%list
       /\ PayoutServer.Rec.gameId p = "game_1700000000000"%string
       /\ PayoutServer.Rec.playerWallet p = player
       /\ PayoutServer.Rec.amount p = 2
       /\ PayoutServer.Res.signature (snd (fst afterPayout))
          = Some (PayoutServer.Rec.signature p).
Proof.
  apply (payouts_lists_new_payment acceptAll "devnet" freshServer
           winnerRequest (healthyRpc 5000000000) (fst (fst afterPayout))
           (snd (fst afterPayout)) (snd afterPayout)
           "https://explorer.solana.com/tx/3Bxs4ThwQbE4vyj5payoutsignature?cluster=devnet");
    reflexivity.
Defined.

(** ** Rotation of the server's endpoints *)

Section Rotation.
Import ServerRoutes.
Local Open Scope string_scope.

(** In a list without repetition, [indexOf] finds the position of each
    element. *)
Lemma indexOf_nth :
  forall (l : list string) (i : nat) (url : string),
    NoDup l -> nth_error l i = Some url ->
    JsArray.indexOf String.eqb l url = Z.of_nat i.
Proof.
  unfold JsArray.indexOf.
  induction l as [|u l IH]; intros i url D H.
  - destruct i; discriminate.
  - inversion D as [|? ? N D']; subst.
    destruct i as [|i]; cbn [nth_error] in H; cbn [JsArray.findIndex].
    + injection H as ->. rewrite String.eqb_refl. reflexivity.
    + destruct (String.eqb u url) eqn:E.
      * apply String.eqb_eq in E. subst u.
        exfalso. apply N. eapply nth_error_In; eauto.
      * rewrite (IH i url D' H).
        destruct (Z.ltb_spec (Z.of_nat i) 0); lia.
Qed.

Lemma rotateConnection_next :
  forall RPC_URLS i url,
    NoDup RPC_URLS -> nth_error RPC_URLS i = Some url ->
    rotateConnection RPC_URLS url
    = nth_error RPC_URLS (S i mod List.length RPC_URLS).
Proof.
  intros RPC_URLS i url D H.
  assert (L : (i < List.length RPC_URLS)%nat)
    by (apply nth_error_Some; congruence).
  unfold rotateConnection. rewrite (indexOf_nth _ _ _ D H).
  destruct RPC_URLS as [|u l] eqn:R; [cbn in L; lia|]. rewrite <- R in *.
  rewrite Z.rem_mod_nonneg by lia.
  unfold JsArray.at_.
  replace (Z.of_nat i + 1)%Z with (Z.of_nat (S i)) by lia.
  rewrite <- Nat2Z.inj_mod.
  destruct (Z.ltb_spec (Z.of_nat (S i mod List.length RPC_URLS)) 0); [lia|].
  rewrite Nat2Z.id. reflexivity.
Qed.

(** X6. When no endpoint is listed twice, rotation goes round the list:
    [k] rotations from the endpoint at position [i] lead to the one at
    position [(i + k) mod n], so that every endpoint is tried and [n]
    rotations come back to the start. *)
Theorem rotation_goes_round :
  forall RPC_URLS i url k,
    NoDup RPC_URLS -> nth_error RPC_URLS i = Some url ->
    rotations k RPC_URLS url
    = nth_error RPC_URLS ((i + k) mod List.length RPC_URLS)
    /\ rotations (List.length RPC_URLS) RPC_URLS url = Some url.
Proof.
  intros RPC_URLS i url k D H.
  assert (G : forall k i url,
            nth_error RPC_URLS i = Some url ->
            rotations k RPC_URLS url
            = nth_error RPC_URLS ((i + k) mod List.length RPC_URLS)).
  { clear i url k H. induction k as [|k IH]; intros i url H.
    - assert (L : (i < List.length RPC_URLS)%nat)
        by (apply nth_error_Some; congruence).
      cbn [rotations]. rewrite Nat.add_0_r, Nat.mod_small by exact L.
      symmetry. exact H.
    - assert (L : (i < List.length RPC_URLS)%nat)
        by (apply nth_error_Some; congruence).
      cbn [rotations]. rewrite (rotateConnection_next _ _ _ D H).
      destruct (nth_error RPC_URLS (S i mod List.length RPC_URLS))
        as [next|] eqn:E.
      + rewrite (IH _ _ E).
        rewrite Nat.Div0.add_mod_idemp_l.
        f_equal. f_equal. lia.
      + exfalso. apply nth_error_None in E.
        pose proof (Nat.mod_upper_bound (S i) (List.length RPC_URLS)). lia. }
  split; [apply G; exact H|].
  rewrite (G _ _ _ H).
  assert (L : (i < List.length RPC_URLS)%nat)
    by (apply nth_error_Some; congruence).
  rewrite <- (Nat.mul_1_l (List.length RPC_URLS)) at 1.
  rewrite Nat.Div0.mod_add, Nat.mod_small by exact L. exact H.
Qed.

End Rotation.

Lemma rotation_goes_round_witness :
  rotations 2 defaultRpcUrls "https://solana-mainnet.rpc.extrnode.com"
  = nth_error defaultRpcUrls ((1 + 2) mod List.length defaultRpcUrls)
  /\ rotations (List.length defaultRpcUrls) defaultRpcUrls
       "https://solana-mainnet.rpc.extrnode.com"
     = Some "https://solana-mainnet.rpc.extrnode.com"%string.
Proof.
  apply (rotation_goes_round defaultRpcUrls 1
           "https://solana-mainnet.rpc.extrnode.com" 2);
    [|reflexivity].
  repeat constructor; cbn; intuition discriminate.
Defined.

(** ** The crash round: run loop and cash-out *)

Section CrashRun.
Import Js CrashRound.

Variable pow : Q -> Q -> Q.
Variable E : Q.
Variable point : Q.
Variable amount : Q.
Variable publicKey : bool.
Variable before : GameStats.

(** The readings of the bet input that a press of the button may
    carry. *)
Variable pressed : option Q -> Prop.

Local Abbreviation tick := (CrashRound.tick pow E point amount publicKey).
Local Abbreviation react := (CrashRound.react pow E point amount publicKey).
Local Abbreviation play := (CrashRound.play pow E point amount publicKey).
Local Abbreviation invariant :=
  (roundInvariant point amount publicKey before pressed).

Lemma tick_invariant :
  forall now autoVal loop,
    crashed loop = false -> invariant loop -> invariant (tick now autoVal loop).
Proof.
  intros now autoVal loop C [M I]. unfold CrashRound.tick.
  set (rounded := inject_Z (Qfloor _) / 100).
  destruct (Qle_bool point rounded) eqn:P.
  - split; [cbn; discriminate|]. cbn [cashedOutRef payoutsRequested stats crashed].
    destruct (cashedOutRef loop) eqn:R.
    + exact I.
    + destruct I as [I1 I2]. rewrite C in I2. rewrite I2. auto.
  - apply Qle_bool_false_lt in P.
    assert (Plain :
      invariant
        {| cashedOutRef := cashedOutRef loop;
           simulatedElapsed :=
             simulatedElapsed loop
             + (now - lastTickTime loop) / 1000
               * (if cashedOutRef loop then 8 else speedMultiplier loop);
           lastTickTime := now;
           speedMultiplier := if cashedOutRef loop then 8 else speedMultiplier loop;
           multiplier := rounded;
           crashed := false;
           stats := stats loop;
           payoutsRequested := payoutsRequested loop |}).
    { split; [intros _; exact P|].
      cbn [cashedOutRef payoutsRequested stats crashed].
      destruct (cashedOutRef loop); [exact I|].
      rewrite C in I. exact I. }
    destruct autoVal as [autoVal|]; [|exact Plain].
    destruct (negb (cashedOutRef loop) && Qltb 1 autoVal
              && Qle_bool autoVal rounded) eqn:G; [|exact Plain].
    destruct (cashedOutRef loop) eqn:R; [discriminate|].
    destruct I as [I1 I2]. rewrite C in I2.
    unfold handleCashoutLogic. cbn [cashedOutRef].
    split; [intros _; exact P|].
    cbn [cashedOutRef payoutsRequested stats crashed].
    exists rounded, (Some amount). split; [exact P|].
    split; [left; reflexivity|]. rewrite I1, I2.
    split; [destruct publicKey; reflexivity | reflexivity].
Qed.

Lemma click_invariant :
  forall betAmount loop,
    pressed betAmount ->
    invariant loop ->
    invariant (handleManualCashout publicKey betAmount loop).
Proof.
  intros betAmount loop B I. unfold handleManualCashout.
  destruct (cashedOutRef loop) eqn:R; [exact I|].
  destruct (crashed loop) eqn:C; [exact I|].
  cbn [orb]. unfold handleCashoutLogic. rewrite R.
  destruct I as [M I]. rewrite R in I. destruct I as [I1 I2].
  split; [cbn; intros _; exact (M C)|].
  cbn [cashedOutRef payoutsRequested stats crashed].
  exists (multiplier loop), betAmount. split; [exact (M C)|].
  split; [right; exact B|]. rewrite I1, I2, C.
  split; [destruct publicKey; reflexivity | reflexivity].
Qed.

Lemma play_invariant :
  forall inputs loop,
    (forall betAmount, In (click betAmount) inputs -> pressed betAmount) ->
    invariant loop -> invariant (play loop inputs).
Proof.
  unfold CrashRound.play.
  induction inputs as [|input inputs IH]; intros loop B I; cbn [fold_left].
  - exact I.
  - apply IH; [intros b H; apply B; right; exact H|].
    destruct input as [now autoVal|betAmount]; cbn [CrashRound.react].
    + destruct (crashed loop) eqn:C; [exact I|].
      apply tick_invariant; assumption.
    + apply click_invariant; [apply B; left; reflexivity | exact I].
Qed.

Lemma startRunLoop_invariant :
  forall now now' autoVal,
    invariant (startRunLoop pow E point amount publicKey before now now' autoVal).
Proof.
  intros now now' autoVal. unfold startRunLoop.
  destruct (Qle_bool point (inject_Z (Qfloor
              (pow E ((6 / 100) * (0 + (now' - now) / 1000 * 1)) * 100)) / 100))
    eqn:P.
  - unfold CrashRound.tick.
    cbn [cashedOutRef simulatedElapsed lastTickTime speedMultiplier].
    rewrite P. split; [cbn; discriminate|]. cbn. auto.
  - unfold CrashRound.tick.
    cbn [cashedOutRef simulatedElapsed lastTickTime speedMultiplier].
    rewrite P. apply Qle_bool_false_lt in P.
    cbn [negb andb].
    destruct autoVal as [autoVal|].
    + destruct (Qltb 1 autoVal && Qle_bool autoVal _) eqn:G.
      * unfold handleCashoutLogic. cbn [cashedOutRef].
        split; [intros _; exact P|].
        cbn [cashedOutRef payoutsRequested stats crashed wins losses
             totalWagered totalWon app].
        eexists. exists (Some amount). split; [exact P|].
        split; [left; reflexivity|].
        split; [destruct publicKey; reflexivity | reflexivity].
      * split; [intros _; exact P|]. cbn. auto.
    + split; [intros _; exact P|]. cbn. auto.
Qed.

End CrashRun.

Section CrashOutcome.
Import Js CrashRound.

Variable pow : Q -> Q -> Q.
Variable E : Q.
Variable point : Q.
Variable amount : Q.
Variable publicKey : bool.
Variable before : GameStats.

Local Abbreviation playRound :=
  (CrashRound.play pow E point amount publicKey).

(** The round played from its start satisfies the invariant, with the
    readings of the bet input at the presses of the button. *)
Lemma round_invariant :
  forall now now' autoVal inputs,
    roundInvariant point amount publicKey before
      (fun betAmount => In (click betAmount) inputs)
      (playRound (startRunLoop pow E point amount publicKey before now now' autoVal)
            inputs).
Proof.
  intros now now' autoVal inputs.
  apply play_invariant; [auto | apply startRunLoop_invariant].
Qed.



End CrashOutcome.


(** ** Wager flows: what is sent and what is paid *)

Section BetsAndPayouts.
Import Js Flow ProvablyFair.
Local Open Scope string_scope.

(** A stake accepted by the bounds 0.001 and 10 and by the balance
    check. *)
Lemma accepted_stake :
  forall amount balance,
    Validation.validateAmount amount
    && negb (Qltb amount (1 / 1000)) && negb (Qltb 10 amount)
    && Validation.validateBalance amount balance = true ->
    1 / 1000 <= amount /\ amount <= 10
    /\ Double.ltb balance (Double.add amount (5 / 1000000)) = false.
Proof.
  intros amount balance V.
  apply andb_prop in V. destruct V as [V B].
  apply andb_prop in V. destruct V as [V U].
  apply andb_prop in V. destruct V as [_ L].
  apply negb_true_iff, Qltb_ge in L. apply negb_true_iff, Qltb_ge in U.
  unfold Validation.validateBalance in B.
  destruct (Qle_bool amount 0); [discriminate|].
  fold Validation.defaultFee.
  destruct (Double.ltb balance _); [discriminate|].
  auto.
Qed.

(** The events of a coin flip, by cases on the replies. *)
Lemma flipCoin_events :
  forall chain publicKey amount balance side e,
    In e (trace (CoinFlip.flipCoin chain publicKey amount balance side)) ->
    CoinFlip.validateBet amount balance = true
    /\ exists betSignature,
         sendTransaction chain = Some betSignature
         /\ (e = BetSubmitted (solToLamports amount) betSignature
             \/ (exists err, confirmTransaction chain = Some err
                             /\ e = BetConfirmation betSignature err)
             \/ (confirmTransaction chain = Some false
                 /\ ((exists seed, e = Digest seed)
                     \/ exists request,
                          e = Payout request
                          /\ PayoutService.playerWallet request = publicKey
                          /\ PayoutService.amount request
                             = amount * CoinFlip.winMultiplier))).
Proof.
  intros chain publicKey amount balance side e H.
  unfold CoinFlip.flipCoin in H.
  destruct (CoinFlip.validateBet amount balance); [|destruct H].
  split; [reflexivity|]. cbn [negb] in H.
  destruct (betBlockhash chain); [|destruct H].
  destruct (sendTransaction chain) as [sig|]; [|destruct H].
  exists sig. split; [reflexivity|].
  destruct (confirmTransaction chain) as [[|]|].
  - cbn in H. destruct H as [<-|[<-|[]]]; [left; reflexivity|].
    right. left. exists true. auto.
  - destruct (generate_cases (fairConnection chain) 50 (Some publicKey))
      as [E|(blockhash & slot & B & S & E)]; rewrite E in H.
    + cbn in H. destruct H as [<-|[<-|[]]]; [left; reflexivity|].
      right. left. exists false. auto.
    + cbn -[Qmult CoinFlip.winMultiplier] in H.
      destruct (Qltb _ 50); cbn -[Qmult CoinFlip.winMultiplier] in H.
      * destruct H as [<-|[<-|[<-|[<-|[]]]]].
        -- left; reflexivity.
        -- right. left. exists false. auto.
        -- right. right. split; [reflexivity|]. left. eexists. reflexivity.
        -- right. right. split; [reflexivity|]. right. eexists.
           split; [reflexivity|]. split; reflexivity.
      * destruct H as [<-|[<-|[<-|[]]]].
        -- left; reflexivity.
        -- right. left. exists false. auto.
        -- right. right. split; [reflexivity|]. left. eexists. reflexivity.
  - cbn in H. destruct H as [<-|[]]. left; reflexivity.
Qed.

(** The events of a dice round, by cases on the replies. *)
Lemma rollDice_events :
  forall chain publicKey amount balance target rollOver e,
    In e (trace (Dice.rollDice chain publicKey amount balance target rollOver)) ->
    Dice.validateBet amount balance = true
    /\ exists betSignature,
         sendTransaction chain = Some betSignature
         /\ (e = BetSubmitted (solToLamports amount) betSignature
             \/ (exists err, confirmTransaction chain = Some err
                             /\ e = BetConfirmation betSignature err)
             \/ (confirmTransaction chain = Some false
                 /\ ((exists seed, e = Digest seed)
                     \/ exists request,
                          e = Payout request
                          /\ PayoutService.playerWallet request = publicKey
                          /\ PayoutService.amount request
                             = amount * Dice.multiplier rollOver target))).
Proof.
  intros chain publicKey amount balance target rollOver e H.
  unfold Dice.rollDice in H.
  destruct (Dice.validateBet amount balance); [|destruct H].
  split; [reflexivity|]. cbn [negb] in H.
  destruct (betBlockhash chain); [|destruct H].
  destruct (sendTransaction chain) as [sig|]; [|destruct H].
  exists sig. split; [reflexivity|].
  destruct (confirmTransaction chain) as [[|]|].
  - cbn in H. destruct H as [<-|[<-|[]]]; [left; reflexivity|].
    right. left. exists true. auto.
  - destruct (generate_cases (fairConnection chain)
                (inject_Z (Dice.winChance rollOver target)) (Some publicKey))
      as [E|(blockhash & slot & B & S & E)]; rewrite E in H.
    + cbn in H. destruct H as [<-|[<-|[]]]; [left; reflexivity|].
      right. left. exists false. auto.
    + cbn -[Qmult Dice.multiplier Dice.wins Dice.rollOf String.append] in H.
      destruct (Dice.wins _ _ _);
        cbn -[Qmult Dice.multiplier Dice.wins Dice.rollOf String.append] in H.
      * destruct H as [<-|[<-|[<-|[<-|[<-|[]]]]]].
        -- left; reflexivity.
        -- right. left. exists false. auto.
        -- right. right. split; [reflexivity|]. left. eexists. reflexivity.
        -- right. right. split; [reflexivity|]. left. eexists. reflexivity.
        -- right. right. split; [reflexivity|]. right. eexists.
           split; [reflexivity|]. split; reflexivity.
      * destruct H as [<-|[<-|[<-|[<-|[]]]]].
        -- left; reflexivity.
        -- right. left. exists false. auto.
        -- right. right. split; [reflexivity|]. left. eexists. reflexivity.
        -- right. right. split; [reflexivity|]. left. eexists. reflexivity.
  - cbn in H. destruct H as [<-|[]]. left; reflexivity.
Qed.

(** X10. A bet that the coin flip or the dice game sends to the house
    has passed the checks of [validateBet]: the stake lies between 0.001
    and 10 SOL, the balance is not below the stake plus the fee of
    0.000005 SOL, added and compared in double precision as
    [validateBalance] does, and the amount transferred is
    [Math.floor(amount * LAMPORTS_PER_SOL)], the product rounded to a
    double before it is rounded down. *)
Theorem submitted_bets_are_valid :
  forall chain publicKey amount balance side target rollOver lamports
         betSignature,
    In (BetSubmitted lamports betSignature)
       (trace (CoinFlip.flipCoin chain publicKey amount balance side))
    \/ In (BetSubmitted lamports betSignature)
          (trace (Dice.rollDice chain publicKey amount balance target rollOver)) ->
    1 / 1000 <= amount /\ amount <= 10
    /\ Double.ltb balance (Double.add amount (5 / 1000000)) = false
    /\ lamports = Double.floor (Double.mul amount LAMPORTS_PER_SOL).
Proof.
  intros chain publicKey amount balance side target rollOver lamports
    betSignature [H|H].
  - apply flipCoin_events in H.
    destruct H as (V & sig & _ & [E|[(err & _ & E)|(_ & [(s & E)|(r & E & _)])]]);
      try discriminate.
    injection E as -> _.
    destruct (accepted_stake amount balance V) as (A & B & C). auto.
  - apply rollDice_events in H.
    destruct H as (V & sig & _ & [E|[(err & _ & E)|(_ & [(s & E)|(r & E & _)])]]);
      try discriminate.
    injection E as -> _.
    destruct (accepted_stake amount balance V) as (A & B & C). auto.
Qed.


(** X12. The roulette and the slots spin do not look at what the
    confirmation of the bet reports: with an error reported they draw
    the same result and ask for the same payout as without. *)
Theorem spins_ignore_confirmation_error :
  forall chain publicKey bets jackpot amount balance random random2 random3
         err,
    (value (Roulette.spin (withConfirmation chain (Some err)) publicKey bets
              balance random)
     = value (Roulette.spin (withConfirmation chain (Some false)) publicKey bets
                balance random)
     /\ payoutsOf (trace (Roulette.spin (withConfirmation chain (Some err))
                            publicKey bets balance random))
        = payoutsOf (trace (Roulette.spin (withConfirmation chain (Some false))
                              publicKey bets balance random)))
    /\ (value (Slots.spin (withConfirmation chain (Some err)) publicKey jackpot
                 amount balance random random2 random3)
        = value (Slots.spin (withConfirmation chain (Some false)) publicKey
                   jackpot amount balance random random2 random3)
        /\ payoutsOf (trace (Slots.spin (withConfirmation chain (Some err))
                               publicKey jackpot amount balance random random2
                               random3))
           = payoutsOf (trace (Slots.spin (withConfirmation chain (Some false))
                                 publicKey jackpot amount balance random
                                 random2 random3))).
Proof.
  intros chain publicKey bets jackpot amount balance random random2 random3 err.
  split.
  - unfold Roulette.spin.
    destruct bets as [|bet bets]; [split; reflexivity|].
    destruct (Double.ltb balance _); [split; reflexivity|].
    cbn [withConfirmation betBlockhash sendTransaction confirmTransaction now].
    destruct (betBlockhash chain); [|split; reflexivity].
    destruct (sendTransaction chain) as [sig|]; [|split; reflexivity].
    cbn -[Roulette.totalWinOf Roulette.totalBet Roulette.winningNumberOf
          solToLamports String.append].
    destruct (Qltb 0 _); split; reflexivity.
  - unfold Slots.spin.
    destruct (Qltb amount Slots.MIN_BET); [split; reflexivity|].
    destruct (Qltb Slots.MAX_BET amount); [split; reflexivity|].
    destruct (Qltb balance amount); [split; reflexivity|].
    cbn [withConfirmation betBlockhash sendTransaction confirmTransaction now].
    destruct (betBlockhash chain); [|split; reflexivity].
    destruct (sendTransaction chain) as [sig|]; [|split; reflexivity].
    cbn -[Slots.calculateWin Slots.getRandomSymbol solToLamports String.append
          Qmult Qplus].
    destruct (Qltb 0 _); split; reflexivity.
Qed.

End BetsAndPayouts.

Lemma submitted_bets_are_valid_witness :
  1 / 1000 <= 1 /\ 1 <= 10
  /\ Double.ltb 100 (Double.add 1 (5 / 1000000)) = false
  /\ 1000000000%Z = Double.floor (Double.mul 1 LAMPORTS_PER_SOL).
Proof.
  apply (submitted_bets_are_valid (wager firstBet 1700000000000 5) player
           1 100 ProvablyFair.tails 50 true 1000000000 firstBet).
  left. vm_compute. left. reflexivity.
Defined.


(** ** The dice over all digest bytes *)

Lemma slider_target :
  forall target, (2 <= target <= 98)%Z -> In target sliderTargets.
Proof.
  intros target H. unfold sliderTargets.
  rewrite <- (Z2Nat.id target) by lia.
  apply in_map, in_seq. lia.
Qed.

Lemma dice_chances_checked :
  forallb (fun target =>
             forallb (fun rollOver =>
                        Qle_bool (trueChance rollOver target)
                                 (inject_Z (Dice.winChance rollOver target))
                        && Qle_bool (expectedReturn rollOver target)
                                    (1 - Dice.HOUSE_EDGE)
                        && (0 <? winningBytes rollOver target)%Z)
                     [true; false])
          sliderTargets = true.
Proof. vm_compute. reflexivity. Qed.

(** X13. For every target the slider offers (2 to 98) and both
    directions, counting the 256 values the digest byte can take: the
    round can be won, the true chance of winning is at most the win
    chance displayed, and the stake returned on average is at most
    [1 - HOUSE_EDGE] = 99 percent. *)
Theorem dice_return_within_house_edge :
  forall rollOver target,
    (2 <= target <= 98)%Z ->
    (0 < winningBytes rollOver target)%Z
    /\ trueChance rollOver target <= inject_Z (Dice.winChance rollOver target)
    /\ expectedReturn rollOver target <= 1 - Dice.HOUSE_EDGE.
Proof.
  intros rollOver target H.
  pose proof dice_chances_checked as C.
  rewrite forallb_forall in C. specialize (C target (slider_target target H)).
  rewrite forallb_forall in C.
  assert (I : In rollOver [true; false])
    by (destruct rollOver; cbn; auto).
  specialize (C rollOver I).
  apply andb_prop in C. destruct C as [C P].
  apply andb_prop in C. destruct C as [A B].
  apply Qle_bool_iff in A. apply Qle_bool_iff in B. apply Z.ltb_lt in P.
  auto.
Qed.

Lemma dice_return_within_house_edge_witness :
  (0 < winningBytes false 50)%Z
  /\ trueChance false 50 <= inject_Z (Dice.winChance false 50)
  /\ expectedReturn false 50 <= 1 - Dice.HOUSE_EDGE.
Proof.
  apply (dice_return_within_house_edge false 50). lia.
Defined.

(** ** The reels of the slot machine *)

(** X14. A value [r] of [Math.random()] strictly between 0 and 1 gives
    the symbol [s] exactly when [r] times the total weight 122 lies
    above the weights of the symbols listed before [s] and at most at
    the weights up to [s]: each symbol has the share [WEIGHTS s / 122]
    of the draws. *)
Theorem symbol_has_its_share :
  forall (r : Q) (s : Slots.Symbol),
    0 < r -> r < 1 ->
    (Slots.getRandomSymbol r = s
     <-> lowerMark s < r * 122 /\ r * 122 <= upperMark s)
    /\ upperMark s - lowerMark s == Slots.WEIGHTS s.
Proof.
  intros r s L U. split; [|unfold lowerMark; ring].
  unfold Slots.getRandomSymbol.
  change (fold_left (fun a b : Q => a + b) (map Slots.WEIGHTS Slots.SYMBOLS) 0)
    with 122.
  assert (X0 : 0 < r * 122) by lra.
  assert (X1 : r * 122 < 122) by lra.
  set (x := r * 122) in *. clearbody x. clear L U.
  cbn [Slots.pick Slots.SYMBOLS Slots.WEIGHTS].
  destruct (Qle_bool (x - 1) 0) eqn:E1;
    [apply Qle_bool_iff in E1 | apply Qle_bool_false_lt in E1;
     destruct (Qle_bool (x - 1 - 3) 0) eqn:E2;
     [apply Qle_bool_iff in E2 | apply Qle_bool_false_lt in E2;
      destruct (Qle_bool (x - 1 - 3 - 8) 0) eqn:E3;
      [apply Qle_bool_iff in E3 | apply Qle_bool_false_lt in E3;
       destruct (Qle_bool (x - 1 - 3 - 8 - 15) 0) eqn:E4;
       [apply Qle_bool_iff in E4 | apply Qle_bool_false_lt in E4;
        destruct (Qle_bool (x - 1 - 3 - 8 - 15 - 25) 0) eqn:E5;
        [apply Qle_bool_iff in E5 | apply Qle_bool_false_lt in E5;
         destruct (Qle_bool (x - 1 - 3 - 8 - 15 - 25 - 30) 0) eqn:E6;
         [apply Qle_bool_iff in E6 | apply Qle_bool_false_lt in E6;
          destruct (Qle_bool (x - 1 - 3 - 8 - 15 - 25 - 30 - 40) 0) eqn:E7;
          [apply Qle_bool_iff in E7 | apply Qle_bool_false_lt in E7]]]]]]];
    destruct s; unfold lowerMark, upperMark;
    cbn [weightThrough Slots.SYMBOLS Slots.Symbol_eqb Slots.WEIGHTS];
    (split; [intro H; try discriminate H; split; lra
            | intros [A B]; try reflexivity; exfalso; lra]).
Qed.

Lemma symbol_has_its_share_witness :
  (Slots.getRandomSymbol (1 # 2) = Slots.cherry
   <-> lowerMark Slots.cherry < (1 # 2) * 122
       /\ (1 # 2) * 122 <= upperMark Slots.cherry)
  /\ upperMark Slots.cherry - lowerMark Slots.cherry
     == Slots.WEIGHTS Slots.cherry.
Proof.
  apply (symbol_has_its_share (1 # 2) Slots.cherry); reflexivity.
Defined.

(** X15. The win of a spin does not depend on the order of the three
    reels: any rearrangement of the symbols gives the same amount and
    the same label, so that two equal symbols pay wherever they stand. *)
Theorem win_independent_of_reel_order :
  forall jackpot s1 s2 s3 betAmt,
    let win := Slots.calculateWin jackpot (s1, s2, s3) betAmt in
    Slots.calculateWin jackpot (s2, s1, s3) betAmt = win
    /\ Slots.calculateWin jackpot (s1, s3, s2) betAmt = win
    /\ Slots.calculateWin jackpot (s3, s2, s1) betAmt = win
    /\ Slots.calculateWin jackpot (s2, s3, s1) betAmt = win
    /\ Slots.calculateWin jackpot (s3, s1, s2) betAmt = win.
Proof.
  intros jackpot s1 s2 s3 betAmt win. subst win.
  destruct s1, s2, s3; repeat split.
Qed.

(** ** The roulette board: neighbours on the wheel and chips on the table *)

Section RouletteTable.
Import Js Roulette RouletteBoard.

Lemma neighbour_count :
  forall count, (0 <= count <= 37)%Z -> In count neighbourCounts.
Proof.
  intros count H. unfold neighbourCounts.
  rewrite <- (Z2Nat.id count) by lia.
  apply in_map, in_seq. lia.
Qed.

Lemma neighbours_checked :
  forallb (fun num =>
             forallb (fun count => aroundPocket num count (getNeighbors num count))
                     neighbourCounts)
          pockets = true.
Proof. vm_compute. reflexivity. Qed.

Lemma findIndex_none :
  forall (A : Type) (test : A -> bool) (l : list A),
    (JsArray.findIndex test l < 0)%Z ->
    forall a, In a l -> test a = false.
Proof.
  intros A test l. induction l as [|b l IH]; intros H a I; [destruct I|].
  cbn [JsArray.findIndex] in H.
  destruct (test b) eqn:T; [lia|].
  destruct (Z.ltb_spec (JsArray.findIndex test l) 0) as [N|N]; [|lia].
  destruct I as [<-|I]; [exact T | apply IH; assumption].
Qed.

Lemma findIndex_lower :
  forall (A : Type) (test : A -> bool) (l : list A),
    (-1 <= JsArray.findIndex test l)%Z.
Proof.
  intros A test l. induction l as [|b l IH]; cbn [JsArray.findIndex]; [lia|].
  destruct (test b); [lia|].
  destruct (Z.ltb_spec (JsArray.findIndex test l) 0); lia.
Qed.

(** X16. For every pocket of the wheel and every count from 0 to 37,
    [getNeighbors] returns [2 * count + 1] pockets with the given pocket
    in the middle, none of them undefined; for a number that is not on
    the wheel it returns nothing. *)
Theorem neighbours_surround_the_pocket :
  forall num count,
    (0 <= count <= 37)%Z ->
    if (0 <=? num)%Z && (num <=? 36)%Z
    then aroundPocket num count (getNeighbors num count) = true
    else getNeighbors num count = [].
Proof.
  intros num count C.
  destruct ((0 <=? num)%Z && (num <=? 36)%Z) eqn:P.
  - apply andb_prop in P. destruct P as [L U].
    apply Z.leb_le in L. apply Z.leb_le in U.
    pose proof neighbours_checked as K.
    rewrite forallb_forall in K.
    specialize (K num (pocket_cases num (conj L U))).
    rewrite forallb_forall in K.
    exact (K count (neighbour_count count C)).
  - unfold getNeighbors.
    assert (N : JsArray.indexOf Z.eqb WHEEL_ORDER num = (-1)%Z).
    { unfold JsArray.indexOf.
      pose proof (findIndex_lower Z (fun a => (a =? num)%Z) WHEEL_ORDER) as Lo.
      destruct (Z.ltb_spec (JsArray.findIndex (fun a => (a =? num)%Z) WHEEL_ORDER) 0)
        as [Neg|Pos]; [lia|].
      exfalso.
      assert (Out : forall a, In a WHEEL_ORDER -> (a =? num)%Z = false).
      { intros a I. apply Z.eqb_neq. intros ->.
        assert (R : (0 <= num <= 36)%Z)
          by (cbn in I; repeat (destruct I as [<-|I]; [lia|]); destruct I).
        destruct R as [R1 R2].
        apply Z.leb_le in R1. apply Z.leb_le in R2.
        rewrite R1, R2 in P. discriminate. }
      clear - Out Pos. revert Pos Out.
      generalize WHEEL_ORDER as l.
      induction l as [|b l IH]; cbn [JsArray.findIndex]; intros Pos Out; [lia|].
      rewrite (Out b (or_introl eq_refl)) in Pos.
      destruct (Z.ltb_spec (JsArray.findIndex (fun a => (a =? num)%Z) l) 0)
        as [Neg|Pos']; [lia|].
      apply IH; [exact Pos' | intros a I; apply Out; right; exact I]. }
    rewrite N. reflexivity.
Qed.

Section Chip.

Variable selectedChip : Q.

(** The bet with one more chip on it. *)
Local Abbreviation raised :=
  (fun b => {| type := type b; value := value b;
               amount := Double.add (amount b) selectedChip |}).

(** What a chip on the spot [(t, v)] does to a bet of the table: the bet
    on that spot is raised, every other bet is left alone. *)
Local Abbreviation chipOn t v :=
  (fun b b' : Bet => (spot b = (t, v) -> b' = raised b)
                     /\ (spot b <> (t, v) -> b' = b)).

Lemma mapi_beyond :
  forall bets target i,
    (target < i)%Z ->
    mapi (fun b j => if (j =? target)%Z then raised b else b) i bets = bets.
Proof.
  induction bets as [|bet bets IH]; intros target i H; cbn [mapi]; [reflexivity|].
  destruct (Z.eqb_spec i target); [lia|].
  rewrite IH by lia. reflexivity.
Qed.

Lemma chipOn_elsewhere :
  forall t v bets,
    ~ In (t, v) (map spot bets) -> Forall2 (chipOn t v) bets bets.
Proof.
  intros t v. induction bets as [|bet bets IH]; intro N; constructor.
  - split; [|reflexivity]. intro E. exfalso. apply N. left. exact E.
  - apply IH. intro I. apply N. right. exact I.
Qed.

Lemma chipOn_spots :
  forall t v bets bets',
    Forall2 (chipOn t v) bets bets' -> map spot bets' = map spot bets.
Proof.
  intros t v bets bets' H.
  induction H as [|b b' bets bets' [R K] _ IH]; [reflexivity|].
  cbn [map]. rewrite IH. f_equal.
  destruct (spot b) as [t0 v0] eqn:E.
  assert (D : {(t0, v0) = (t, v)} + {(t0, v0) <> (t, v)}).
  { decide equality; [decide equality; apply Z.eq_dec | decide equality]. }
  destruct D as [D|D].
  - rewrite (R D). unfold spot in *. cbn [type value]. exact E.
  - rewrite (K D). exact E.
Qed.

Lemma mapi_raises_one :
  forall t v test bets i,
    (forall b, test b = true <-> spot b = (t, v)) ->
    NoDup (map spot bets) ->
    (0 <= JsArray.findIndex test bets)%Z ->
    Forall2 (chipOn t v) bets
      (mapi (fun b j =>
               if (j =? i + JsArray.findIndex test bets)%Z then raised b else b)
            i bets).
Proof.
  intros t v test bets i Spot. revert i.
  induction bets as [|bet bets IH]; intros i D H; cbn [JsArray.findIndex] in *;
    [lia|].
  inversion D as [|? ? Nb D']; subst.
  destruct (test bet) eqn:T.
  - cbn [mapi]. rewrite Z.add_0_r, Z.eqb_refl.
    rewrite mapi_beyond by lia.
    apply Spot in T. constructor.
    + split; [reflexivity|]. intro N. contradiction.
    + apply chipOn_elsewhere. rewrite <- T. exact Nb.
  - destruct (Z.ltb_spec (JsArray.findIndex test bets) 0) as [N|N]; [lia|].
    cbn [mapi]. destruct (Z.eqb_spec i (i + (JsArray.findIndex test bets + 1)));
      [lia|].
    replace (i + (JsArray.findIndex test bets + 1))%Z
      with ((i + 1) + JsArray.findIndex test bets)%Z by lia.
    constructor; [|apply IH; assumption].
    split; [|reflexivity]. intro E. apply Spot in E. congruence.
Qed.

(** X17. Placing a chip keeps the table sound.  The chip is refused,
    and the bets stay as they are, when the table is not open for
    betting or when the total staked plus the chip, summed in double
    precision as the code sums it, exceeds the balance.  Otherwise the
    spot holds a bet afterwards and no spot comes to hold two: when the
    spot already has a bet, that bet is raised by the chip and every
    other bet is left alone; when it has none, a bet of one chip is
    appended, and the new total is the sum that was checked, which
    does not exceed the balance. *)
Theorem chip_keeps_table_sound :
  forall gamePhase balance bets type value,
    NoDup (map spot bets) ->
    let bets' := addBet gamePhase selectedChip balance bets type value in
    let checked := Double.add (totalBet bets) selectedChip in
    NoDup (map spot bets')
    /\ (gamePhase <> betting \/ Double.ltb balance checked = true ->
        bets' = bets)
    /\ (gamePhase = betting -> Double.ltb balance checked = false ->
        In (type, value) (map spot bets')
        /\ (In (type, value) (map spot bets) ->
            Forall2 (chipOn type value) bets bets')
        /\ (~ In (type, value) (map spot bets) ->
            bets' = (bets ++ [{| Roulette.type := type;
                                 Roulette.value := value;
                                 Roulette.amount := selectedChip |}])%list
            /\ totalBet bets' = checked
            /\ Double.ltb balance (totalBet bets') = false)).
Proof.
  intros gamePhase balance bets t v D bets' checked. subst bets' checked.
  unfold addBet.
  destruct gamePhase;
    try (split; [exact D|]; split; [reflexivity|]; intro; discriminate).
  destruct (Double.ltb balance (Double.add (totalBet bets) selectedChip)) eqn:F;
    [split; [exact D|]; split; [reflexivity|]; intros; discriminate|].
  set (test := fun b => BetType_eqb (Roulette.type b) t
                        && value_eqb (Roulette.value b) v).
  assert (Spot : forall b, test b = true <-> spot b = (t, v)).
  { intro b. unfold test, spot. split.
    - intro H. apply andb_prop in H. destruct H as [H1 H2].
      destruct (Roulette.type b), t; try discriminate H1;
        destruct (Roulette.value b) as [x|], v as [y|]; try discriminate H2;
        try reflexivity; apply Z.eqb_eq in H2; subst; reflexivity.
    - intro H. injection H as -> ->.
      destruct t, v as [y|]; cbn; try reflexivity; apply Z.eqb_refl. }
  destruct (Z.leb_spec 0 (JsArray.findIndex test bets)) as [Found|Missing].
  - pose proof (mapi_raises_one t v test bets 0%Z Spot D Found) as R.
    cbn [Z.add] in R.
    pose proof (chipOn_spots _ _ _ _ R) as S.
    assert (Here : In (t, v) (map spot bets)).
    { clear - Found Spot. induction bets as [|b bets IH];
        cbn [JsArray.findIndex] in Found; [lia|].
      destruct (test b) eqn:E.
      + left. apply Spot, E.
      + right. apply IH.
        destruct (Z.ltb_spec (JsArray.findIndex test bets) 0); lia. }
    split; [rewrite S; exact D|].
    split; [intros [N|N]; [contradiction N; reflexivity | discriminate]|].
    intros _ _. split; [rewrite S; exact Here|].
    split; [intros _; exact R | intro N; contradiction].
  - assert (N : ~ In (t, v) (map spot bets)).
    { intro I. apply in_map_iff in I. destruct I as (b & E & I).
      apply Spot in E.
      rewrite (findIndex_none _ test bets Missing b I) in E. discriminate. }
    split; [|split].
    + rewrite map_app. cbn [map].
      clear - D N. revert D N. generalize (map spot bets) as l.
      induction l as [|a l IH]; intros D N; cbn [app].
      * constructor; [intros []|constructor].
      * inversion D as [|? ? Na D']; subst. constructor.
        -- intro I. apply in_app_or in I. destruct I as [I|[I|[]]];
             [exact (Na I) | apply N; left; symmetry; exact I].
        -- apply IH; [exact D' | intro I; apply N; right; exact I].
    + intros [K|K]; [contradiction K; reflexivity | discriminate].
    + intros _ _. split; [|split].
      * rewrite map_app. apply in_or_app. right. left. reflexivity.
      * intro I. contradiction.
      * intros _. split; [reflexivity|].
        assert (T : totalBet (bets ++ [{| Roulette.type := t;
                                          Roulette.value := v;
                                          Roulette.amount := selectedChip |}])
                    = Double.add (totalBet bets) selectedChip).
        { unfold totalBet. rewrite fold_left_app. reflexivity. }
        split; [exact T | rewrite T; exact F].
Qed.

End Chip.

End RouletteTable.

Lemma neighbours_surround_the_pocket_witness :
  aroundPocket 17 2 (RouletteBoard.getNeighbors 17 2) = true.
Proof.
  apply (neighbours_surround_the_pocket 17 2). lia.
Defined.

Lemma chip_keeps_table_sound_witness :
  let bets' :=
    RouletteBoard.addBet RouletteBoard.betting (1 # 10) (3 # 10)
      tenthBets Roulette.black None in
  NoDup (map spot bets')
  /\ bets' = tenthBets
  /\ Double.ltb (3 # 10) (Double.add (Roulette.totalBet tenthBets) (1 # 10))
     = true.
Proof.
  pose proof (chip_keeps_table_sound (1 # 10) RouletteBoard.betting (3 # 10)
                tenthBets Roulette.black None) as H.
  cbv zeta in H.
  destruct H as (D & R & _).
  - repeat constructor; cbn; intuition discriminate.
  - split; [exact D|]. split; [|vm_compute; reflexivity].
    apply R. right. vm_compute. reflexivity.
Defined.

(** Six chips of 0.05 on red against a balance of 0.3 are all accepted:
    in double precision the six sums end at the double 0.3. *)
Lemma six_chips_are_accepted :
  fold_left (fun bets _ =>
               RouletteBoard.addBet RouletteBoard.betting (5 # 100) (3 # 10)
                 bets Roulette.red None)
            (seq 0 6) []
  = [{| Roulette.type := Roulette.red; Roulette.value := None;
        Roulette.amount := Double.round (3 # 10) |}].
Proof. vm_compute. reflexivity. Qed.

(** ** Blackjack: the deck, the value of a hand and the dealer *)

Section Shuffle.
Context {A : Type}.

Lemma assign_length :
  forall (l : list A) i x, List.length (JsArray.assign l i x) = List.length l.
Proof.
  induction l as [|b l IH]; intros [|i] x; cbn; auto.
Qed.

Lemma assign_same :
  forall (l : list A) i x,
    (i < List.length l)%nat -> nth_error (JsArray.assign l i x) i = Some x.
Proof.
  induction l as [|b l IH]; intros [|i] x H; cbn in *; try lia; auto.
  apply IH. lia.
Qed.

Lemma assign_other :
  forall (l : list A) i j x,
    i <> j -> nth_error (JsArray.assign l i x) j = nth_error l j.
Proof.
  induction l as [|b l IH]; intros [|i] [|j] x H; cbn; try reflexivity;
    try congruence.
  apply IH. congruence.
Qed.

(** Storing [x] over [a] trades one for the other. *)
Lemma assign_trades :
  forall (l : list A) i a x,
    nth_error l i = Some a ->
    Permutation (x :: l) (a :: JsArray.assign l i x).
Proof.
  induction l as [|b l IH]; intros [|i] a x H; cbn in H; try discriminate.
  - injection H as ->. cbn. apply perm_swap.
  - cbn [JsArray.assign].
    apply perm_trans with (b :: x :: l); [apply perm_swap|].
    apply perm_trans with (b :: a :: JsArray.assign l i x);
      [apply perm_skip, IH, H | apply perm_swap].
Qed.

Lemma swap_permutes :
  forall (l l' : list A) i j,
    JsArray.swap l i j = Some l' ->
    Permutation l l' /\ List.length l' = List.length l.
Proof.
  intros l l' i j H. unfold JsArray.swap, JsArray.at_ in H.
  destruct (nth_error l i) as [a|] eqn:Ei; [|discriminate].
  destruct (Z.ltb_spec j 0) as [N|N]; [discriminate|].
  destruct (nth_error l (Z.to_nat j)) as [b|] eqn:Ej; [|discriminate].
  injection H as <-.
  split; [|rewrite !assign_length; reflexivity].
  assert (Li : (i < List.length l)%nat) by (apply nth_error_Some; congruence).
  assert (B : nth_error (JsArray.assign l i b) (Z.to_nat j) = Some b).
  { destruct (Nat.eq_dec i (Z.to_nat j)) as [<-|D].
    - apply assign_same, Li.
    - rewrite assign_other by exact D. exact Ej. }
  apply Permutation_cons_inv with b.
  apply perm_trans with (a :: JsArray.assign l i b).
  - apply assign_trades, Ei.
  - apply assign_trades, B.
Qed.

End Shuffle.

Section Deck.
Import Blackjack.

Lemma shuffleFrom_permutes :
  forall random i calls deck,
    (forall call, 0 <= random call /\ random call < 1) ->
    (i < List.length deck)%nat ->
    exists shuffled,
      shuffleFrom i calls random deck = Some shuffled
      /\ Permutation deck shuffled.
Proof.
  intros random i. induction i as [|i IH]; intros calls deck R L.
  - exists deck. split; [reflexivity | apply Permutation_refl].
  - cbn [shuffleFrom].
    set (j := Qfloor (random calls * inject_Z (Z.of_nat (S i + 1)))).
    assert (J : (0 <= j <= Z.of_nat (S i))%Z).
    { destruct (R calls) as [R0 R1]. subst j.
      set (n := Z.of_nat (S i + 1)).
      assert (Pn : 0 < inject_Z n)
        by (unfold Qlt, inject_Z; cbn; lia).
      assert (Lo : 0 <= random calls * inject_Z n).
      { apply Qmult_le_0_compat; [exact R0 | apply Qlt_le_weak, Pn]. }
      assert (Hi : random calls * inject_Z n < inject_Z n).
      { rewrite <- (Qmult_1_l (inject_Z n)) at 2.
        apply Qmult_lt_compat_r; assumption. }
      apply Qfloor_resp_le in Lo. change (Qfloor 0) with 0%Z in Lo.
      split; [exact Lo|].
      assert (F : (Qfloor (random calls * inject_Z n) < n)%Z).
      { apply Z.lt_nge. intro G.
        apply (Qlt_not_le _ _ Hi).
        apply Qle_trans with (inject_Z (Qfloor (random calls * inject_Z n)));
          [rewrite <- Zle_Qle; exact G | apply Qfloor_le]. }
      subst n. lia. }
    destruct (JsArray.swap deck (S i) j) as [deck'|] eqn:Sw.
    + destruct (swap_permutes _ _ _ _ Sw) as [P Len].
      destruct (IH (Datatypes.S calls) deck' R) as (shuffled & E & P');
        [lia|].
      exists shuffled. split; [exact E|].
      apply perm_trans with deck'; assumption.
    + exfalso. unfold JsArray.swap, JsArray.at_ in Sw.
      destruct (nth_error deck (S i)) eqn:Ei;
        [|apply nth_error_None in Ei; lia].
      destruct (Z.ltb_spec j 0); [lia|].
      destruct (nth_error deck (Z.to_nat j)) eqn:Ej; [discriminate|].
      apply nth_error_None in Ej. lia.
Qed.

Lemma freshDeck_distinct : NoDup freshDeck.
Proof.
  unfold freshDeck. cbn.
  repeat (constructor;
          [intro H; cbn in H;
           repeat (destruct H as [H|H]; [discriminate H|]); exact H|]).
  constructor.
Qed.

(** X18. Whatever values [Math.random()] returns, [createDeck] yields a
    rearrangement of the 52 cards of the fresh deck: every card of
    every suit once, none missing, none twice, all face up. *)
Theorem deck_is_a_permutation :
  forall random,
    (forall call, 0 <= random call /\ random call < 1) ->
    exists deck,
      createDeck random = Some deck
      /\ Permutation freshDeck deck
      /\ List.length deck = 52%nat
      /\ NoDup deck
      /\ forall s r, In {| suit := s; rank := r; faceUp := true |} deck.
Proof.
  intros random R.
  destruct (shuffleFrom_permutes random (List.length freshDeck - 1) 0
              freshDeck R) as (deck & E & P); [cbn; lia|].
  exists deck. split; [exact E|]. split; [exact P|]. split; [|split].
  - rewrite <- (Permutation_length P). reflexivity.
  - apply (Permutation_NoDup P), freshDeck_distinct.
  - intros s r. apply (Permutation_in _ P).
    unfold freshDeck. apply in_flat_map. exists s. split.
    + destruct s; cbn; auto.
    + apply (in_map (fun rank => {| suit := s; rank := rank; faceUp := true |})
               RANKS r).
      destruct r; cbn; auto 20.
Qed.

(** The loop over the hand counts the hard total with ten more for each
    ace, and the aces. *)
Lemma count_hand :
  forall hand value aces,
    fold_left
      (fun '(value, aces) card =>
         if negb (faceUp card) then (value, aces)
         else
           ((value + getCardValue card)%Z,
            if Rank_eqb (rank card) ace then S aces else aces))
      hand (value, aces)
    = ((value + hardTotal hand + 10 * acesUp hand)%Z,
       (aces + Z.to_nat (acesUp hand))%nat).
Proof.
  assert (N : forall hand, (0 <= acesUp hand)%Z).
  { induction hand as [|c hand IH]; cbn [acesUp]; [lia|].
    destruct (faceUp c && Rank_eqb (rank c) ace); lia. }
  induction hand as [|c hand IH]; intros value aces; cbn [fold_left].
  - cbn. f_equal; lia.
  - pose proof (N hand) as P.
    destruct c as [s r [|]]; cbn [faceUp negb rank].
    + rewrite IH. cbn [hardTotal acesUp faceUp rank andb].
      unfold hardValue, getCardValue. cbn [rank].
      destruct r; cbn [Rank_eqb]; f_equal; lia.
    + rewrite IH. cbn [hardTotal acesUp faceUp rank andb]. f_equal; lia.
Qed.

(** What the [while] loop does to a total that counts [aces] aces as
    11. *)
Lemma demote_spec :
  forall aces value,
    exists soft : nat,
      (soft <= aces)%nat
      /\ demote aces value = (value - 10 * Z.of_nat (aces - soft))%Z
      /\ ((21 < demote aces value)%Z -> soft = O)
      /\ ((soft < aces)%nat -> (21 < demote aces value + 10)%Z).
Proof.
  induction aces as [|aces IH]; intro value; cbn [demote].
  - exists O. repeat split; try lia.
  - destruct (Z.ltb_spec 21 value) as [B|B].
    + destruct (IH (value - 10)%Z) as (soft & L & E & Bust & Max).
      exists soft. split; [lia|]. split; [|split].
      * rewrite E. lia.
      * exact Bust.
      * intro Less. destruct (Nat.eq_dec soft aces) as [->|D].
        -- rewrite E. lia.
        -- apply Max. lia.
    + exists (S aces). repeat split; try lia.
Qed.

(** X19. The value of a hand is the best total of its face-up cards:
    the total with every ace as 1, plus ten for as many aces as fit
    without passing 21.  It exceeds 21 only when the hand is bust even
    with every ace as 1, and face-down cards do not count. *)
Theorem hand_value_is_best_total :
  forall hand,
    exists soft : Z,
      (0 <= soft <= acesUp hand)%Z
      /\ calculateHandValue hand = (hardTotal hand + 10 * soft)%Z
      /\ ((calculateHandValue hand <= 21)%Z <-> (hardTotal hand <= 21)%Z)
      /\ ((soft < acesUp hand)%Z -> (21 < calculateHandValue hand + 10)%Z)
      /\ ((21 < calculateHandValue hand)%Z -> soft = 0%Z).
Proof.
  intro hand. unfold calculateHandValue, count.
  rewrite count_hand. cbn [Nat.add Z.add].
  assert (N : forall hand, (0 <= acesUp hand)%Z).
  { induction hand0 as [|c hand0 IH]; cbn [acesUp]; [lia|].
    destruct (faceUp c && Rank_eqb (rank c) ace); lia. }
  pose proof (N hand) as P.
  destruct (demote_spec (Z.to_nat (acesUp hand))
              (hardTotal hand + 10 * acesUp hand)%Z)
    as (soft & L & E & Bust & Max).
  exists (Z.of_nat soft). split; [lia|]. split; [rewrite E; lia|].
  split; [|split].
  - split; intro H.
    + rewrite E in H. lia.
    + apply Z.le_ngt. intro B. specialize (Bust B). subst soft.
      rewrite E in B. lia.
  - intro Less. apply Max. lia.
  - intro B. rewrite (Bust B). reflexivity.
Qed.

(** X20. A hand is a blackjack exactly when it consists of two cards,
    both face up, one an ace and the other worth ten; in particular the
    dealer's hand is none while its second card lies face down. *)
Theorem blackjack_is_ace_and_ten :
  forall hand,
    isBlackjack hand = true
    <-> exists c1 c2,
          hand = [c1; c2]
          /\ faceUp c1 = true /\ faceUp c2 = true
          /\ ((rank c1 = ace /\ tenValued c2)
              \/ (tenValued c1 /\ rank c2 = ace)).
Proof.
  intro hand. unfold isBlackjack, tenValued. split.
  - intro H. apply andb_prop in H. destruct H as [L V].
    destruct hand as [|c1 [|c2 [|c3 hand]]]; try discriminate L.
    exists c1, c2. split; [reflexivity|].
    destruct c1 as [s1 r1 [|]], c2 as [s2 r2 [|]]; cbn [faceUp rank];
      destruct r1, r2; try discriminate V; intuition auto.
  - intros (c1 & c2 & -> & F1 & F2 & H).
    destruct c1 as [s1 r1 u1], c2 as [s2 r2 u2]. cbn [faceUp rank] in *.
    subst u1 u2.
    destruct H as [[-> [->|[->|[->| ->]]]]|[[->|[->|[->| ->]]] ->]];
      reflexivity.
Qed.

(** The loop of the dealer: the cards drawn are the first cards of the
    deck, in order; before each of them the hand was worth less than 17;
    and the loop ends at 17 or more, or with the deck used up. *)
Lemma dealerDraws_spec :
  forall deck hand,
    let '(hand', deck') := dealerDraws hand deck in
    exists drawn,
      hand' = (hand ++ drawn)%list
      /\ deck = (drawn ++ deck')%list
      /\ (forall k, (k < List.length drawn)%nat ->
                    (calculateHandValue (hand ++ firstn k drawn) < 17)%Z)
      /\ ((17 <= calculateHandValue hand')%Z \/ deck' = []).
Proof.
  induction deck as [|newCard deck IH]; intro hand; cbn [dealerDraws].
  - exists []. rewrite app_nil_r. repeat split; auto.
    intros k H. cbn in H. lia.
  - destruct (Z.ltb_spec (calculateHandValue hand) 17) as [Low|High].
    + specialize (IH (hand ++ [newCard])%list).
      destruct (dealerDraws (hand ++ [newCard]) deck) as [hand' deck'].
      destruct IH as (drawn & H & D & Before & Stop).
      exists (newCard :: drawn).
      split; [rewrite H, <- app_assoc; reflexivity|].
      split; [rewrite D; reflexivity|].
      split; [|exact Stop].
      intros [|k] K.
      * cbn [firstn]. rewrite app_nil_r. exact Low.
      * cbn [firstn].
        change (hand ++ newCard :: firstn k drawn)%list
          with (hand ++ [newCard] ++ firstn k drawn)%list.
        rewrite app_assoc. apply Before. cbn in K. lia.
    + exists []. rewrite app_nil_r. repeat split; auto.
      intros k H. cbn in H. lia.
Qed.

(** X21. When the player stands, the dealer turns the hidden card and
    draws from the top of the deck, one card at a time and in order,
    as long as the hand is worth less than 17: every card is drawn on a
    hand below 17, and the drawing stops with the first hand worth 17 or
    more, or when the deck is used up; from 17 upwards the dealer does
    not draw at all.  The round is then a win when the dealer is bust or
    below the player, a loss when the dealer is above the player, and a
    push on equal values. *)
Theorem dealer_draws_to_seventeen :
  forall playerHand dealerHand deck,
    let '(dealer, deckLeft, result) := stand playerHand dealerHand deck in
    (exists drawn,
       dealer = (map reveal dealerHand ++ drawn)%list
       /\ deck = (drawn ++ deckLeft)%list
       /\ (forall k, (k < List.length drawn)%nat ->
             (calculateHandValue (map reveal dealerHand ++ firstn k drawn)
              < 17)%Z))
    /\ ((17 <= calculateHandValue dealer)%Z \/ deckLeft = [])
    /\ ((17 <= calculateHandValue (map reveal dealerHand))%Z ->
        dealer = map reveal dealerHand /\ deckLeft = deck)
    /\ (result = win
        <-> (21 < calculateHandValue dealer
             \/ calculateHandValue dealer < calculateHandValue playerHand)%Z)
    /\ (result = lose
        <-> (calculateHandValue dealer <= 21
             /\ calculateHandValue playerHand < calculateHandValue dealer)%Z)
    /\ (result = push
        <-> (calculateHandValue dealer <= 21
             /\ calculateHandValue playerHand = calculateHandValue dealer)%Z)
    /\ result <> blackjack.
Proof.
  intros playerHand dealerHand deck. unfold stand.
  pose proof (dealerDraws_spec deck (map reveal dealerHand)) as D.
  destruct (dealerDraws (map reveal dealerHand) deck) as [dealer deckLeft].
  destruct D as (drawn & H & K & Before & Stop).
  split; [exists drawn; auto|]. split; [exact Stop|]. split.
  { intro High. destruct drawn as [|card drawn].
    - rewrite app_nil_r in H. auto.
    - exfalso. specialize (Before 0%nat). cbn [firstn] in Before.
      rewrite app_nil_r in Before. cbn [List.length] in Before. lia. }
  unfold outcome.
  destruct (Z.ltb_spec 21 (calculateHandValue dealer)) as [B|B];
    [|destruct (Z.ltb_spec (calculateHandValue dealer)
                  (calculateHandValue playerHand)) as [W|W];
      [|destruct (Z.ltb_spec (calculateHandValue playerHand)
                    (calculateHandValue dealer)) as [L|L]]];
    repeat split; intros; try congruence; try lia;
    try (exfalso; intuition lia).
Qed.

(** The dealer's hand only grows at its end. *)
Lemma dealerDraws_extends :
  forall deck hand,
    exists drawn, fst (dealerDraws hand deck) = (hand ++ drawn)%list.
Proof.
  induction deck as [|newCard deck IH]; intro hand; cbn [dealerDraws].
  - exists []. cbn. rewrite app_nil_r. reflexivity.
  - destruct (calculateHandValue hand <? 17)%Z.
    + destruct (IH (hand ++ [newCard])%list) as [drawn E].
      exists (newCard :: drawn). rewrite E, <- app_assoc. reflexivity.
    + exists []. cbn. rewrite app_nil_r. reflexivity.
Qed.

(** X27. A double down that does not bust is settled by the [stand] of
    the render in which the button was pressed: the player's hand is
    compared without the card just drawn, the dealer, when below 17,
    draws that same card first, and a win pays twice the single stake,
    that is, no more than the two stakes the player has transferred. *)
Theorem double_down_settles_without_the_drawn_card :
  forall amount playerHand dealerHand newCard deck,
    List.length playerHand = 2%nat ->
    (calculateHandValue (playerHand ++ [newCard]) <= 21)%Z ->
    0 <= amount ->
    exists s,
      doubleDown false amount playerHand dealerHand (newCard :: deck) = Some s
      /\ playerCards s = (playerHand ++ [newCard])%list
      /\ result s
         = outcome (calculateHandValue playerHand)
                   (calculateHandValue (dealerCards s))
      /\ ((calculateHandValue (map reveal dealerHand) < 17)%Z ->
          exists drawn,
            dealerCards s = (map reveal dealerHand ++ newCard :: drawn)%list)
      /\ payout s <= amount * 2
      /\ (result s = win -> payout s = amount * 2).
Proof.
  intros amount playerHand dealerHand newCard deck L V A.
  unfold doubleDown. rewrite L. cbn [Nat.eqb negb].
  destruct (Z.ltb_spec 21 (calculateHandValue (playerHand ++ [newCard])))
    as [B|_]; [lia|].
  unfold stand.
  destruct (dealerDraws_extends (newCard :: deck) (map reveal dealerHand))
    as [drawn E].
  assert (First : (calculateHandValue (map reveal dealerHand) < 17)%Z ->
                  exists rest, drawn = newCard :: rest).
  { intro Low. cbn [dealerDraws] in E.
    destruct (Z.ltb_spec (calculateHandValue (map reveal dealerHand)) 17);
      [|lia].
    destruct (dealerDraws_extends deck (map reveal dealerHand ++ [newCard]))
      as [rest R].
    rewrite R, <- app_assoc in E. apply app_inv_head in E.
    exists rest. symmetry. exact E. }
  destruct (dealerDraws (map reveal dealerHand) (newCard :: deck))
    as [dealer deckLeft].
  cbn [fst] in E. subst dealer.
  eexists. split; [reflexivity|].
  cbn [playerCards result dealerCards payout].
  split; [reflexivity|]. split; [reflexivity|].
  split; [|split].
  - intro Low. destruct (First Low) as [rest ->]. exists rest. reflexivity.
  - unfold payoutOf.
    destruct (outcome _ _) eqn:O; try lra.
    exfalso. unfold outcome in O.
    destruct (21 <? _)%Z; [discriminate|].
    destruct (_ <? _)%Z; [discriminate|].
    destruct (_ <? _)%Z; discriminate.
  - intros ->. reflexivity.
Qed.

End Deck.

Lemma deck_is_a_permutation_witness :
  exists deck,
    Blackjack.createDeck halves = Some deck
    /\ Permutation Blackjack.freshDeck deck
    /\ List.length deck = 52%nat
    /\ NoDup deck
    /\ forall s r,
         In {| Blackjack.suit := s; Blackjack.rank := r;
               Blackjack.faceUp := true |} deck.
Proof.
  apply (deck_is_a_permutation halves).
  intro call. split; [discriminate | reflexivity].
Defined.

Lemma double_down_settles_without_the_drawn_card_witness :
  exists s,
    Blackjack.doubleDown false 1
      [card Blackjack.five Blackjack.spades; card Blackjack.six Blackjack.hearts]
      [card Blackjack.ten Blackjack.clubs; hidden Blackjack.six Blackjack.clubs]
      (card Blackjack.two Blackjack.diamonds
       :: [card Blackjack.king Blackjack.spades]) = Some s
    /\ Blackjack.playerCards s
       = ([card Blackjack.five Blackjack.spades;
           card Blackjack.six Blackjack.hearts]
          ++ [card Blackjack.two Blackjack.diamonds])%list
    /\ Blackjack.result s
       = Blackjack.outcome
           (Blackjack.calculateHandValue
              [card Blackjack.five Blackjack.spades;
               card Blackjack.six Blackjack.hearts])
           (Blackjack.calculateHandValue (Blackjack.dealerCards s))
    /\ ((Blackjack.calculateHandValue
           (map Blackjack.reveal
              [card Blackjack.ten Blackjack.clubs;
               hidden Blackjack.six Blackjack.clubs]) < 17)%Z ->
        exists drawn,
          Blackjack.dealerCards s
          = (map Blackjack.reveal
               [card Blackjack.ten Blackjack.clubs;
                hidden Blackjack.six Blackjack.clubs]
             ++ card Blackjack.two Blackjack.diamonds :: drawn)%list)
    /\ Blackjack.payout s <= 1 * 2
    /\ (Blackjack.result s = Blackjack.win -> Blackjack.payout s = 1 * 2).
Proof.
  apply (double_down_settles_without_the_drawn_card 1
           [card Blackjack.five Blackjack.spades;
            card Blackjack.six Blackjack.hearts]
           [card Blackjack.ten Blackjack.clubs;
            hidden Blackjack.six Blackjack.clubs]
           (card Blackjack.two Blackjack.diamonds)
           [card Blackjack.king Blackjack.spades]);
    [reflexivity | vm_compute; discriminate | discriminate].
Defined.

(** ** Plinko: the slot a ball lands in *)

Section PlinkoLanding.
Import Js Plinko.

Lemma multipliers_checked :
  forall riskLevel,
    List.length (MULTIPLIERS riskLevel) = 13%nat
    /\ forallb (fun mult => Qle_bool (2 / 10) mult && Qle_bool mult 50)
               (MULTIPLIERS riskLevel) = true.
Proof. intros [| |]; split; reflexivity. Qed.

Lemma slotOf_range :
  forall riskLevel width x slot,
    slotOf (MULTIPLIERS riskLevel) width x = Some slot ->
    (0 <= slot <= 12)%Z.
Proof.
  intros riskLevel width x slot. unfold slotOf.
  rewrite (proj1 (multipliers_checked riskLevel)).
  change (Z.of_nat 13 - 1)%Z with 12%Z.
  destruct (Qeq_bool _ 0).
  - destruct (Qltb 0 (x - 10)); [intro H; injection H as <-; lia|].
    destruct (Qltb (x - 10) 0); [intro H; injection H as <-; lia|].
    discriminate.
  - intro H. injection H as <-. lia.
Qed.

(** X22. Wherever the ball reaches the bottom, even beside the board, it
    is given one of the 13 slots and the multiplier of that slot: the
    amount won is the stake times that multiplier, between 0.2 and 50
    times the stake, and a connected player is always sent a payout, also
    for a multiplier below 1.  The only exception is a canvas exactly 20
    wide with the ball at abscissa 10, where the slot is not a number. *)
Theorem ball_lands_in_a_slot :
  forall riskLevel publicKey width x betAmount,
    0 < betAmount ->
    match land riskLevel publicKey width x betAmount with
    | Some landing =>
        (0 <= slot landing <= 12)%Z
        /\ (exists mult,
              nth_error (MULTIPLIERS riskLevel) (Z.to_nat (slot landing))
              = Some mult
              /\ winAmount landing = betAmount * mult)
        /\ (2 / 10) * betAmount <= winAmount landing
        /\ winAmount landing <= 50 * betAmount
        /\ payoutRequested landing
           = (if publicKey then Some (winAmount landing) else None)
    | None => width == 20 /\ x == 10
    end.
Proof.
  intros riskLevel publicKey width x betAmount B. unfold land.
  destruct (slotOf (MULTIPLIERS riskLevel) width x) as [s|] eqn:S.
  - pose proof (slotOf_range _ _ _ _ S) as R.
    destruct (multipliers_checked riskLevel) as [Len All].
    unfold JsArray.at_.
    destruct (Z.ltb_spec s 0) as [N|N]; [lia|].
    destruct (nth_error (MULTIPLIERS riskLevel) (Z.to_nat s)) as [mult|] eqn:E;
      [|apply nth_error_None in E; lia].
    rewrite forallb_forall in All.
    specialize (All mult (nth_error_In _ _ E)).
    apply andb_prop in All. destruct All as [Lo Hi].
    apply Qle_bool_iff in Lo. apply Qle_bool_iff in Hi.
    change (2 / 10) with (2 # 10) in *.
    cbn [slot winAmount payoutRequested].
    assert (P : 0 < betAmount * mult)
      by (apply Qmult_lt_0_compat; [exact B | lra]).
    split; [exact R|]. split; [exists mult; auto|].
    split; [|split].
    + rewrite (Qmult_comm (2 # 10)). apply Qmult_le_l; assumption.
    + rewrite (Qmult_comm 50). apply Qmult_le_l; assumption.
    + apply Qltb_lt in P. rewrite P. destruct publicKey; reflexivity.
  - unfold slotOf in S. rewrite (proj1 (multipliers_checked riskLevel)) in S.
    destruct (Qeq_bool ((width - 20) / inject_Z (Z.of_nat 13)) 0) eqn:Z0;
      [|discriminate].
    destruct (Qltb 0 (x - 10)) eqn:A; [discriminate|].
    destruct (Qltb (x - 10) 0) eqn:C; [discriminate|].
    apply Qeq_bool_iff in Z0. apply Qltb_ge in A. apply Qltb_ge in C.
    split; [|lra].
    change (inject_Z (Z.of_nat 13)) with 13 in Z0.
    assert (W : width - 20 == (width - 20) / 13 * 13) by (field; discriminate).
    rewrite Z0 in W. lra.
Qed.

End PlinkoLanding.

Lemma ball_lands_in_a_slot_witness :
  match Plinko.land Plinko.high true 500 250 1 with
  | Some landing =>
      (0 <= Plinko.slot landing <= 12)%Z
      /\ (exists mult,
            nth_error (Plinko.MULTIPLIERS Plinko.high)
                      (Z.to_nat (Plinko.slot landing)) = Some mult
            /\ Plinko.winAmount landing = 1 * mult)
      /\ (2 / 10) * 1 <= Plinko.winAmount landing
      /\ Plinko.winAmount landing <= 50 * 1
      /\ Plinko.payoutRequested landing = Some (Plinko.winAmount landing)
  | None => 500 == 20 /\ 250 == 10
  end.
Proof.
  apply (ball_lands_in_a_slot Plinko.high true 500 250 1). reflexivity.
Defined.

(** ** Balance look-up with fallbacks, and shortened addresses *)

Section BalanceLookup.
Import SolanaUtils.

Variable rpcEndpoint : string.
Variable balanceAt : string -> option Z.

Lemma tryFallbacks_spec :
  forall primary fallbacks,
    let reply := replyAt rpcEndpoint primary balanceAt in
    let '(asked, result) := tryFallbacks rpcEndpoint balanceAt fallbacks in
    exists skipped,
      filter (fun rpcUrl => negb (String.eqb rpcUrl rpcEndpoint)) fallbacks
      = (asked ++ skipped)%list
      /\ match result with
         | Some sol =>
             exists failed rpcUrl balance,
               asked = (failed ++ [rpcUrl])%list
               /\ (forall u, In u failed -> reply u = None)
               /\ reply rpcUrl = Some balance
               /\ sol = lamportsToSol balance
         | None =>
             skipped = [] /\ forall u, In u asked -> reply u = None
         end.
Proof.
  intros primary fallbacks reply.
  induction fallbacks as [|rpcUrl rest IH]; cbn [tryFallbacks filter].
  - exists []. split; [reflexivity|]. split; [reflexivity | intros u []].
  - destruct (String.eqb rpcUrl rpcEndpoint) eqn:Same; cbn [negb].
    + exact IH.
    + destruct (balanceAt rpcUrl) as [balance|] eqn:B.
      * exists (filter (fun u => negb (String.eqb u rpcEndpoint)) rest).
        split; [reflexivity|].
        exists [], rpcUrl, balance. split; [reflexivity|].
        split; [intros u []|]. split; [|reflexivity].
        unfold reply, replyAt. rewrite Same. exact B.
      * destruct (tryFallbacks rpcEndpoint balanceAt rest) as [asked result].
        destruct IH as (skipped & F & R).
        exists skipped. split; [rewrite F; reflexivity|].
        assert (Failed : reply rpcUrl = None)
          by (unfold reply, replyAt; rewrite Same; exact B).
        destruct result as [sol|].
        -- destruct R as (failed & url & balance & -> & N & Y & S).
           exists (rpcUrl :: failed), url, balance.
           split; [reflexivity|]. split; [|auto].
           intros u [<-|I]; [exact Failed | apply N, I].
        -- destruct R as [-> N]. split; [reflexivity|].
           intros u [<-|I]; [exact Failed | apply N, I].
Qed.

(** X23. [getBalance] asks the connection's endpoint first and then the
    fallbacks in order, never the connection's endpoint again, and stops
    at the first one that answers: the result is that balance in SOL,
    every endpoint asked before it had failed, and the error is raised
    only when every one of them has failed. *)
Theorem balance_from_first_answer :
  forall primary FALLBACK_RPCS,
    let reply := replyAt rpcEndpoint primary balanceAt in
    let '(asked, result) :=
      getBalance rpcEndpoint primary FALLBACK_RPCS balanceAt in
    exists skipped,
      candidates rpcEndpoint FALLBACK_RPCS = (asked ++ skipped)%list
      /\ match result with
         | Some sol =>
             exists failed rpcUrl balance,
               asked = (failed ++ [rpcUrl])%list
               /\ (forall u, In u failed -> reply u = None)
               /\ reply rpcUrl = Some balance
               /\ sol = lamportsToSol balance
         | None =>
             skipped = [] /\ forall u, In u asked -> reply u = None
         end.
Proof.
  intros primary FALLBACK_RPCS reply. unfold getBalance, candidates.
  assert (Own : reply rpcEndpoint = primary)
    by (unfold reply, replyAt; rewrite String.eqb_refl; reflexivity).
  destruct primary as [balance|].
  - eexists. split; [reflexivity|].
    exists [], rpcEndpoint, balance. split; [reflexivity|].
    split; [intros u []|]. split; [exact Own | reflexivity].
  - pose proof (tryFallbacks_spec None FALLBACK_RPCS) as T. cbv zeta in T.
    destruct (tryFallbacks rpcEndpoint balanceAt FALLBACK_RPCS)
      as [asked result].
    destruct T as (skipped & F & R).
    exists skipped. split; [rewrite F; reflexivity|].
    destruct result as [sol|].
    + destruct R as (failed & url & balance & -> & N & Y & S).
      exists (rpcEndpoint :: failed), url, balance.
      split; [reflexivity|]. split; [|auto].
      intros u [<-|I]; [exact Own | apply N, I].
    + destruct R as [-> N]. split; [reflexivity|].
      intros u [<-|I]; [exact Own | apply N, I].
Qed.

End BalanceLookup.

Section Addresses.
Import SolanaUtils.
Local Open Scope string_scope.

Lemma length_append :
  forall s1 s2 : string,
    String.length (s1 ++ s2) = (String.length s1 + String.length s2)%nat.
Proof.
  induction s1 as [|c s1 IH]; intro s2; cbn; [reflexivity|].
  rewrite IH. reflexivity.
Qed.

Lemma length_substring :
  forall (s : string) (n m : nat),
    (n + m <= String.length s)%nat -> String.length (substring n m s) = m.
Proof.
  induction s as [|c s IH]; intros n m H.
  - cbn in H. assert (n = 0%nat) by lia. assert (m = 0%nat) by lia.
    subst. reflexivity.
  - destruct n as [|n].
    + destruct m as [|m]; [reflexivity|].
      cbn. rewrite IH; [reflexivity | cbn in H; lia].
    + cbn. apply IH. cbn in H. lia.
Qed.

Lemma substring_whole :
  forall s : string, substring 0 (String.length s) s = s.
Proof.
  induction s as [|c s IH]; cbn; [reflexivity|]. rewrite IH. reflexivity.
Qed.

(** A string is its first [k] characters followed by the rest. *)
Lemma substring_split :
  forall (s : string) (k : nat),
    (k <= String.length s)%nat ->
    s = substring 0 k s ++ substring k (String.length s - k) s.
Proof.
  induction s as [|c s IH]; intros k H.
  - cbn in H. assert (k = 0%nat) by lia. subst. reflexivity.
  - destruct k as [|k].
    + cbn [substring append Nat.sub String.length].
      rewrite substring_whole. reflexivity.
    + cbn [substring append Nat.sub String.length]. f_equal.
      apply IH. cbn in H. lia.
Qed.

(** X24. An address no longer than [startChars + endChars] is returned
    unchanged.  A longer one is shown as its first [startChars]
    characters, three dots and its last [endChars] characters,
    [startChars + 3 + endChars] characters in all; except with
    [endChars = 0], where [slice(-0)] is the whole address, which then
    follows the dots. *)
Theorem truncated_address_shows_both_ends :
  forall address startChars endChars,
    if (String.length address <=? startChars + endChars)%nat
    then truncateAddress address startChars endChars = address
    else
      exists first rest front last,
        address = first ++ rest /\ String.length first = startChars
        /\ address = front ++ last /\ String.length last = endChars
        /\ truncateAddress address startChars endChars
           = first ++ "..." ++ (if (endChars =? 0)%nat then address else last)
        /\ String.length (truncateAddress address startChars endChars)
           = if (endChars =? 0)%nat
             then (startChars + 3 + String.length address)%nat
             else (startChars + 3 + endChars)%nat.
Proof.
  intros address startChars endChars. unfold truncateAddress.
  destruct (Nat.leb_spec (String.length address) (startChars + endChars))
    as [Short|Long]; [reflexivity|].
  exists (substring 0 startChars address),
         (substring startChars (String.length address - startChars) address),
         (substring 0 (String.length address - endChars) address),
         (substring (String.length address - endChars) endChars address).
  split; [apply substring_split; lia|].
  split; [apply length_substring; lia|].
  split.
  { pose proof (substring_split address (String.length address - endChars))
      as E.
    replace (String.length address - (String.length address - endChars))%nat
      with endChars in E by lia.
    apply E. lia. }
  split; [apply length_substring; lia|].
  unfold sliceLast.
  destruct (Nat.eqb_spec endChars 0) as [->|Pos].
  - split; [reflexivity|].
    rewrite !length_append, length_substring by lia. cbn [String.length]. lia.
  - split; [reflexivity|].
    rewrite !length_append, !length_substring by lia. cbn [String.length]. lia.
Qed.

End Addresses.

(** ** Game history and leaderboard *)

Section History.
Context {Entry : Type}.

Lemma firstn_app_firstn :
  forall (l m : list Entry) (n k : nat),
    (n <= k)%nat -> firstn n (l ++ firstn k m) = firstn n (l ++ m).
Proof.
  induction l as [|a l IH]; intros m n k H; cbn [app].
  - rewrite firstn_firstn, Nat.min_l by exact H. reflexivity.
  - destruct n as [|n]; [reflexivity|]. cbn [firstn]. f_equal.
    apply IH. lia.
Qed.

(** X25. Starting from a history of at most [MAX_HISTORY] = 50 entries,
    after any number of rounds the history holds the latest 50 entries
    and no more, the newest first: the rounds added, latest first,
    followed by what was there before, cut after the fiftieth. *)
Theorem history_keeps_latest_fifty :
  forall entries history : list Entry,
    (List.length history <= 50)%nat ->
    addAll entries history = firstn 50 (rev entries ++ history)
    /\ (List.length (addAll entries history) <= 50)%nat.
Proof.
  assert (G : forall entries history : list Entry,
            (List.length history <= 50)%nat ->
            addAll entries history = firstn 50 (rev entries ++ history)).
  { induction entries as [|e entries IH]; intros history L.
    - cbn [rev app]. unfold addAll. cbn [fold_left].
      symmetry. apply firstn_all2, L.
    - unfold addAll in *. cbn [fold_left rev].
      unfold GameHistory.addEntry at 2, JsArray.sliceHead, GameHistory.MAX_HISTORY.
      rewrite IH by apply firstn_le_length.
      rewrite firstn_app_firstn by apply Nat.le_refl.
      rewrite <- app_assoc. reflexivity. }
  intros entries history L. split; [apply G, L|].
  rewrite (G entries history L). apply firstn_le_length.
Qed.

End History.

Lemma history_keeps_latest_fifty_witness :
  addAll [1%nat; 2%nat; 3%nat] [0%nat]
  = firstn 50 (rev [1%nat; 2%nat; 3%nat] ++ [0%nat])
  /\ (List.length (addAll [1%nat; 2%nat; 3%nat] [0%nat]) <= 50)%nat.
Proof.
  apply (history_keeps_latest_fifty [1%nat; 2%nat; 3%nat] [0%nat]). cbn. lia.
Defined.

Section LeaderboardOrder.
Import Js Leaderboard.

Lemma firstn_subset :
  forall (A : Type) n (l : list A) a, In a (firstn n l) -> In a l.
Proof.
  intros A n l. revert n.
  induction l as [|b l IH]; intros [|n] a H; cbn [firstn] in H;
    try contradiction.
  destruct H as [<-|H]; [left; reflexivity | right; eapply IH; exact H].
Qed.

Lemma firstn_distinct :
  forall (A : Type) n (l : list A), NoDup l -> NoDup (firstn n l).
Proof.
  intros A n l. revert n.
  induction l as [|a l IH]; intros [|n] D; cbn [firstn]; try constructor.
  - inversion D; subst. intro C. apply firstn_subset in C. contradiction.
  - inversion D; subst. apply IH. assumption.
Qed.

Lemma insert_permutes :
  forall (a : LeaderboardEntry) l,
    Permutation (a :: l) (JsArray.insert byTotalWon a l).
Proof.
  intros a l. induction l as [|b l IH]; cbn [JsArray.insert].
  - apply Permutation_refl.
  - destruct (byTotalWon a b); [apply Permutation_refl|].
    apply perm_trans with (b :: a :: l); [apply perm_swap|].
    apply perm_skip, IH.
Qed.

Lemma sort_permutes :
  forall l : list LeaderboardEntry,
    Permutation l (JsArray.sort byTotalWon l).
Proof.
  unfold JsArray.sort. induction l as [|a l IH]; cbn [fold_right].
  - apply Permutation_refl.
  - apply perm_trans with (a :: fold_right (JsArray.insert byTotalWon) [] l);
      [apply perm_skip, IH | apply insert_permutes].
Qed.

Lemma insert_ranked :
  forall a l, ranked l -> ranked (JsArray.insert byTotalWon a l).
Proof.
  unfold ranked. intros a l. induction l as [|b l IH]; intro R;
    cbn [JsArray.insert].
  - constructor; constructor.
  - inversion R as [|? ? R' F]; subst.
    destruct (byTotalWon a b) eqn:E; unfold byTotalWon in E.
    + apply Qle_bool_iff in E. constructor; [exact R|].
      constructor; [exact E|].
      apply Forall_impl with (2 := F). intros c C.
      apply Qle_trans with (totalWon b); assumption.
    + assert (Lt : totalWon a <= totalWon b).
      { apply Qlt_le_weak, Qnot_le_lt. intro C.
        apply Qle_bool_iff in C. congruence. }
      constructor; [apply IH, R'|].
      apply (Permutation_Forall (insert_permutes a l)).
      constructor; assumption.
Qed.

Lemma sort_ranked :
  forall l, ranked (JsArray.sort byTotalWon l).
Proof.
  unfold JsArray.sort. induction l as [|a l IH]; cbn [fold_right].
  - constructor.
  - apply insert_ranked, IH.
Qed.

Lemma firstn_ranked :
  forall n l, ranked l -> ranked (firstn n l).
Proof.
  unfold ranked. intros n l. revert n.
  induction l as [|a l IH]; intros [|n] R; cbn [firstn]; try constructor.
  - inversion R; subst. apply IH. assumption.
  - inversion R as [|? ? R' F]; subst.
    rewrite Forall_forall in *. intros c C. apply F.
    eapply firstn_subset; exact C.
Qed.

Lemma find_address :
  forall address prev,
    match find (fun e => String.eqb (Leaderboard.address e) address) prev with
    | Some existing =>
        In existing prev /\ Leaderboard.address existing = address
    | None => forall e, In e prev -> Leaderboard.address e <> address
    end.
Proof.
  intros address prev.
  destruct (find _ prev) as [existing|] eqn:F.
  - apply find_some in F. destruct F as [I E].
    apply String.eqb_eq in E. auto.
  - intros e I E. apply (find_none _ _ F) in I.
    apply String.eqb_neq in I. contradiction.
Qed.

(** What sorting and cutting keep of a list of entries in which
    [newEntry] is the only one with the address [address]. *)
Lemma board_of_updated :
  forall address newEntry prev updated,
    NoDup (map Leaderboard.address updated) ->
    (forall e, In e updated ->
               (e = newEntry /\ Leaderboard.address e = address)
               \/ (In e prev /\ Leaderboard.address e <> address)) ->
    let board := JsArray.sliceHead MAX_ENTRIES (JsArray.sort byTotalWon updated) in
    ranked board
    /\ (List.length board <= 100)%nat
    /\ NoDup (map Leaderboard.address board)
    /\ (forall e, In e board -> Leaderboard.address e = address -> e = newEntry)
    /\ (forall e, In e board -> Leaderboard.address e <> address -> In e prev).
Proof.
  intros address newEntry prev updated Names Cases board. subst board.
  unfold JsArray.sliceHead, MAX_ENTRIES.
  assert (Sub : forall e, In e (firstn 100 (JsArray.sort byTotalWon updated)) ->
                          In e updated).
  { intros e I. apply firstn_subset in I.
    apply (Permutation_in _ (Permutation_sym (sort_permutes updated))), I. }
  split; [apply firstn_ranked, sort_ranked|].
  split; [apply firstn_le_length|].
  split; [|split].
  - rewrite <- firstn_map. apply firstn_distinct.
    apply (Permutation_NoDup (Permutation_map _ (sort_permutes updated))).
    exact Names.
  - intros e I A. apply Sub, Cases in I.
    destruct I as [[-> _]|[_ N]]; [reflexivity | contradiction].
  - intros e I N. apply Sub, Cases in I.
    destruct I as [[_ A]|[I _]]; [contradiction | exact I].
Qed.

(** X26. An update of the leaderboard keeps it in order: the entries are
    ranked by the total won, there are at most [MAX_ENTRIES] = 100 of
    them, and no address is listed twice if none was before.  The entry
    of the player who played, if it is on the board, counts one game
    more than before (one game for a new player) and its win rate is its
    wins over its games; the other entries are those of before. *)
Theorem leaderboard_stays_ranked :
  forall address betAmount won payout now prev,
    NoDup (map Leaderboard.address prev) ->
    let board := updateEntry address betAmount won payout now prev in
    ranked board
    /\ (List.length board <= 100)%nat
    /\ NoDup (map Leaderboard.address board)
    /\ (forall e,
          In e board -> Leaderboard.address e = address ->
          played e
          = (match find (fun e => String.eqb (Leaderboard.address e) address)
                        prev with
             | Some existing => played existing + 1
             | None => 1
             end)%Z
          /\ winRate e == (inject_Z (wins e) / inject_Z (played e)) * 100)
    /\ (forall e,
          In e board -> Leaderboard.address e <> address -> In e prev).
Proof.
  intros address betAmount won payout now prev D board. subst board.
  unfold updateEntry.
  pose proof (find_address address prev) as F.
  destruct (find (fun e => String.eqb (Leaderboard.address e) address) prev)
    as [old|].
  - destruct F as [Old Name].
    match goal with
    | |- context [map (fun e => if _ then ?n else e) prev] =>
        set (newEntry := n)
    end.
    destruct (board_of_updated address newEntry prev
                (map (fun e => if String.eqb (Leaderboard.address e) address
                               then newEntry else e) prev))
      as (R & L & N & Mine & Others).
    + rewrite map_map.
      replace (map (fun e => Leaderboard.address
                       (if String.eqb (Leaderboard.address e) address
                        then newEntry else e)) prev)
        with (map Leaderboard.address prev); [exact D|].
      apply map_ext. intro e.
      destruct (String.eqb_spec (Leaderboard.address e) address) as [Y|No];
        [subst newEntry; cbn; congruence | reflexivity].
    + intros e I. apply in_map_iff in I. destruct I as (e0 & E & I).
      destruct (String.eqb_spec (Leaderboard.address e0) address) as [Y|No].
      * left. subst e. split; [reflexivity | exact Name].
      * right. subst e. auto.
    + split; [exact R|]. split; [exact L|]. split; [exact N|].
      split; [|exact Others].
      intros e I A. rewrite (Mine e I A). subst newEntry. unfold played.
      cbn [wins losses winRate].
      split; [destruct won; lia|].
      replace (wins old + (if won then 1 else 0)
               + (losses old + (if won then 0 else 1)))%Z
        with (wins old + losses old + 1)%Z by (destruct won; lia).
      reflexivity.
  - match goal with
    | |- context [(prev ++ [?n])%list] => set (newEntry := n)
    end.
    destruct (board_of_updated address newEntry prev (prev ++ [newEntry])%list)
      as (R & L & N & Mine & Others).
    + rewrite map_app. cbn [map].
      apply (Permutation_NoDup
               (Permutation_cons_append (map Leaderboard.address prev)
                  (Leaderboard.address newEntry))).
      constructor; [|exact D].
      intro I. apply in_map_iff in I. destruct I as (e & E & I).
      apply (F e I). subst newEntry. exact E.
    + intros e I. apply in_app_or in I. destruct I as [I|[<-|[]]].
      * right. split; [exact I | apply F, I].
      * left. split; reflexivity.
    + split; [exact R|]. split; [exact L|]. split; [exact N|].
      split; [|exact Others].
      intros e I A. rewrite (Mine e I A). subst newEntry. unfold played.
      cbn [wins losses winRate].
      destruct won; split; reflexivity.
Qed.

End LeaderboardOrder.

Lemma leaderboard_stays_ranked_witness :
  let board := Leaderboard.updateEntry player 1 true 2 1700000003000 oneEntry in
  ranked board
  /\ (List.length board <= 100)%nat
  /\ NoDup (map Leaderboard.address board)
  /\ (forall e,
        In e board -> Leaderboard.address e = player ->
        played e
        = (match find (fun e => String.eqb (Leaderboard.address e) player)
                      oneEntry with
           | Some existing => played existing + 1
           | None => 1
           end)%Z
        /\ Leaderboard.winRate e
           == (inject_Z (Leaderboard.wins e) / inject_Z (played e)) * 100)
  /\ (forall e,
        In e board -> Leaderboard.address e <> player -> In e oneEntry).
Proof.
  apply (leaderboard_stays_ranked player 1 true 2 1700000003000 oneEntry).
  repeat constructor. intros [].
Defined.
